(** * Procurement calculator and dependency scheduler: a shallow embedding

    Embedded sources:
    - [calculator/tiered_columns.py]: [find_tier_columns], [pick_tier_value]
    - [calculator/logic.py]: [_extract_number_token], [_to_float], [_to_int],
      [_ceil_to_lot], [_apply_pricing_overheads], [_prepare_fields],
      [compute_offer]
    - [streamlit_app.py]: [_extract_assembly_days], [_resolve_dependencies],
      [_backward_schedule_with_deps], [_forward_schedule_with_custom_starts]

    Conventions.
    - Python [int] is [Z]; Python [float] is the kernel's binary64 [float];
      [int // int] with a positive divisor is [Z.div].
    - Exceptions are values of [py A]: [Ok a] or [Raise e].
    - [str] is [string], read as ASCII text.
    - A [datetime.date] is its day number ([date.toordinal()]), an integer;
      adding or subtracting a [timedelta(days=n)] adds or subtracts [n].
      The calendar's year range (1..9999) is not represented.
    - A [pd.Series] row is a finite map from column label to cell.  A
      [pd.DataFrame] read with [dtype=str] is its list of column labels and
      its rows, each a finite map from label to text; a missing entry is an
      empty cell (NaN).
    - The [re] module is a parameter where the pattern comes from the
      caller ([find_tier_columns]): [re_compile p] is [None] when the
      pattern is rejected, else the search function of the compiled
      pattern.  The one pattern fixed in the source is embedded as a
      matcher.
    - A dict whose iteration order is observed ([deps_map.items()]) is an
      association list in insertion order; dicts that are only looked up are
      [gmap]s; a [set] is a [gset].  The values of [deps_map] are lists (the
      source reads [None] as the empty list).
    - [config] is read at its key ["pricing"] only, which is absent, or
      holds a dict whose entries are numbers or [None], or holds an object
      that is not a dict (the [None] of an empty section).
    - Recursive functions take a recursion budget and return [None] when it
      is exhausted; the theorems give the budget that is always enough.  The
      interpreter's own recursion limit is not represented. *)

From Stdlib Require Import ZArith Floats Ascii String DecimalPos DecimalString Lia.
From stdpp Require Import base option list sorting strings gmap.

Set Warnings "-inexact-float,-clear-no-such-hyp,-level-tolerance".
Open Scope Z_scope.

(** ** Python results *)

Inductive exn :=
  ValueError | TypeError | OverflowError | KeyError | IndexError | AttributeError.

Inductive py (A : Type) : Type :=
| Ok (a : A)
| Raise (e : exn).
Arguments Ok {A} a.
Arguments Raise {A} e.

Definition py_bind {A B} (m : py A) (k : A -> py B) : py B :=
  match m with
  | Ok a => k a
  | Raise e => Raise e
  end.

Notation "x <- m ;;; k" := (py_bind m (fun x => k))
  (at level 100, m at next level, right associativity).

(** [try: body  except Exception: handler] *)
Definition try_except {A} (body : py A) (handler : exn -> py A) : py A :=
  match body with
  | Ok a => Ok a
  | Raise e => handler e
  end.

(** ** Numbers *)

Inductive num :=
| NInt (z : Z)
| NFloat (f : float).

(** Nearest binary64 to the decimal [(-1)^neg * n / 10^k]: what [float(s)]
    gives for a decimal literal [s] without exponent. *)
Definition float_of_decimal (neg : bool) (n : Z) (k : nat) : float :=
  match n with
  | Zpos p =>
      SF2Prim (SFdiv prec emax (S754_finite neg p 0)
                 (S754_finite false (Z.to_pos (10 ^ Z.of_nat k)) 0))
  | _ => SF2Prim (S754_zero neg)
  end.

(** [float(n)] and the implicit conversion of [n * x] for an int [n]:
    [OverflowError] when [n] is too large for a float. *)
Definition float_of_int (z : Z) : py float :=
  match binary_normalize prec emax z 0 false with
  | S754_infinity _ => Raise OverflowError
  | s => Ok (SF2Prim s)
  end.

(** [int(x)] for a float [x]: truncation towards zero. *)
Definition int_of_float (x : float) : py Z :=
  match Prim2SF x with
  | S754_nan => Raise ValueError
  | S754_infinity _ => Raise OverflowError
  | S754_zero _ => Ok 0
  | S754_finite s m e =>
      let a := Z.shiftl (Zpos m) e in
      Ok (if s then - a else a)
  end.

Definition py_float_of_num (n : num) : py float :=
  match n with
  | NInt z => float_of_int z
  | NFloat f => Ok f
  end.

(** ** Cell values and text *)

Inductive value :=
| VNone
| VBool (b : bool)
| VInt (z : Z)
| VFloat (f : float)
| VStr (s : string).

(** The text [str(value)] of a number: a decimal string for an [int] (and
    [True]/[False] for a [bool]); the [repr] of a float is kept symbolic. *)
Inductive pystr :=
| Text (s : string)
| FloatRepr (f : float).

(** [str(z)], in decimal.  (CPython from 3.11 on refuses to print an int of
    more than 4300 digits; the statements about ints stay below that.) *)
Definition str_of_int (z : Z) : string :=
  NilZero.string_of_int (Z.to_int z).

Definition is_digit (c : ascii) : bool :=
  let n := nat_of_ascii c in ((48 <=? n)%nat && (n <=? 57)%nat)%bool.

Definition is_sign (c : ascii) : bool :=
  (Ascii.eqb c "-" || Ascii.eqb c "+")%bool.

Definition is_sep (c : ascii) : bool :=
  (Ascii.eqb c "." || Ascii.eqb c ",")%bool.

(** Greedy [\d*]: the longest prefix of digits and the rest. *)
Fixpoint span_digits (s : string) : string * string :=
  match s with
  | String c t =>
      if is_digit c then
        let '(d, r) := span_digits t in (String c d, r)
      else (EmptyString, s)
  | EmptyString => (EmptyString, EmptyString)
  end.

(** The regular expression [[-+]?\d+(?:[\.,]\d+)?] anchored at the start of
    [s]; every quantifier is greedy and nothing follows the optional group,
    so backtracking never shortens a successful match. *)
Definition match_number (s : string) : option string :=
  let '(sg, s1) :=
    match s with
    | String c t => if is_sign c then (String c EmptyString, t) else (EmptyString, s)
    | EmptyString => (EmptyString, s)
    end in
  let '(ds, s2) := span_digits s1 in
  match ds with
  | EmptyString => None
  | _ =>
      match s2 with
      | String c t =>
          if is_sep c then
            let '(fs, _) := span_digits t in
            match fs with
            | EmptyString => Some (sg +:+ ds)
            | _ => Some (sg +:+ ds +:+ String c fs)
            end
          else Some (sg +:+ ds)
      | EmptyString => Some (sg +:+ ds)
      end
  end.

(** [re.search(pattern, text)]: the leftmost match. *)
Fixpoint re_search (s : string) : option string :=
  match match_number s with
  | Some tok => Some tok
  | None =>
      match s with
      | String _ t => re_search t
      | EmptyString => None
      end
  end.

(** [s.replace(",", ".")] *)
Fixpoint replace_comma (s : string) : string :=
  match s with
  | String c t => String (if Ascii.eqb c "," then "."%char else c) (replace_comma t)
  | EmptyString => EmptyString
  end.

Definition pystr_replace_comma (t : pystr) : pystr :=
  match t with
  | Text s => Text (replace_comma s)
  | FloatRepr f => FloatRepr f
  end.

(** The integer written by a string of decimal digits. *)
Definition digits_to_Z (s : string) : Z :=
  match NilEmpty.uint_of_string s with
  | Some u => Z.of_uint u
  | None => 0
  end.

(** [float(s)] on the texts that reach it in this program: an optional sign,
    digits, and optionally a point and digits.  Any other text is rejected
    with [ValueError] (as Python does for ["True"] and ["False"]). *)
Definition float_of_string (s : string) : py float :=
  let '(neg, s1) :=
    match s with
    | String c t =>
        if Ascii.eqb c "-" then (true, t)
        else if Ascii.eqb c "+" then (false, t)
        else (false, s)
    | EmptyString => (false, s)
    end in
  let '(ds, s2) := span_digits s1 in
  match ds with
  | EmptyString => Raise ValueError
  | _ =>
      match s2 with
      | EmptyString => Ok (float_of_decimal neg (digits_to_Z ds) 0)
      | String c t =>
          if Ascii.eqb c "." then
            let '(fs, s3) := span_digits t in
            match fs, s3 with
            | String _ _, EmptyString =>
                Ok (float_of_decimal neg (digits_to_Z (ds +:+ fs)) (String.length fs))
            | _, _ => Raise ValueError
            end
          else Raise ValueError
      end
  end.

(** [float(text)]; [float(repr(x)) == x] for every float [x]. *)
Definition py_float (t : pystr) : py float :=
  match t with
  | Text s => float_of_string s
  | FloatRepr f => Ok f
  end.

(** ** [calculator/logic.py]: lenient numeric parsing *)

Definition _extract_number_token (v : value) : option pystr :=
  match v with
  | VNone => None
  | VBool b => Some (Text (if b then "True" else "False"))
  | VInt z => Some (Text (str_of_int z))
  | VFloat f => Some (FloatRepr f)
  | VStr s => Text <$> re_search s
  end.

Definition _to_float (v : value) (default : float) : py float :=
  try_except
    (match _extract_number_token v with
     | None => Ok default
     | Some n => py_float (pystr_replace_comma n)
     end)
    (fun _ => Ok default).

Definition _to_int (v : value) (default : Z) : py Z :=
  try_except
    (match _extract_number_token v with
     | None => Ok default
     | Some n => x <- py_float (pystr_replace_comma n) ;;; int_of_float x
     end)
    (fun _ => Ok default).


(** ** [calculator/tiered_columns.py]: tier resolution *)

Definition py_map {A B} (f : A -> B) (m : py A) : py B :=
  match m with
  | Ok a => Ok (f a)
  | Raise e => Raise e
  end.

(** [row.get(col, default)] *)
Definition row_get (row : gmap string value) (col : string) (default : value) : value :=
  match row !! col with
  | Some v => v
  | None => default
  end.

(** The loop [for q in sorted_qtys: if q <= requested_qty: selected_tier = q
    else: break], started with [selected_tier = selected]. *)
Fixpoint scan_tiers (requested_qty : Z) (sorted_qtys : list Z) (selected : option Z)
  : option Z :=
  match sorted_qtys with
  | [] => selected
  | q :: rest =>
      if q <=? requested_qty then scan_tiers requested_qty rest (Some q)
      else selected
  end.

Definition pick_tier_value (row : gmap string value) (tiers : gmap Z string)
    (requested_qty : Z) (to_float : value -> py num) : py num :=
  if decide (tiers = ∅) then Ok (NFloat 0)
  else
    let sorted_qtys := merge_sort Z.le (map_to_list tiers).*1 in
    selected_tier <-
      match scan_tiers requested_qty sorted_qtys None with
      | Some q => Ok q
      | None =>
          match sorted_qtys with
          | q :: _ => Ok q
          | [] => Raise IndexError
          end
      end ;;;
    col <- match tiers !! selected_tier with
           | Some c => Ok c
           | None => Raise KeyError
           end ;;;
    to_float (row_get row col (VInt 0)).

(** The two coercions as they are passed to [pick_tier_value] (one argument,
    so the default of each is its own: [0.0] and [0]). *)
Definition to_float_arg (v : value) : py num := py_map NFloat (_to_float v 0).
Definition to_int_arg (v : value) : py num := py_map NInt (_to_int v 0).

Definition example_tiers : gmap Z string :=
  <[200 := "CU pour 200"]> (<[1000 := "CU pour 1000"]> (<[5000 := "CU pour 5000"]> ∅)).

Definition example_row : gmap string value :=
  <["CU pour 200" := VStr "5.50"]>
    (<["CU pour 1000" := VStr "5.00"]>
       (<["CU pour 5000" := VStr "4.50"]> ∅)).

(** ** [calculator/logic.py]: offers *)

Definition _ceil_to_lot (quantity lot_size : Z) : Z :=
  if lot_size <=? 1 then quantity
  else ((quantity + lot_size - 1) / lot_size) * lot_size.

(** A pricing entry is a number or [None]. *)
Definition num_truthy (n : num) : bool :=
  match n with
  | NInt z => negb (z =? 0)
  | NFloat f => negb (f =? 0)%float
  end.

(** [float(pricing_cfg.get(key, 0) or 0)] *)
Definition cfg_float (pricing_cfg : gmap string (option num)) (key : string) : py float :=
  let v := match pricing_cfg !! key with
           | Some v => v
           | None => Some (NInt 0)
           end in
  let v' := match v with
            | Some n => if num_truthy n then n else NInt 0
            | None => NInt 0
            end in
  py_float_of_num v'.

(** [pricing_cfg] is the object that the caller passes: a dict, or [None]
    for an object that is not a dict, which has no method [get]: the first
    statement then raises [AttributeError]. *)
Definition _apply_pricing_overheads (amount : float)
    (pricing_cfg : option (gmap string (option num))) : py float :=
  match pricing_cfg with
  | Some pricing_cfg =>
      handling_flat <- cfg_float pricing_cfg "handling_flat" ;;;
      handling_percent <- cfg_float pricing_cfg "handling_percent" ;;;
      let total := (amount + handling_flat)%float in
      let total := (total * (1 + handling_percent / 100))%float in
      Ok total
  | None => Raise AttributeError
  end.

(** The entries of [mapping] that the logic layer reads; an absent key is
    [None]. *)
Record Mapping := {
  m_moq : option string;
  m_lot_size : option string;
  m_tiers_production : option (gmap Z string);
  m_tiers_air_transport : option (gmap Z string);
  m_tiers_sea_transport : option (gmap Z string);
  m_tiers_production_time : option (gmap Z string);
  m_air_transport_time_column : option string;
  m_sea_transport_time_column : option string;
}.

(** The dict [f] built by [_prepare_fields] (the currency entry, which no
    computation reads, is left out). *)
Record Fields := {
  f_production_unit_cost : float;
  f_air_transport_unit_cost : float;
  f_sea_transport_unit_cost : float;
  f_unit_price_air : float;
  f_unit_price_sea : float;
  f_moq : Z;
  f_lot_size : Z;
  f_lead_time_air_days : Z;
  f_lead_time_sea_days : Z;
}.

(** An operand of the integer arithmetic on weeks. [pick_tier_value] with
    [_to_int] is called on a non-empty table only, where it returns what
    [_to_int] returns. *)
Definition expect_int (n : num) : py Z :=
  match n with
  | NInt z => Ok z
  | NFloat _ => Raise TypeError
  end.

(** [max(1, _to_int(row.get(col, 1)) or 1)] *)
Definition clamp_at_least_1 (row : gmap string value) (col : string) : py Z :=
  n <- _to_int (row_get row col (VInt 1)) 0 ;;;
  Ok (Z.max 1 (if n =? 0 then 1 else n)).

(** [0] unless the column is configured and present:
    [if col and col in row.index: weeks = _to_int(row.get(col, 0))] *)
Definition transport_time_weeks (row : gmap string value) (col : string) : py Z :=
  if negb (String.eqb col EmptyString) && bool_decide (is_Some (row !! col))
  then _to_int (row_get row col (VInt 0)) 0
  else Ok 0.

Definition _prepare_fields (row : gmap string value) (mapping : Mapping)
    (requested_qty : Z) : py Fields :=
  let prod_tiers := default ∅ (m_tiers_production mapping) in
  let air_tr_tiers := default ∅ (m_tiers_air_transport mapping) in
  let sea_tr_tiers := default ∅ (m_tiers_sea_transport mapping) in
  prod_cost <- pick_tier_value row prod_tiers requested_qty to_float_arg ;;;
  air_tr_cost <- pick_tier_value row air_tr_tiers requested_qty to_float_arg ;;;
  sea_tr_cost <- pick_tier_value row sea_tr_tiers requested_qty to_float_arg ;;;
  production_unit_cost <- py_float_of_num prod_cost ;;;
  air_transport_unit_cost <- py_float_of_num air_tr_cost ;;;
  sea_transport_unit_cost <- py_float_of_num sea_tr_cost ;;;
  let unit_price_air := (production_unit_cost + air_transport_unit_cost)%float in
  let unit_price_sea := (production_unit_cost + sea_transport_unit_cost)%float in
  moq <- clamp_at_least_1 row (default EmptyString (m_moq mapping)) ;;;
  lot_size <- clamp_at_least_1 row (default EmptyString (m_lot_size mapping)) ;;;
  let prod_time_tiers := default ∅ (m_tiers_production_time mapping) in
  prod_time_weeks <-
    (if decide (prod_time_tiers = ∅) then Ok 0
     else n <- pick_tier_value row prod_time_tiers requested_qty to_int_arg ;;;
          expect_int n) ;;;
  let air_tr_time_col := default EmptyString (m_air_transport_time_column mapping) in
  let sea_tr_time_col := default EmptyString (m_sea_transport_time_column mapping) in
  air_tr_time_weeks <- transport_time_weeks row air_tr_time_col ;;;
  sea_tr_time_weeks <- transport_time_weeks row sea_tr_time_col ;;;
  Ok {| f_production_unit_cost := production_unit_cost;
        f_air_transport_unit_cost := air_transport_unit_cost;
        f_sea_transport_unit_cost := sea_transport_unit_cost;
        f_unit_price_air := unit_price_air;
        f_unit_price_sea := unit_price_sea;
        f_moq := moq;
        f_lot_size := lot_size;
        f_lead_time_air_days := (prod_time_weeks + air_tr_time_weeks) * 7;
        f_lead_time_sea_days := (prod_time_weeks + sea_tr_time_weeks) * 7 |}.

(** What [config] holds under the key ["pricing"]: nothing, a dict, or an
    object that is not a dict (the [None] that an empty section of the YAML
    file is read as). *)
Inductive pricing_entry :=
| PricingAbsent
| PricingDict (d : gmap string (option num))
| PricingOther.

Record Config := {
  c_pricing_entry : pricing_entry;
}.

(** The dict of the pricing section, when there is one.  Whenever
    [config.get("pricing", {})] is a dict, it is [default ∅ (c_pricing config)]. *)
Definition c_pricing (config : Config) : option (gmap string (option num)) :=
  match c_pricing_entry config with
  | PricingDict d => Some d
  | PricingAbsent | PricingOther => None
  end.

(** [config.get("pricing", {})]: an empty dict when the key is absent, else
    what the key holds; [None] stands for an object that is not a dict. *)
Definition config_get_pricing (config : Config) : option (gmap string (option num)) :=
  match c_pricing_entry config with
  | PricingAbsent => Some ∅
  | PricingDict d => Some d
  | PricingOther => None
  end.

Record ModeOffer := {
  unit_price : float;
  production_unit_cost : float;
  transport_unit_cost : float;
  production_total_pre_overhead : float;
  transport_total_pre_overhead : float;
  lead_time_days : Z;
  total_cost : float;
  order_by : Z;
}.

Record Offer := {
  requested_qty : Z;
  qty_ordered : Z;
  air : ModeOffer;
  sea : ModeOffer;
}.

(** [n * x] for an int [n] and a float [x] *)
Definition int_times_float (n : Z) (x : float) : py float :=
  nf <- float_of_int n ;;; Ok (nf * x)%float.

Definition compute_offer (row : gmap string value) (requested_qty : Z)
    (target_date : Z) (mapping : Mapping) (config : Config) : py Offer :=
  fields <- _prepare_fields row mapping requested_qty ;;;
  let pricing_cfg := config_get_pricing config in
  let qty_after_moq := Z.max requested_qty (f_moq fields) in
  let qty_ordered := _ceil_to_lot qty_after_moq (f_lot_size fields) in
  air_amount <- int_times_float qty_ordered (f_unit_price_air fields) ;;;
  air_cost <- _apply_pricing_overheads air_amount pricing_cfg ;;;
  sea_amount <- int_times_float qty_ordered (f_unit_price_sea fields) ;;;
  sea_cost <- _apply_pricing_overheads sea_amount pricing_cfg ;;;
  prod_total <- int_times_float qty_ordered (f_production_unit_cost fields) ;;;
  air_tr_total <- int_times_float qty_ordered (f_air_transport_unit_cost fields) ;;;
  sea_tr_total <- int_times_float qty_ordered (f_sea_transport_unit_cost fields) ;;;
  let air_order_by := target_date - f_lead_time_air_days fields in
  let sea_order_by := target_date - f_lead_time_sea_days fields in
  Ok {| requested_qty := requested_qty;
        qty_ordered := qty_ordered;
        air := {| unit_price := f_unit_price_air fields;
                  production_unit_cost := f_production_unit_cost fields;
                  transport_unit_cost := f_air_transport_unit_cost fields;
                  production_total_pre_overhead := prod_total;
                  transport_total_pre_overhead := air_tr_total;
                  lead_time_days := f_lead_time_air_days fields;
                  total_cost := air_cost;
                  order_by := air_order_by |};
        sea := {| unit_price := f_unit_price_sea fields;
                  production_unit_cost := f_production_unit_cost fields;
                  transport_unit_cost := f_sea_transport_unit_cost fields;
                  production_total_pre_overhead := prod_total;
                  transport_total_pre_overhead := sea_tr_total;
                  lead_time_days := f_lead_time_sea_days fields;
                  total_cost := sea_cost;
                  order_by := sea_order_by |} |}.

(** ** [streamlit_app.py]: dependency graph and schedulers *)

(** [d.get(k)] on an insertion-ordered dict given by its items. *)
Fixpoint dict_get {V} (d : list (string * V)) (k : string) : option V :=
  match d with
  | [] => None
  | (k', v) :: rest => if decide (k = k') then Some v else dict_get rest k
  end.

(** [deps_map.get(c, []) or []] *)
Definition deps_of (deps_map : list (string * list string)) (c : string) : list string :=
  default [] (dict_get deps_map c).

(** *** [_resolve_dependencies] *)

(** The loop [for dep in deps: result.append(dep);
    result.extend(get_all_deps(dep, visited))]; [visited] is the one set
    object shared by all calls, so it is threaded through. [None] is an
    exhausted recursion budget. *)
Fixpoint all_deps_loop (rec : string -> gset string -> option (list string * gset string))
    (deps : list string) (result : list string) (visited : gset string)
  : option (list string * gset string) :=
  match deps with
  | [] => Some (result, visited)
  | dep :: rest =>
      match rec dep visited with
      | Some (sub, visited') => all_deps_loop rec rest (result ++ dep :: sub) visited'
      | None => None
      end
  end.

Fixpoint get_all_deps (fuel : nat) (deps_map : list (string * list string))
    (comp : string) (visited : gset string) : option (list string * gset string) :=
  match fuel with
  | O => None
  | S fuel' =>
      if decide (comp ∈ visited) then Some ([], visited)
      else
        let visited := {[comp]} ∪ visited in
        let deps := deps_of deps_map comp in
        all_deps_loop (get_all_deps fuel' deps_map) deps [] visited
  end.

Fixpoint _resolve_dependencies (fuel : nat) (components : list string)
    (deps_map : list (string * list string)) (all_deps : gmap string (list string))
  : option (gmap string (list string)) :=
  match components with
  | [] => Some all_deps
  | comp :: rest =>
      match get_all_deps fuel deps_map comp ∅ with
      | Some (r, _) => _resolve_dependencies fuel rest deps_map (<[comp := r]> all_deps)
      | None => None
      end
  end.

(** *** [_backward_schedule_with_deps] *)

Record ScheduleRow := {
  Composant : string;
  Start : Z;
  Finish : Z;
}.

(** [dependents.setdefault(d, []).append(comp)] *)
Definition dependents_add (comp : string) (dependents : gmap string (list string))
    (d : string) : gmap string (list string) :=
  <[d := default [] (dependents !! d) ++ [comp]]> dependents.

(** [dependents = {c: [] for c in components}], then for every item
    [(comp, deps)] with [comp] selected, every selected [d] in [deps] gets
    [comp] appended. *)
Definition build_dependents (components : list string)
    (deps_map : list (string * list string)) : gmap string (list string) :=
  let selected : gset string := list_to_set components in
  let init : gmap string (list string) :=
    foldl (fun m c => <[c := []]> m) ∅ components in
  foldl (fun m '(comp, deps) =>
           if decide (comp ∈ selected) then
             foldl (fun m d => if decide (d ∈ selected) then dependents_add comp m d else m)
                   m deps
           else m)
        init deps_map.

(** [dependents.get(c, []) or []] *)
Definition dependents_get (dependents : gmap string (list string)) (c : string)
  : list string :=
  default [] (dependents !! c).

(** The loop [for nxt in dependents.get(c, []): dfs(nxt)] over the shared
    [visited] and [order]. *)
Fixpoint dfs_loop (rec : string -> gset string * list string -> option (gset string * list string))
    (nexts : list string) (st : gset string * list string)
  : option (gset string * list string) :=
  match nexts with
  | [] => Some st
  | nxt :: rest =>
      match rec nxt st with
      | Some st' => dfs_loop rec rest st'
      | None => None
      end
  end.

Fixpoint dfs (fuel : nat) (dependents : gmap string (list string)) (c : string)
    (st : gset string * list string) : option (gset string * list string) :=
  match fuel with
  | O => None
  | S fuel' =>
      let '(visited, order) := st in
      if decide (c ∈ visited) then Some st
      else
        match dfs_loop (dfs fuel' dependents) (dependents_get dependents c)
                ({[c]} ∪ visited, order) with
        | Some (visited', order') => Some (visited', order' ++ [c])
        | None => None
        end
  end.

(** [min(l)] of a non-empty list [x :: l] *)
Definition min_list (x : Z) (l : list Z) : Z := foldl Z.min x l.

(** [max(l)] of a non-empty list [x :: l] *)
Definition max_list (x : Z) (l : list Z) : Z := foldl Z.max x l.

(** The list [starts_of_dependents]: for every dependent whose finish is
    known, that finish minus the dependent's duration. *)
Definition starts_of_dependents (durations : gmap string Z) (finish : gmap string Z)
    (dependents_of_c : list string) : list Z :=
  omap (fun depd => (fun f => f - default 0 (durations !! depd)) <$> finish !! depd)
       dependents_of_c.

(** One turn of [for c in order]. *)
Definition backward_step (dependents : gmap string (list string))
    (assembly_start : Z) (durations : gmap string Z)
    (assembly_end : option Z) (assembly_name : option string)
    (finish : gmap string Z) (c : string) : gmap string Z :=
  let dependents_of_c := dependents_get dependents c in
  match dependents_of_c with
  | [] =>
      match assembly_name, assembly_end with
      | Some a, Some e =>
          if negb (String.eqb a EmptyString) && String.eqb c a
          then <[c := e]> finish
          else <[c := assembly_start]> finish
      | _, _ => <[c := assembly_start]> finish
      end
  | _ =>
      match starts_of_dependents durations finish dependents_of_c with
      | [] => <[c := assembly_start]> finish
      | s :: rest => <[c := min_list s rest]> finish
      end
  end.

Definition backward_row (assembly_start : Z) (durations : gmap string Z)
    (finish : gmap string Z) (c : string) : ScheduleRow :=
  let dur := default 0 (durations !! c) in
  let fin := default assembly_start (finish !! c) in
  {| Composant := c; Start := fin - dur; Finish := fin |}.

(** The order built by [for c in components: dfs(c)]. *)
Definition backward_order (fuel : nat) (components : list string)
    (dependents : gmap string (list string)) : option (gset string * list string) :=
  dfs_loop (dfs fuel dependents) components (∅, []).

Definition backward_finish (dependents : gmap string (list string))
    (assembly_start : Z) (durations : gmap string Z)
    (assembly_end : option Z) (assembly_name : option string)
    (order : list string) : gmap string Z :=
  foldl (backward_step dependents assembly_start durations assembly_end assembly_name)
        ∅ order.

Definition _backward_schedule_with_deps (fuel : nat) (components : list string)
    (deps_map : list (string * list string)) (assembly_start : Z)
    (durations : gmap string Z) (assembly_end : option Z)
    (assembly_name : option string) : option (list ScheduleRow) :=
  let dependents := build_dependents components deps_map in
  match backward_order fuel components dependents with
  | Some (_, order) =>
      let finish := backward_finish dependents assembly_start durations
                      assembly_end assembly_name order in
      Some (backward_row assembly_start durations finish <$> components)
  | None => None
  end.

(** *** [_forward_schedule_with_custom_starts] *)

Record fstate := {
  starts : gmap string Z;
  finishes : gmap string Z;
  remaining : gset string;
  iteration : nat;
}.

(** [for x in l: a = f(a, x)] where [f] can raise *)
Fixpoint py_foldl {A B} (f : A -> B -> py A) (a : A) (l : list B) : py A :=
  match l with
  | [] => Ok a
  | x :: rest => a' <- f a x ;;; py_foldl f a' rest
  end.

(** [[f(x) for x in l]] where [f] can raise *)
Fixpoint py_mapM {A B} (f : A -> py B) (l : list A) : py (list B) :=
  match l with
  | [] => Ok []
  | x :: rest => y <- f x ;;; ys <- py_mapM f rest ;;; Ok (y :: ys)
  end.

(** [d[k]]: [KeyError] when [k] is absent *)
Definition dict_at (d : gmap string Z) (k : string) : py Z :=
  match d !! k with
  | Some v => Ok v
  | None => Raise KeyError
  end.

(** [max(l)]: [ValueError] on an empty sequence *)
Definition py_max (l : list Z) : py Z :=
  match l with
  | x :: rest => Ok (max_list x rest)
  | [] => Raise ValueError
  end.

(** [s.remove(x)]: [KeyError] when [x] is absent *)
Definition set_remove (s : gset string) (x : string) : py (gset string) :=
  if decide (x ∈ s) then Ok (s ∖ {[x]}) else Raise KeyError.

Section Forward.
(** [list(remaining)]: the iteration order of a Python set is not fixed by
    the language, so it is a parameter; it may differ from one pass of the
    loop to the next and between the two [for] loops of a pass. *)
Variable list_of_set : nat -> bool -> gset string -> list string.

Variable components : list string.
Variable deps_map : list (string * list string).
Variable start_by_comp : gmap string Z.
Variable lead_days : gmap string Z.
(** [dt.date.today()] *)
Variable today : Z.

Definition selected : gset string := list_to_set components.

Definition deps_limited : gmap string (list string) :=
  foldl (fun m c => <[c := filter (fun d => d ∈ selected) (deps_of deps_map c)]> m)
        ∅ components.

(** [start_by_comp.get(comp) or dt.date.today()] *)
Definition own_start_of (comp : string) : Z := default today (start_by_comp !! comp).

(** The start of a component whose dependencies are all resolved:
    [max(own_start, max(finishes[d] for d in deps))] if [deps], else
    [own_start]. *)
Definition ready_start (fin : gmap string Z) (comp : string) (deps : list string)
  : py Z :=
  let own_start := own_start_of comp in
  match deps with
  | [] => Ok own_start
  | _ =>
      fins <- py_mapM (dict_at fin) deps ;;;
      latest_dep_fin <- py_max fins ;;;
      Ok (Z.max own_start latest_dep_fin)
  end.

(** [[finishes.get(d) for d in deps if d in finishes]] *)
Definition dep_finishes (fin : gmap string Z) (deps : list string) : list Z :=
  omap (fun d => fin !! d) deps.

(** The start of a component that is forced: the dependencies without a
    finish are left out. *)
Definition forced_start (fin : gmap string Z) (comp : string) (deps : list string) : Z :=
  let own_start := own_start_of comp in
  match deps with
  | [] => own_start
  | _ =>
      match dep_finishes fin deps with
      | f :: rest => Z.max own_start (max_list f rest)
      | [] => own_start
      end
  end.

(** [starts[comp] = start; finishes[comp] = start + timedelta(max(0, lead));
    remaining.remove(comp)] *)
Definition resolve (st : fstate) (comp : string) (start : Z) : py fstate :=
  let lead := default 0 (lead_days !! comp) in
  let finish := start + Z.max 0 lead in
  remaining' <- set_remove (remaining st) comp ;;;
  Ok {| starts := <[comp := start]> (starts st);
        finishes := <[comp := finish]> (finishes st);
        remaining := remaining';
        iteration := iteration st |}.

(** One turn of the first [for comp in list(remaining)]. *)
Definition relax_step (acc : fstate * bool) (comp : string) : py (fstate * bool) :=
  let '(st, progress) := acc in
  let deps := default [] (deps_limited !! comp) in
  if forallb (fun d => bool_decide (is_Some (finishes st !! d))) deps
  then
    start <- ready_start (finishes st) comp deps ;;;
    st' <- resolve st comp start ;;;
    Ok (st', true)
  else Ok (st, progress).

(** One turn of the second [for comp in list(remaining)] (no progress). *)
Definition force_step (st : fstate) (comp : string) : py fstate :=
  let deps := default [] (deps_limited !! comp) in
  resolve st comp (forced_start (finishes st) comp deps).

(** [while remaining and iteration < max_iter], with
    [budget = max_iter - iteration]. *)
Fixpoint forward_loop (budget : nat) (st : fstate) : py fstate :=
  match budget with
  | O => Ok st
  | S budget' =>
      if decide (remaining st = ∅) then Ok st
      else
        let st0 := {| starts := starts st; finishes := finishes st;
                      remaining := remaining st;
                      iteration := S (iteration st) |} in
        r <- py_foldl relax_step (st0, false)
               (list_of_set (iteration st0) false (remaining st0)) ;;;
        let '(st1, progress) := r in
        if progress then forward_loop budget' st1
        else py_foldl force_step st1 (list_of_set (iteration st1) true (remaining st1))
  end.

Definition forward_init : fstate :=
  {| starts := ∅; finishes := ∅; remaining := list_to_set components; iteration := 0 |}.

(** The state when the loop is left. *)
Definition forward_final : py fstate :=
  forward_loop (length components * 3) forward_init.

Definition forward_rows (st : fstate) : list ScheduleRow :=
  omap (fun comp =>
          match starts st !! comp, finishes st !! comp with
          | Some s, Some f => Some {| Composant := comp; Start := s; Finish := f |}
          | _, _ => None
          end) components.

(** [max(finishes.values()) if finishes else dt.date.today()] *)
Definition latest_finish (fin : gmap string Z) : Z :=
  match (map_to_list fin).*2 with
  | f :: rest => max_list f rest
  | [] => today
  end.

(** The rows appended for the assembly: none or one. *)
Definition assembly_rows (assembly_name : string) (assembly_days : Z)
    (fin : gmap string Z) : py (list ScheduleRow) :=
  let asm_deps := filter (fun d => d ∈ selected) (deps_of deps_map assembly_name) in
  if bool_decide (assembly_name ∈ selected)
     || (negb (bool_decide (asm_deps = []))
         && forallb (fun d => bool_decide (is_Some (fin !! d))) asm_deps)
  then
    fins <- py_mapM (dict_at fin) asm_deps ;;;
    let asm_start :=
      match fins with
      | f :: rest => max_list f rest
      | [] => latest_finish fin
      end in
    Ok [{| Composant := assembly_name; Start := asm_start;
           Finish := asm_start + assembly_days |}]
  else Ok [].

Definition _forward_schedule_with_custom_starts (assembly_name : string)
    (assembly_days : Z) : py (list ScheduleRow) :=
  st <- forward_final ;;;
  assembly <- assembly_rows assembly_name assembly_days (finishes st) ;;;
  Ok (forward_rows st ++ assembly).
End Forward.

(** ** Vocabulary of the statements *)

(** [b] is the breakpoint of [tiers] that serves the quantity [q]: the
    largest breakpoint at or below [q], or the smallest breakpoint when none
    is at or below [q]. *)
Definition tier_choice (tiers : gmap Z string) (q b : Z) : Prop :=
  is_Some (tiers !! b)
  /\ ((b <= q /\ forall b', is_Some (tiers !! b') -> b' <= q -> b' <= b)
      \/ ((forall b', is_Some (tiers !! b') -> q < b')
          /\ forall b', is_Some (tiers !! b') -> b <= b')).

Fixpoint string_forall (p : ascii -> bool) (s : string) : bool :=
  match s with
  | String c t => p c && string_forall p t
  | EmptyString => true
  end.

(** A character that is neither a digit nor a sign. *)
Definition plain_char (c : ascii) : bool := negb (is_digit c) && negb (is_sign c).

(** A text that does not start with a digit. *)
Definition no_digit_start (s : string) : bool :=
  match s with
  | String c _ => negb (is_digit c)
  | EmptyString => true
  end.

(** A text that does not continue a number: empty, or starting with a
    character that is neither a digit nor a separator. *)
Definition ends_number (s : string) : bool :=
  match s with
  | String c _ => negb (is_digit c) && negb (is_sep c)
  | EmptyString => true
  end.

(** A row and its configuration: tiers 200/1000/5000 for the production
    cost, MOQ 100, lot 50, production time 2 weeks, air transport 1 week,
    sea transport 4 weeks. *)
Definition example_mapping : Mapping :=
  {| m_moq := Some "MOQ";
     m_lot_size := Some "Lot";
     m_tiers_production := Some example_tiers;
     m_tiers_air_transport := None;
     m_tiers_sea_transport := None;
     m_tiers_production_time := Some (<[200 := "Temps de prod pour 200"]> ∅);
     m_air_transport_time_column := Some "Avion";
     m_sea_transport_time_column := Some "Bateau" |}.

Definition example_offer_row : gmap string value :=
  <["MOQ" := VStr "100"]>
    (<["Lot" := VStr "50"]>
       (<["Temps de prod pour 200" := VStr "2"]>
          (<["Avion" := VStr "1"]>
             (<["Bateau" := VStr "4"]> example_row)))).

Definition example_config : Config :=
  {| c_pricing_entry :=
       PricingDict (<["handling_flat" := Some (NInt 10)]>
                      (<["handling_percent" := Some (NFloat 5)]> ∅)) |}.

(** The offer for that row at target day 1000, for a requested quantity [q]
    of at most 100: 100 are ordered, at 5.50 a unit. *)
Definition example_offer (q : Z) : Offer :=
  {| requested_qty := q;
     qty_ordered := 100;
     air := {| unit_price := 5.5;
               production_unit_cost := 5.5;
               transport_unit_cost := 0;
               production_total_pre_overhead := 550;
               transport_total_pre_overhead := 0;
               lead_time_days := 21;
               total_cost := 588;
               order_by := 979 |};
     sea := {| unit_price := 5.5;
               production_unit_cost := 5.5;
               transport_unit_cost := 0;
               production_total_pre_overhead := 550;
               transport_total_pre_overhead := 0;
               lead_time_days := 42;
               total_cost := 588;
               order_by := 958 |} |}.

(** [d] is a direct dependency of [u] as [deps_map.get] reads it. *)
Definition dep_edge (deps_map : list (string * list string)) (u d : string) : Prop :=
  d ∈ deps_of deps_map u.

Definition diamond_deps : list (string * list string) :=
  [("A", ["B"; "C"]); ("B", ["D"]); ("C", ["D"])].

(** The keys of a dict. *)
Definition dict_keys {V} (d : list (string * V)) : gset string := list_to_set d.*1.

(** What a call [get_all_deps(comp, visited)] establishes: [visited] only
    grows and contains [comp]; every component visited by the call is
    reachable from [comp] and has all its dependencies visited and listed;
    and everything listed is a dependency of a component visited by the
    call. *)
Definition all_deps_post (deps_map : list (string * list string)) (comp : string)
    (V : gset string) (r : list string) (V' : gset string) : Prop :=
  V ⊆ V' /\ comp ∈ V'
  /\ (forall u, u ∈ V' -> u ∉ V ->
        rtc (dep_edge deps_map) comp u
        /\ forall d, dep_edge deps_map u d -> d ∈ V' /\ d ∈ r)
  /\ (forall x, x ∈ r -> exists u, u ∈ V' /\ u ∉ V /\ dep_edge deps_map u x).

(** The same for the loop over the dependencies [deps] of one component. *)
Definition all_deps_loop_post (deps_map : list (string * list string))
    (deps : list string) (V : gset string) (r : list string) (V' : gset string) : Prop :=
  V ⊆ V'
  /\ (forall d, d ∈ deps -> d ∈ V' /\ d ∈ r)
  /\ (forall u, u ∈ V' -> u ∉ V ->
        (exists d, d ∈ deps /\ rtc (dep_edge deps_map) d u)
        /\ forall d, dep_edge deps_map u d -> d ∈ V' /\ d ∈ r)
  /\ (forall x, x ∈ r ->
        x ∈ deps \/ exists u, u ∈ V' /\ u ∉ V /\ dep_edge deps_map u x).

(** [D] directly depends on [c] within the selection: an item [(D, deps)]
    of [deps_map] has [c] among [deps], and both are selected. *)
Definition depends_on (components : list string)
    (deps_map : list (string * list string)) (D c : string) : Prop :=
  D ∈ components /\ c ∈ components
  /\ exists deps, (D, deps) ∈ deps_map /\ c ∈ deps.

(** The selected part of the dependency map is acyclic: no selected
    component depends on itself through a chain of selected components. *)
Definition acyclic_selection (components : list string)
    (deps_map : list (string * list string)) : Prop :=
  forall x, ~ tc (depends_on components deps_map) x x.

(** [D] is recorded as a dependent of [x]. *)
Definition dependent_edge (dependents : gmap string (list string)) (x D : string) : Prop :=
  D ∈ dependents_get dependents x.

(** An order in which every component comes once, after all its
    dependents. *)
Inductive order_ok (dependents : gmap string (list string)) : list string -> Prop :=
| order_ok_nil : order_ok dependents []
| order_ok_snoc (order : list string) (c : string) :
    order_ok dependents order ->
    c ∉ order ->
    (forall D, D ∈ dependents_get dependents c -> D ∈ order) ->
    order_ok dependents (order ++ [c]).

(** The state of the traversal is sound: [order] is a good order and holds
    visited components only. *)
Definition dfs_inv (dependents : gmap string (list string))
    (visited : gset string) (order : list string) : Prop :=
  order_ok dependents order /\ forall x, x ∈ order -> x ∈ visited.

(** A component whose call of [dfs] has started and not yet ended. *)
Definition in_progress (visited : gset string) (order : list string) (x : string) : Prop :=
  x ∈ visited /\ x ∉ order.

(** What a call of [dfs] (or the loop over [nexts]) leaves: a sound state
    that extends the one it started from, with the same calls in
    progress. *)
Definition dfs_post (dependents : gmap string (list string))
    (V : gset string) (O : list string) (V' : gset string) (O' : list string) : Prop :=
  dfs_inv dependents V' O'
  /\ V ⊆ V'
  /\ (forall x, x ∈ O -> x ∈ O')
  /\ (forall x, in_progress V' O' x <-> in_progress V O x).

(** [durations.get(c, 0)] *)
Definition duration_of (durations : gmap string Z) (c : string) : Z :=
  default 0 (durations !! c).

(** A cycle of two components, each depending on the other. *)
Definition cycle_deps : list (string * list string) := [("A", ["B"]); ("B", ["A"])].

Definition cycle_durations : gmap string Z := <["A" := 7]> (<["B" := 14]> ∅).

(** A ranking of the diamond A -> B, C; B -> D; C -> D. *)
Definition diamond_rank (c : string) : nat :=
  if String.eqb c "A" then 2%nat else if String.eqb c "D" then 0%nat else 1%nat.

(** [deps_limited.get(comp, [])] *)
Definition deps_limited_get (components : list string)
    (deps_map : list (string * list string)) (comp : string) : list string :=
  default [] (deps_limited components deps_map !! comp).

(** The resolved components are the selected ones that are no longer in
    [remaining]; they are those with a start, and those with a finish. *)
Definition forward_dom (components : list string) (st : fstate) : Prop :=
  remaining st ⊆ selected components
  /\ (forall c, is_Some (starts st !! c) <-> c ∈ selected components /\ c ∉ remaining st)
  /\ (forall c, is_Some (finishes st !! c) <-> c ∈ selected components /\ c ∉ remaining st).

(** Every resolved component starts at or after its own order date and
    after the finish of each of its selected dependencies, and finishes
    [max(0, lead)] days after its start. *)
Definition forward_ok (components : list string)
    (deps_map : list (string * list string)) (start_by_comp lead_days : gmap string Z)
    (today : Z) (st : fstate) : Prop :=
  forall c s f, starts st !! c = Some s -> finishes st !! c = Some f ->
    own_start_of start_by_comp today c <= s
    /\ f = s + Z.max 0 (default 0 (lead_days !! c))
    /\ forall d, d ∈ deps_limited_get components deps_map c ->
         exists fd, finishes st !! d = Some fd /\ fd <= s.

(** An enumeration of sets that does not depend on the pass. *)
Definition elements_order (i : nat) (forced : bool) (s : gset string) : list string :=
  elements s.

(** ** Vocabulary of the further properties *)

(** A mode of an offer with its order-by date moved by [k] days. *)
Definition shift_order_by (k : Z) (m : ModeOffer) : ModeOffer :=
  {| unit_price := unit_price m;
     production_unit_cost := production_unit_cost m;
     transport_unit_cost := transport_unit_cost m;
     production_total_pre_overhead := production_total_pre_overhead m;
     transport_total_pre_overhead := transport_total_pre_overhead m;
     lead_time_days := lead_time_days m;
     total_cost := total_cost m;
     order_by := order_by m + k |}.

(** What [_prepare_fields] gives when the row has none of the columns it
    looks up: no cost, MOQ and lot size 1, no lead time. *)
Definition default_fields : Fields :=
  {| f_production_unit_cost := 0;
     f_air_transport_unit_cost := 0;
     f_sea_transport_unit_cost := 0;
     f_unit_price_air := 0;
     f_unit_price_sea := 0;
     f_moq := 1;
     f_lot_size := 1;
     f_lead_time_air_days := 0;
     f_lead_time_sea_days := 0 |}.

(** The labels that [_prepare_fields] looks up in the row for a mapping:
    the columns of the four tier tables, the MOQ and lot-size columns (the
    empty label when one is not configured) and the configured
    transport-time columns. *)
Definition mapping_labels (mapping : Mapping) : list string :=
  (map_to_list (default ∅ (m_tiers_production mapping))).*2
  ++ (map_to_list (default ∅ (m_tiers_air_transport mapping))).*2
  ++ (map_to_list (default ∅ (m_tiers_sea_transport mapping))).*2
  ++ (map_to_list (default ∅ (m_tiers_production_time mapping))).*2
  ++ [default EmptyString (m_moq mapping); default EmptyString (m_lot_size mapping)]
  ++ option_list (m_air_transport_time_column mapping)
  ++ option_list (m_sea_transport_time_column mapping).

(** A text in which no character is a digit. *)
Definition no_digit (s : string) : bool := string_forall (fun c => negb (is_digit c)) s.

(** The shape of a numeric token: an optional sign, digits, and optionally
    a point or comma followed by digits. *)
Definition number_token (tok : string) : Prop :=
  exists sg ds frac,
    tok = sg +:+ ds +:+ frac
    /\ (sg = EmptyString \/ sg = "+"%string \/ sg = "-"%string)
    /\ ds <> EmptyString /\ string_forall is_digit ds = true
    /\ (frac = EmptyString
        \/ exists c fs, frac = String c fs /\ is_sep c = true
                        /\ fs <> EmptyString /\ string_forall is_digit fs = true).

(** The last character of a text is a sign. *)
Fixpoint last_is_sign (s : string) : bool :=
  match s with
  | EmptyString => false
  | String c EmptyString => is_sign c
  | String _ t => last_is_sign t
  end.

(** The first character of a text is a sign. *)
Definition first_is_sign (s : string) : bool :=
  match s with
  | String c _ => is_sign c
  | EmptyString => false
  end.

(** A text that does not continue a token without a decimal part: it
    starts neither with a digit, nor with a point or comma followed by a
    digit. *)
Definition ends_token (post : string) : bool :=
  match post with
  | String c t => negb (is_digit c) && negb (is_sep c && negb (no_digit_start t))
  | EmptyString => true
  end.

(** The first numeric token of [s]: [s] is the text [pre] without a digit,
    then the token, then [post]; the token is a sign [sg] (one that stands
    just before the digits is taken), the digits [ds], and either nothing
    more, or a point or comma [sep] and the digits [fs]; the digits of each
    run are taken as far as they go, and the decimal part whenever there is
    one. *)
Definition first_token (s pre sg ds sep fs post : string) : Prop :=
  s = pre +:+ (sg +:+ ds +:+ sep +:+ fs) +:+ post
  /\ no_digit pre = true
  /\ (sg = EmptyString \/ sg = "+"%string \/ sg = "-"%string)
  /\ (last_is_sign pre = true -> sg <> EmptyString)
  /\ ds <> EmptyString /\ string_forall is_digit ds = true
  /\ ((sep = EmptyString /\ fs = EmptyString /\ ends_token post = true)
      \/ ((sep = "."%string \/ sep = ","%string)
          /\ fs <> EmptyString /\ string_forall is_digit fs = true
          /\ no_digit_start post = true)).

(** The number of dependency entries of a map: the total length of its
    lists. *)
Definition edge_count (deps_map : list (string * list string)) : nat :=
  sum_list_with (fun kv => length kv.2) deps_map.

(** The number of dependencies listed for the components of a set. *)
Definition deps_weight (deps_map : list (string * list string)) (X : gset string) : nat :=
  sum_list_with (fun u => length (deps_of deps_map u)) (elements X).

(** The latest date the backward scheduler can give: the later of the
    milestone and the end date of the assembly (the milestone when no end
    date is passed). *)
Definition backward_horizon (assembly_start : Z) (assembly_end : option Z) : Z :=
  Z.max assembly_start (default assembly_start assembly_end).

(** A dependency map without the names that are not selected: every list
    keeps its selected names only. *)
Definition limit_deps (components : list string) (deps_map : list (string * list string))
  : list (string * list string) :=
  (fun kv => (kv.1, filter (fun d => d ∈ (list_to_set components : gset string)) kv.2))
    <$> deps_map.

(** The same, also without the entries of the components that are not
    selected. *)
Definition restrict_deps (components : list string)
    (deps_map : list (string * list string)) : list (string * list string) :=
  filter (fun kv => kv.1 ∈ (list_to_set components : gset string))
         (limit_deps components deps_map).

(** Every resolved component starts at or after its order date, either on
    that date or on the day one of its selected dependencies finishes, and
    it finishes [max(0, lead)] days after its start. *)
Definition forward_tight (components : list string)
    (deps_map : list (string * list string)) (start_by_comp lead_days : gmap string Z)
    (today : Z) (st : fstate) : Prop :=
  forall c s f, starts st !! c = Some s -> finishes st !! c = Some f ->
    own_start_of start_by_comp today c <= s
    /\ f = s + Z.max 0 (default 0 (lead_days !! c))
    /\ (s = own_start_of start_by_comp today c
        \/ exists d, d ∈ deps_limited_get components deps_map c /\ finishes st !! d = Some s).

(** ** [calculator/tiered_columns.py]: the tier columns of a sheet *)

(** The ASCII characters that [str.strip()] removes: tab, line feed,
    vertical tab, form feed, carriage return, the four separators
    [\x1c]..[\x1f] and the space. *)
Definition is_space (c : ascii) : bool :=
  let n := nat_of_ascii c in
  (((9 <=? n)%nat && (n <=? 13)%nat) || ((28 <=? n)%nat && (n <=? 32)%nat))%bool.

Fixpoint lstrip (p : ascii -> bool) (s : string) : string :=
  match s with
  | String c t => if p c then lstrip p t else s
  | EmptyString => EmptyString
  end.

Fixpoint rstrip (p : ascii -> bool) (s : string) : string :=
  match s with
  | String c t =>
      match rstrip p t with
      | EmptyString => if p c then EmptyString else String c EmptyString
      | t' => String c t'
      end
  | EmptyString => EmptyString
  end.

(** [s.strip()] *)
Definition strip (s : string) : string := rstrip is_space (lstrip is_space s).

(** *** [float(s)] for any text *)

(** The whitespace that [float] skips at both ends of an ASCII text: tab to
    carriage return, and the space. *)
Definition is_float_space (c : ascii) : bool :=
  let n := nat_of_ascii c in
  (((9 <=? n)%nat && (n <=? 13)%nat) || (n =? 32)%nat)%bool.

(** A character that [float] neither drops nor skips. *)
Definition float_char (c : ascii) : bool :=
  (negb (Ascii.eqb c "_") && negb (is_float_space c))%bool.

(** Underscores are allowed between two digits only, and are dropped;
    [prev] is the character before [s] (NUL at the start). *)
Fixpoint drop_underscores (prev : ascii) (s : string) : option string :=
  match s with
  | EmptyString => if Ascii.eqb prev "_" then None else Some EmptyString
  | String c t =>
      if Ascii.eqb c "_" then
        if is_digit prev then drop_underscores c t else None
      else if (Ascii.eqb prev "_" && negb (is_digit c))%bool then None
      else String c <$> drop_underscores c t
  end.

Definition ascii_lower (c : ascii) : ascii :=
  let n := nat_of_ascii c in
  if ((65 <=? n)%nat && (n <=? 90)%nat)%bool then ascii_of_nat (n + 32) else c.

Fixpoint string_lower (s : string) : string :=
  match s with
  | String c t => String (ascii_lower c) (string_lower t)
  | EmptyString => EmptyString
  end.

(** An optional sign at the start of a text: whether it is a minus, and
    the rest. *)
Definition split_sign (s : string) : bool * string :=
  match s with
  | String c t =>
      if Ascii.eqb c "-" then (true, t)
      else if Ascii.eqb c "+" then (false, t)
      else (false, s)
  | EmptyString => (false, s)
  end.

(** Nearest binary64 to [(-1)^neg * n * 10^e10]; beyond the range of the
    type it is an infinity, below it a zero. *)
Definition float_of_sci (neg : bool) (n : Z) (e10 : Z) : float :=
  if 0 <=? e10 then float_of_decimal neg (n * 10 ^ e10) 0
  else float_of_decimal neg n (Z.to_nat (- e10)).

(** The exponent part [e], [E], an optional sign and at least one digit;
    without a digit nothing is read. *)
Definition parse_exponent (s : string) : Z * string :=
  match s with
  | String c t =>
      if (Ascii.eqb c "e" || Ascii.eqb c "E")%bool then
        let '(eneg, t1) := split_sign t in
        let '(ed, t2) := span_digits t1 in
        match ed with
        | EmptyString => (0, s)
        | _ => (if eneg then - digits_to_Z ed else digits_to_Z ed, t2)
        end
      else (0, s)
  | EmptyString => (0, s)
  end.

(** [inf], [infinity] and [nan] in any case, with an optional sign. *)
Definition parse_inf_nan (s : string) : py float :=
  let '(neg, s1) := split_sign s in
  let l := string_lower s1 in
  if (String.eqb l "inf" || String.eqb l "infinity")%bool
  then Ok (if neg then neg_infinity else infinity)
  else if String.eqb l "nan" then Ok nan
  else Raise ValueError.

(** [float(s)]: after the underscores between digits are dropped and the
    whitespace at both ends is skipped, a decimal number (digits with an
    optional point, at least one digit, and an optional exponent), or an
    infinity or NaN; the whole text must be read.  A number too large
    becomes an infinity, without an error. *)
Definition float_of_text (s : string) : py float :=
  match drop_underscores Ascii.zero s with
  | None => Raise ValueError
  | Some s0 =>
      let body := rstrip is_float_space (lstrip is_float_space s0) in
      let '(neg, s1) := split_sign body in
      let '(ip, s2) := span_digits s1 in
      let '(fp, s3) :=
        match s2 with
        | String c t => if Ascii.eqb c "." then span_digits t else (EmptyString, s2)
        | EmptyString => (EmptyString, s2)
        end in
      match ip +:+ fp with
      | EmptyString => parse_inf_nan body
      | ds =>
          let '(e, s4) := parse_exponent s3 in
          match s4 with
          | EmptyString =>
              Ok (float_of_sci neg (digits_to_Z ds) (e - Z.of_nat (String.length fp)))
          | _ => Raise ValueError
          end
      end
  end.

(** [int(float(str(qty_str).replace(",", "."))) if qty_str else None],
    with [None] for any exception. *)
Definition parse_quantity (qty_str : option string) : option Z :=
  match qty_str with
  | Some s =>
      if String.eqb s EmptyString then None
      else
        match x <- float_of_text (replace_comma s) ;;; int_of_float x with
        | Ok q => Some q
        | Raise _ => None
        end
  | None => None
  end.

(** [d[k] = v] on an insertion-ordered dict given by its items: a key that
    is present keeps its place. *)
Fixpoint dict_set {K V} `{EqDecision K} (d : list (K * V)) (k : K) (v : V) : list (K * V) :=
  match d with
  | [] => [(k, v)]
  | (k', v') :: rest =>
      if decide (k = k') then (k, v) :: rest else (k', v') :: dict_set rest k v
  end.

(** A match object: the tuple [m.groups()], where a group that took no
    part in the match is [None]. *)
Definition match_groups := list (option string).

(** The quantity that a column name carries for a compiled pattern: the
    last group of the first match, read as a number. *)
Definition tier_quantity (search : string -> option match_groups) (col_str : string)
  : option Z :=
  match search col_str with
  | Some groups => parse_quantity (mjoin (last groups))
  | None => None
  end.

(** The order of [sorted(result.items(), key=lambda kv: kv[0])]. *)
Definition key_le (a b : Z * string) : Prop := a.1 <= b.1.

#[global] Instance key_le_dec : RelDecision key_le := fun a b => decide (a.1 <= b.1).

Section TierColumns.
(** The [re] module is a parameter: [re.compile(pattern)] raises [re.error]
    ([None]) or gives a pattern object, of which [find_tier_columns] uses
    the method [search]. *)
Variable re_compile : string -> option (string -> option match_groups).

(** [None] stands for the [re.error] of [re.compile], the only exception
    that leaves the function. *)
Definition find_tier_columns (columns : list string) (regex_pattern : string)
  : option (list (Z * string)) :=
  if String.eqb regex_pattern EmptyString then Some []
  else
    match re_compile regex_pattern with
    | None => None
    | Some search =>
        let result :=
          foldl (fun result col =>
                   let col_str := strip col in
                   match tier_quantity search col_str with
                   | Some qty => dict_set result qty col_str
                   | None => result
                   end)
                [] columns in
        Some (merge_sort key_le result)
    end.
End TierColumns.

(** The pattern [([-+]?\d+(?:[\.,]\d+)?)]: the number pattern of
    [calculator/logic.py] as one group. *)
Definition number_group_search (s : string) : option match_groups :=
  (fun tok => [Some tok]) <$> re_search s.

(** [c] is the name, without surrounding whitespace, of the last of
    [columns] that carries the quantity [q]. *)
Definition last_column_for (search : string -> option match_groups)
    (columns : list string) (q : Z) (c : string) : Prop :=
  exists pre col post,
    columns = pre ++ col :: post
    /\ strip col = c
    /\ tier_quantity search c = Some q
    /\ forall col', col' ∈ post -> tier_quantity search (strip col') <> Some q.

(** ** [streamlit_app.py]: the duration of the assembly *)

(** A sheet as [load_dataset] reads it ([dtype=str]): the column labels,
    taken to be distinct, and for every row the text of its cells; a label
    without a text in a row is an empty cell (NaN). *)
Record DataFrame := {
  df_columns : list string;
  df_rows : list (gmap string string);
}.

(** [str(cell)]: the text of the cell, and ["nan"] for an empty cell. *)
Definition cell_str (cell : option string) : string := default "nan"%string cell.

(** The entry ["assembly"] of the configuration; an absent key is
    [None]. *)
Record AssemblyCfg := {
  a_component_name : option string;
  a_duration_weeks_column : option string;
  a_duration_weeks : option num;
}.

(** ["Assemblage et intégration final"], in UTF-8. *)
Definition default_assembly_name : string :=
  "Assemblage et int" +:+ String (ascii_of_nat 195) (String (ascii_of_nat 169) "gration final").

(** [int(x)] for a number *)
Definition int_of_num (n : num) : py Z :=
  match n with
  | NInt z => Ok z
  | NFloat f => int_of_float f
  end.

(** [cfg] is given by [cfg.get("assembly")]: [None] when the key is absent
    or holds [None] or an empty dict. *)
Definition _extract_assembly_days (df : DataFrame) (product_col : string)
    (cfg : option AssemblyCfg) : py Z :=
  let asm_cfg :=
    default {| a_component_name := None; a_duration_weeks_column := None;
               a_duration_weeks := None |} cfg in
  let name := default default_assembly_name (a_component_name asm_cfg) in
  let col := default EmptyString (a_duration_weeks_column asm_cfg) in
  fallback_weeks <-
    int_of_num (match a_duration_weeks asm_cfg with
                | Some n => if num_truthy n then n else NInt 8
                | None => NInt 8
                end) ;;;
  if (negb (String.eqb col EmptyString) && bool_decide (col ∈ df_columns df))%bool then
    if bool_decide (product_col ∈ df_columns df) then
      match filter (fun r => cell_str (r !! product_col) = name) (df_rows df) with
      | row :: _ =>
          let val := row !! col in
          let weeks :=
            match x <- float_of_text (replace_comma (cell_str val)) ;;; int_of_float x with
            | Ok w => w
            | Raise _ => fallback_weeks
            end in
          Ok (Z.max 0 weeks * 7)
      | [] => Ok (fallback_weeks * 7)
      end
    else Raise KeyError
  else Ok (fallback_weeks * 7).

(** A sheet with two rows for the assembly. *)
Definition example_sheet : DataFrame :=
  {| df_columns := ["Composants"; "Semaines"];
     df_rows := [ <["Composants" := "Carte"]> (<["Semaines" := "3"]> ∅);
                  <["Composants" := "Assemblage"]> (<["Semaines" := "2,5 sem."]> ∅);
                  <["Composants" := "Assemblage"]> (<["Semaines" := "6"]> ∅) ] |}.

(** Another enumeration of sets: the reverse of [elements_order]. *)
Definition reverse_order (i : nat) (forced : bool) (s : gset string) : list string :=
  reverse (elements s).

(** A row moved by [k] days. *)
Definition shift_row (k : Z) (r : ScheduleRow) : ScheduleRow :=
  {| Composant := Composant r; Start := Start r + k; Finish := Finish r + k |}.

(** * Properties *)

(** ** Results *)

Lemma py_bind_Ok {A B} (m : py A) (k : A -> py B) (b : B) :
  py_bind m k = Ok b -> exists a, m = Ok a /\ k a = Ok b.
Proof. destruct m as [a|e]; simpl; [eauto | discriminate]. Qed.

Lemma try_except_total {A} (body : py A) (d : A) :
  exists x, try_except body (fun _ => Ok d) = Ok x.
Proof. destruct body; simpl; eauto. Qed.

Tactic Notation "py_inv" hyp(H) :=
  let a := fresh "a" in
  let Ha := fresh "H" a in
  apply py_bind_Ok in H; destruct H as (a & Ha & H).

Tactic Notation "py_inv" hyp(H) "as" ident(a) ident(Ha) :=
  apply py_bind_Ok in H; destruct H as (a & Ha & H).

(** ** Lenient numeric parsing *)

Lemma _to_float_total (v : value) (d : float) : exists x, _to_float v d = Ok x.
Proof. apply try_except_total. Qed.

Lemma _to_int_total (v : value) (d : Z) : exists x, _to_int v d = Ok x.
Proof. apply try_except_total. Qed.

Lemma span_digits_app (ds post : string) :
  string_forall is_digit ds = true -> ends_number post = true ->
  span_digits (ds +:+ post) = (ds, post).
Proof.
  intros Hds Hpost. induction ds as [|c ds IH]; simpl in *.
  - destruct post as [|c t]; simpl in *; [done|].
    apply andb_prop in Hpost as [Hc _].
    destruct (is_digit c); [discriminate|done].
  - apply andb_prop in Hds as [Hc Hds]. rewrite Hc, (IH Hds). done.
Qed.

Lemma span_digits_all (ds : string) :
  string_forall is_digit ds = true -> span_digits ds = (ds, EmptyString).
Proof.
  intros Hds. induction ds as [|c ds IH]; simpl in *; [done|].
  apply andb_prop in Hds as [Hc Hds]. rewrite Hc, (IH Hds). done.
Qed.

Lemma digit_not_sign (c : ascii) : is_digit c = true -> is_sign c = false.
Proof.
  unfold is_digit, is_sign. intros H.
  destruct (Ascii.eqb_spec c "-") as [->|_]; [vm_compute in H; discriminate|].
  destruct (Ascii.eqb_spec c "+") as [->|_]; [vm_compute in H; discriminate|].
  done.
Qed.

Lemma digit_not_comma (c : ascii) : is_digit c = true -> Ascii.eqb c "," = false.
Proof.
  unfold is_digit. intros H.
  destruct (Ascii.eqb_spec c ",") as [->|_]; [vm_compute in H; discriminate|done].
Qed.

Lemma match_number_digits (c : ascii) (ds post : string) :
  string_forall is_digit (String c ds) = true -> ends_number post = true ->
  match_number (String c ds +:+ post) = Some (String c ds).
Proof.
  intros Hds Hpost.
  pose proof Hds as Hds'. simpl in Hds'. apply andb_prop in Hds' as [Hc _].
  pose proof (span_digits_app _ _ Hds Hpost) as Hsp.
  change (String c ds +:+ post) with (String c (ds +:+ post)) in *.
  unfold match_number.
  rewrite (digit_not_sign c Hc), Hsp.
  destruct post as [|c' t]; simpl; [done|].
  simpl in Hpost. apply andb_prop in Hpost as [_ Hsep].
  destruct (is_sep c'); [discriminate|done].
Qed.

Lemma match_number_plain (c : ascii) (s : string) :
  plain_char c = true -> match_number (String c s) = None.
Proof.
  unfold plain_char, match_number. intros H.
  apply andb_prop in H as [Hd Hs].
  destruct (is_sign c); [discriminate|]. simpl.
  destruct (is_digit c); [discriminate|]. done.
Qed.

(** The first numeric token of a text made of plain characters, then digits,
    then something that does not continue the number. *)
Lemma re_search_first_token (pre : string) (c : ascii) (ds post : string) :
  string_forall plain_char pre = true ->
  string_forall is_digit (String c ds) = true -> ends_number post = true ->
  re_search (pre +:+ String c ds +:+ post) = Some (String c ds).
Proof.
  intros Hpre Hds Hpost. induction pre as [|p pre IH].
  - change (EmptyString +:+ String c ds +:+ post) with (String c ds +:+ post).
    pose proof (match_number_digits c ds post Hds Hpost) as Hm.
    change (String c ds +:+ post) with (String c (ds +:+ post)) in *.
    simpl. rewrite Hm. done.
  - simpl in Hpre. apply andb_prop in Hpre as [Hp Hpre].
    change (String p pre +:+ String c ds +:+ post)
      with (String p (pre +:+ String c ds +:+ post)).
    simpl. rewrite (match_number_plain _ _ Hp). apply IH, Hpre.
Qed.

Lemma match_number_no_digit (s : string) :
  string_forall (fun c => negb (is_digit c)) s = true -> match_number s = None.
Proof.
  intros H. unfold match_number.
  destruct s as [|c t]; simpl in *; [done|].
  apply andb_prop in H as [Hc Ht].
  destruct (is_sign c).
  - destruct t as [|c' t']; simpl in *; [done|].
    apply andb_prop in Ht as [Hc' _].
    destruct (is_digit c'); [discriminate|done].
  - simpl. destruct (is_digit c); [discriminate|done].
Qed.

Lemma re_search_no_digit (s : string) :
  string_forall (fun c => negb (is_digit c)) s = true -> re_search s = None.
Proof.
  intros H. induction s as [|c t IH].
  - done.
  - simpl re_search. rewrite (match_number_no_digit _ H).
    simpl in H. apply andb_prop in H as [_ Ht]. apply IH, Ht.
Qed.

Lemma replace_comma_digits (ds : string) :
  string_forall is_digit ds = true -> replace_comma ds = ds.
Proof.
  intros H. induction ds as [|c t IH]; simpl in *; [done|].
  apply andb_prop in H as [Hc Ht].
  rewrite (digit_not_comma c Hc), (IH Ht). done.
Qed.

Lemma float_of_string_digits (c : ascii) (ds : string) :
  string_forall is_digit (String c ds) = true ->
  float_of_string (String c ds) = Ok (float_of_decimal false (digits_to_Z (String c ds)) 0).
Proof.
  intros H. unfold float_of_string.
  pose proof H as H'. simpl in H'. apply andb_prop in H' as [Hc _].
  pose proof (digit_not_sign c Hc) as Hs. unfold is_sign in Hs.
  apply orb_false_elim in Hs as [-> ->].
  rewrite (span_digits_all _ H). done.
Qed.

Lemma string_of_uint_digits (u : Decimal.uint) :
  string_forall is_digit (NilEmpty.string_of_uint u) = true.
Proof. induction u; simpl; auto. Qed.

Lemma digits_to_Z_string_of_uint (u : Decimal.uint) :
  digits_to_Z (NilEmpty.string_of_uint u) = Z.of_uint u.
Proof. unfold digits_to_Z. rewrite NilEmpty.usu. done. Qed.

Lemma float_of_string_pos (p : positive) :
  float_of_string (NilEmpty.string_of_uint (Pos.to_uint p))
  = Ok (float_of_decimal false (Zpos p) 0).
Proof.
  pose proof (string_of_uint_digits (Pos.to_uint p)) as Hd.
  pose proof (digits_to_Z_string_of_uint (Pos.to_uint p)) as Hz.
  unfold Z.of_uint in Hz. rewrite DecimalPos.Unsigned.of_to in Hz. simpl in Hz.
  destruct (NilEmpty.string_of_uint (Pos.to_uint p)) as [|c ds] eqn:E.
  - exfalso. pose proof (DecimalPos.Unsigned.to_uint_nonnil p) as Hn.
    destruct (Pos.to_uint p); simpl in E; congruence.
  - rewrite (float_of_string_digits c ds Hd), Hz. done.
Qed.

Lemma float_of_string_neg (p : positive) :
  float_of_string (String "-" (NilEmpty.string_of_uint (Pos.to_uint p)))
  = Ok (float_of_decimal true (Zpos p) 0).
Proof.
  pose proof (string_of_uint_digits (Pos.to_uint p)) as Hd.
  pose proof (digits_to_Z_string_of_uint (Pos.to_uint p)) as Hz.
  unfold Z.of_uint in Hz. rewrite DecimalPos.Unsigned.of_to in Hz. simpl in Hz.
  unfold float_of_string. simpl Ascii.eqb. cbv iota.
  rewrite (span_digits_all _ Hd), Hz.
  destruct (NilEmpty.string_of_uint (Pos.to_uint p)) as [|c ds] eqn:E.
  - exfalso. pose proof (DecimalPos.Unsigned.to_uint_nonnil p) as Hn.
    destruct (Pos.to_uint p); simpl in E; congruence.
  - done.
Qed.

Lemma str_of_int_pos (p : positive) :
  str_of_int (Zpos p) = NilEmpty.string_of_uint (Pos.to_uint p).
Proof.
  unfold str_of_int. simpl. unfold NilZero.string_of_uint.
  pose proof (DecimalPos.Unsigned.to_uint_nonnil p).
  destruct (Pos.to_uint p); congruence.
Qed.

Lemma str_of_int_neg (p : positive) :
  str_of_int (Zneg p) = String "-" (NilEmpty.string_of_uint (Pos.to_uint p)).
Proof.
  unfold str_of_int. simpl. unfold NilZero.string_of_uint.
  pose proof (DecimalPos.Unsigned.to_uint_nonnil p).
  destruct (Pos.to_uint p); congruence.
Qed.

Lemma replace_comma_str_of_int (z : Z) : replace_comma (str_of_int z) = str_of_int z.
Proof.
  destruct z as [|p|p].
  - reflexivity.
  - rewrite str_of_int_pos. apply replace_comma_digits, string_of_uint_digits.
  - rewrite str_of_int_neg. simpl. f_equal.
    apply replace_comma_digits, string_of_uint_digits.
Qed.



Lemma span_digits_before (ds post : string) :
  string_forall is_digit ds = true -> no_digit_start post = true ->
  span_digits (ds +:+ post) = (ds, post).
Proof.
  intros Hds Hpost. induction ds as [|c ds IH]; simpl in *.
  - destruct post as [|c t]; simpl in *; [done|].
    destruct (is_digit c); [discriminate|done].
  - apply andb_prop in Hds as [Hc Hds]. rewrite Hc, (IH Hds). done.
Qed.

Lemma sep_not_digit (c : ascii) : is_sep c = true -> is_digit c = false.
Proof.
  unfold is_sep. intros H. apply orb_prop in H as [H|H];
    apply Ascii.eqb_eq in H as ->; reflexivity.
Qed.

Lemma replace_comma_app (s t : string) :
  replace_comma (s +:+ t) = replace_comma s +:+ replace_comma t.
Proof. induction s as [|c s IH]; simpl; [done|]. by rewrite IH. Qed.









(** ** Tier resolution *)

Lemma scan_tiers_spec (q : Z) (l : list Z) (sel : option Z) :
  StronglySorted Z.le l ->
  (forall s, sel = Some s -> s <= q /\ forall x, x ∈ l -> s <= x) ->
  match scan_tiers q l sel with
  | Some b => (sel = Some b \/ b ∈ l) /\ b <= q
              /\ (forall x, x ∈ l -> x <= q -> x <= b)
              /\ (forall s, sel = Some s -> s <= b)
  | None => sel = None /\ forall x, x ∈ l -> q < x
  end.
Proof.
  intros Hs. revert sel. induction Hs as [|a l Hs IH Ha]; intros sel Hsel; simpl.
  - destruct sel as [s|].
    + destruct (Hsel s eq_refl) as [Hq _]. repeat split; auto.
      * intros x Hx. by apply elem_of_nil in Hx.
      * intros s' [= ->]. lia.
    + split; [done|]. intros x Hx. by apply elem_of_nil in Hx.
  - rewrite Forall_forall in Ha.
    destruct (Z.leb_spec a q) as [Haq|Haq].
    + specialize (IH (Some a)).
      destruct (scan_tiers q l (Some a)) as [b|].
      * destruct IH as (Hin & Hbq & Hmax & Hsel').
        { intros s [= <-]. split; [done|]. intros x Hx. by apply Ha. }
        repeat split.
        -- right. destruct Hin as [[= ->]|Hin]; [left|right; done].
        -- done.
        -- intros x Hx Hxq. apply elem_of_cons in Hx as [->|Hx]; [by apply Hsel'|by apply Hmax].
        -- intros s Hs'. destruct (Hsel s Hs') as [_ Hle].
           specialize (Hle a (list_elem_of_here _ _)). specialize (Hsel' a eq_refl). lia.
      * destruct IH as [HN _]; [|discriminate].
        intros s [= <-]. split; [done|]. intros x Hx. by apply Ha.
    + destruct sel as [s|].
      * destruct (Hsel s eq_refl) as [Hq Hle]. repeat split; auto.
        -- intros x Hx Hxq. apply elem_of_cons in Hx as [->|Hx]; [lia|].
           specialize (Ha x Hx). lia.
        -- intros s' [= ->]. lia.
      * split; [done|]. intros x Hx. apply elem_of_cons in Hx as [->|Hx]; [lia|].
        specialize (Ha x Hx). lia.
Qed.

Lemma sorted_keys_elem (tiers : gmap Z string) (b : Z) :
  b ∈ merge_sort Z.le (map_to_list tiers).*1 <-> is_Some (tiers !! b).
Proof.
  rewrite merge_sort_Permutation, list_elem_of_fmap. split.
  - intros ([k v] & -> & Hkv). apply elem_of_map_to_list in Hkv. by exists v.
  - intros [v Hv]. exists (b, v). split; [done|]. by apply elem_of_map_to_list.
Qed.

Lemma pick_tier_value_choice (row : gmap string value) (tiers : gmap Z string)
    (q : Z) (to_float : value -> py num) :
  tiers <> ∅ ->
  exists b col, tier_choice tiers q b /\ tiers !! b = Some col
    /\ pick_tier_value row tiers q to_float = to_float (row_get row col (VInt 0)).
Proof.
  intros Hne. unfold pick_tier_value. rewrite decide_False by done.
  pose proof (sorted_keys_elem tiers) as Hkeys.
  assert (Hsorted : StronglySorted Z.le (merge_sort Z.le (map_to_list tiers).*1))
    by apply (StronglySorted_merge_sort _).
  assert (Hnil : merge_sort Z.le (map_to_list tiers).*1 <> []).
  { intros E. apply Hne, map_to_list_empty_iff.
    apply fmap_nil_inv with (f := fst). apply Permutation_nil_r.
    by rewrite <- (merge_sort_Permutation Z.le), E. }
  destruct (merge_sort Z.le (map_to_list tiers).*1) as [|a l'] eqn:El; [done|].
  pose proof (scan_tiers_spec q (a :: l') None Hsorted) as Hscan.
  destruct (scan_tiers q (a :: l') None) as [b|].
  - destruct Hscan as (Hin & Hbq & Hmax & _); [discriminate|].
    destruct Hin as [|Hin]; [discriminate|].
    apply Hkeys in Hin as Hsome. destruct Hsome as [col Hcol].
    exists b, col. split; [|split; [done|]].
    + split; [by exists col|]. left. split; [done|].
      intros b' Hb' Hq. apply Hmax; [|done]. by apply Hkeys.
    + simpl. rewrite Hcol. done.
  - destruct Hscan as [_ Hall]; [discriminate|].
    assert (Hin : a ∈ a :: l') by left.
    apply Hkeys in Hin as Hsome. destruct Hsome as [col Hcol].
    exists a, col. split; [|split; [done|]].
    + split; [by exists col|]. right. split.
      * intros b' Hb'. apply Hall. by apply Hkeys.
      * intros b' Hb'. apply Hkeys in Hb'.
        apply elem_of_cons in Hb' as [->|Hb']; [lia|].
        apply StronglySorted_inv in Hsorted as [_ Hfa].
        rewrite Forall_forall in Hfa. by apply Hfa.
    + simpl. rewrite Hcol. done.
Qed.

(** C1: [pick_tier_value] returns [0.0] on an empty table, and otherwise
    the coerced cell of the column at the largest breakpoint at or below the
    quantity, or at the smallest breakpoint when there is none; for the
    table 200/1000/5000 with cells 5.50/5.00/4.50 and quantity 800 the
    breakpoint is 200 and the value 5.50. *)
Theorem pick_tier_value_resolves (row : gmap string value) (tiers : gmap Z string)
    (q : Z) (to_float : value -> py num) :
  ((tiers = ∅ /\ pick_tier_value row tiers q to_float = Ok (NFloat 0))
   \/ (tiers <> ∅ /\ exists b col,
         tier_choice tiers q b /\ tiers !! b = Some col
         /\ pick_tier_value row tiers q to_float = to_float (row_get row col (VInt 0))))
  /\ tier_choice example_tiers 800 200
  /\ pick_tier_value example_row example_tiers 800 to_float_arg = Ok (NFloat 5.5).
Proof.
  split; [|split].
  - destruct (decide (tiers = ∅)) as [->|Hne].
    + left. split; [done|]. reflexivity.
    + right. split; [done|]. by apply pick_tier_value_choice.
  - split; [by eexists|]. left. split; [lia|].
    intros b' [col Hb'] Hq. unfold example_tiers in Hb'.
    repeat (apply lookup_insert_Some in Hb' as [[<- _]|[_ Hb']]; [lia|]).
    by rewrite lookup_empty in Hb'.
  - vm_compute. reflexivity.
Qed.

(** ** Offers *)

Lemma _ceil_to_lot_spec (x l : Z) :
  1 <= l ->
  (l | _ceil_to_lot x l) /\ x <= _ceil_to_lot x l
  /\ forall k, (l | k) -> x <= k -> _ceil_to_lot x l <= k.
Proof.
  intros Hl. unfold _ceil_to_lot. destruct (Z.leb_spec l 1) as [Hle|Hgt].
  - assert (l = 1) as -> by lia. repeat split; [apply Z.divide_1_l|lia|auto].
  - repeat split.
    + apply Z.divide_factor_r.
    + pose proof (Z.div_mod (x + l - 1) l ltac:(lia)) as Hdm.
      pose proof (Z.mod_pos_bound (x + l - 1) l ltac:(lia)) as Hb. nia.
    + intros k [j ->] Hk.
      assert ((x + l - 1) / l <= j) as Hj.
      { assert ((x + l - 1) / l < j + 1); [|lia].
        apply Z.div_lt_upper_bound; lia. }
      apply Z.mul_le_mono_nonneg_r; lia.
Qed.

Lemma _ceil_to_lot_no_rounding (x l : Z) : l <= 1 -> _ceil_to_lot x l = x.
Proof. intros H. unfold _ceil_to_lot. destruct (Z.leb_spec l 1); [done|lia]. Qed.

Lemma clamp_at_least_1_spec (row : gmap string value) (col : string) :
  exists n, _to_int (row_get row col (VInt 1)) 0 = Ok n
    /\ clamp_at_least_1 row col = Ok (if n <=? 0 then 1 else n).
Proof.
  destruct (_to_int_total (row_get row col (VInt 1)) 0) as [n Hn].
  exists n. split; [done|]. unfold clamp_at_least_1. rewrite Hn. simpl. f_equal.
  destruct (Z.eqb_spec n 0), (Z.leb_spec n 0); lia.
Qed.

Lemma _to_int_one : _to_int (VInt 1) 0 = Ok 1.
Proof. vm_compute. reflexivity. Qed.

Lemma _to_int_no_token (v : value) :
  _extract_number_token v = None -> _to_int v 0 = Ok 0.
Proof. intros H. unfold _to_int. rewrite H. reflexivity. Qed.

(** What [compute_offer] reads from [_prepare_fields]. *)
Lemma compute_offer_fields (row : gmap string value) (q target : Z)
    (mapping : Mapping) (config : Config) (o : Offer) :
  compute_offer row q target mapping config = Ok o ->
  exists f, _prepare_fields row mapping q = Ok f
    /\ requested_qty o = q
    /\ qty_ordered o = _ceil_to_lot (Z.max q (f_moq f)) (f_lot_size f)
    /\ unit_price (air o) = f_unit_price_air f
    /\ unit_price (sea o) = f_unit_price_sea f
    /\ production_unit_cost (air o) = f_production_unit_cost f
    /\ production_unit_cost (sea o) = f_production_unit_cost f
    /\ transport_unit_cost (air o) = f_air_transport_unit_cost f
    /\ transport_unit_cost (sea o) = f_sea_transport_unit_cost f
    /\ lead_time_days (air o) = f_lead_time_air_days f
    /\ lead_time_days (sea o) = f_lead_time_sea_days f
    /\ order_by (air o) = target - f_lead_time_air_days f
    /\ order_by (sea o) = target - f_lead_time_sea_days f
    /\ (a <- int_times_float (qty_ordered o) (f_unit_price_air f) ;;;
        _apply_pricing_overheads a (Some (default ∅ (c_pricing config))))
       = Ok (total_cost (air o))
    /\ (a <- int_times_float (qty_ordered o) (f_unit_price_sea f) ;;;
        _apply_pricing_overheads a (Some (default ∅ (c_pricing config))))
       = Ok (total_cost (sea o)).
Proof.
  intros H. unfold compute_offer in H.
  py_inv H as f Hf. exists f. split; [done|].
  py_inv H as aa Haa. py_inv H as ac Hac. py_inv H as sa Hsa. py_inv H as sc Hsc.
  do 3 py_inv H.
  assert (Hcfg : config_get_pricing config = Some (default ∅ (c_pricing config))).
  { unfold config_get_pricing, c_pricing in *.
    destruct (c_pricing_entry config); [done..|discriminate]. }
  rewrite Hcfg in Hac, Hsc.
  assert (Ho : o = ltac:(match type of H with Ok ?r = _ => exact r end)).
  { by destruct o; inversion H. }
  rewrite Ho. cbn -[_apply_pricing_overheads].
  rewrite Haa, Hsa. cbn [py_bind]. rewrite Hac, Hsc. done.
Qed.

Lemma pick_tier_value_float (row : gmap string value) (tiers : gmap Z string) (q : Z) :
  exists x, pick_tier_value row tiers q to_float_arg = Ok (NFloat x).
Proof.
  destruct (decide (tiers = ∅)) as [->|Hne].
  - by exists 0%float.
  - destruct (pick_tier_value_choice row tiers q to_float_arg Hne) as (b & col & _ & _ & ->).
    unfold to_float_arg.
    destruct (_to_float_total (row_get row col (VInt 0)) 0) as [x ->]. by exists x.
Qed.

Lemma pick_tier_value_int (row : gmap string value) (tiers : gmap Z string) (q : Z) :
  tiers <> ∅ -> exists n, pick_tier_value row tiers q to_int_arg = Ok (NInt n).
Proof.
  intros Hne.
  destruct (pick_tier_value_choice row tiers q to_int_arg Hne) as (b & col & _ & _ & ->).
  unfold to_int_arg.
  destruct (_to_int_total (row_get row col (VInt 0)) 0) as [x ->]. by exists x.
Qed.

Lemma transport_time_weeks_total (row : gmap string value) (col : string) :
  exists n, transport_time_weeks row col = Ok n.
Proof.
  unfold transport_time_weeks.
  destruct (negb (String.eqb col EmptyString) && bool_decide (is_Some (row !! col))).
  - apply _to_int_total.
  - by exists 0.
Qed.

(** [_prepare_fields] raises on no row, mapping and quantity. *)
Lemma _prepare_fields_total (row : gmap string value) (mapping : Mapping) (q : Z) :
  exists f, _prepare_fields row mapping q = Ok f.
Proof.
  unfold _prepare_fields.
  destruct (pick_tier_value_float row (default ∅ (m_tiers_production mapping)) q) as [x1 ->].
  destruct (pick_tier_value_float row (default ∅ (m_tiers_air_transport mapping)) q) as [x2 ->].
  destruct (pick_tier_value_float row (default ∅ (m_tiers_sea_transport mapping)) q) as [x3 ->].
  simpl.
  destruct (clamp_at_least_1_spec row (default EmptyString (m_moq mapping))) as (n1 & _ & ->).
  destruct (clamp_at_least_1_spec row (default EmptyString (m_lot_size mapping))) as (n2 & _ & ->).
  simpl.
  destruct (transport_time_weeks_total row
              (default EmptyString (m_air_transport_time_column mapping))) as [a1 Ha1].
  destruct (transport_time_weeks_total row
              (default EmptyString (m_sea_transport_time_column mapping))) as [a2 Ha2].
  destruct (decide (default ∅ (m_tiers_production_time mapping) = ∅)) as [He|Hne].
  - simpl. rewrite Ha1. simpl. rewrite Ha2. simpl. eauto.
  - destruct (pick_tier_value_int row _ q Hne) as [n ->]. simpl.
    rewrite Ha1. simpl. rewrite Ha2. simpl. eauto.
Qed.

Lemma _prepare_fields_inv (row : gmap string value) (mapping : Mapping) (q : Z) (f : Fields) :
  _prepare_fields row mapping q = Ok f ->
  f_unit_price_air f = (f_production_unit_cost f + f_air_transport_unit_cost f)%float
  /\ f_unit_price_sea f = (f_production_unit_cost f + f_sea_transport_unit_cost f)%float
  /\ clamp_at_least_1 row (default EmptyString (m_moq mapping)) = Ok (f_moq f)
  /\ clamp_at_least_1 row (default EmptyString (m_lot_size mapping)) = Ok (f_lot_size f)
  /\ exists pw aw sw,
       ((default ∅ (m_tiers_production_time mapping) = ∅ /\ pw = 0)
        \/ (default ∅ (m_tiers_production_time mapping) <> ∅
            /\ pick_tier_value row (default ∅ (m_tiers_production_time mapping)) q to_int_arg
               = Ok (NInt pw)))
       /\ transport_time_weeks row
            (default EmptyString (m_air_transport_time_column mapping)) = Ok aw
       /\ transport_time_weeks row
            (default EmptyString (m_sea_transport_time_column mapping)) = Ok sw
       /\ f_lead_time_air_days f = (pw + aw) * 7
       /\ f_lead_time_sea_days f = (pw + sw) * 7.
Proof.
  intros H. unfold _prepare_fields in H.
  do 6 py_inv H.
  py_inv H as moq Hmoq. py_inv H as lot Hlot.
  py_inv H as pw Hpw. py_inv H as aw Haw. py_inv H as sw Hsw.
  assert (Hf : f = ltac:(match type of H with Ok ?r = _ => exact r end)).
  { by destruct f; inversion H. }
  rewrite Hf. simpl. repeat (split; [done|]).
  exists pw, aw, sw. repeat split; try done.
  destruct (decide (default ∅ (m_tiers_production_time mapping) = ∅)) as [He|Hne].
  - left. split; [done|]. by inversion Hpw.
  - right. split; [done|]. py_inv Hpw as n Hn. rewrite Hn.
    destruct n; simpl in Hpw; [by inversion Hpw|discriminate].
Qed.

Lemma clamp_at_least_1_ge (row : gmap string value) (col : string) (n : Z) :
  clamp_at_least_1 row col = Ok n -> 1 <= n.
Proof.
  intros H. destruct (clamp_at_least_1_spec row col) as (m & _ & Hm).
  rewrite Hm in H. inversion H. destruct (Z.leb_spec m 0); lia.
Qed.

(** C2: the quantity ordered by [compute_offer] is
    [_ceil_to_lot (max q moq) lot] for the MOQ and lot size of the row, both
    at least 1: a multiple of the lot size, at least [max q moq], and the
    smallest such multiple; a lot size of 1 or less does not round. *)
Theorem qty_ordered_rounding (row : gmap string value) (q target : Z)
    (mapping : Mapping) (config : Config) (o : Offer) :
  compute_offer row q target mapping config = Ok o ->
  (exists f, _prepare_fields row mapping q = Ok f
     /\ 1 <= f_moq f /\ 1 <= f_lot_size f
     /\ qty_ordered o = _ceil_to_lot (Z.max q (f_moq f)) (f_lot_size f)
     /\ (f_lot_size f | qty_ordered o)
     /\ Z.max q (f_moq f) <= qty_ordered o
     /\ (forall k, (f_lot_size f | k) -> Z.max q (f_moq f) <= k -> qty_ordered o <= k))
  /\ (forall q' m l, 1 <= m -> 1 <= l ->
        (l | _ceil_to_lot (Z.max q' m) l)
        /\ Z.max q' m <= _ceil_to_lot (Z.max q' m) l
        /\ forall k, (l | k) -> Z.max q' m <= k -> _ceil_to_lot (Z.max q' m) l <= k)
  /\ (forall x l, l <= 1 -> _ceil_to_lot x l = x).
Proof.
  intros H. split; [|split].
  - destruct (compute_offer_fields _ _ _ _ _ _ H) as (f & Hf & _ & Hq & _).
    destruct (_prepare_fields_inv _ _ _ _ Hf) as (_ & _ & Hmoq & Hlot & _).
    apply clamp_at_least_1_ge in Hmoq, Hlot.
    exists f. split; [done|]. split; [done|]. split; [done|]. split; [done|].
    rewrite Hq. by apply _ceil_to_lot_spec.
  - intros q' m l _ Hl. by apply _ceil_to_lot_spec.
  - apply _ceil_to_lot_no_rounding.
Qed.


Lemma qty_ordered_rounding_witness :
  compute_offer example_offer_row 30 1000 example_mapping example_config
  = Ok (example_offer 30)
  /\ exists f,
       _prepare_fields example_offer_row example_mapping 30 = Ok f
       /\ qty_ordered (example_offer 30) = _ceil_to_lot (Z.max 30 (f_moq f)) (f_lot_size f)
       /\ (f_lot_size f | qty_ordered (example_offer 30))
       /\ Z.max 30 (f_moq f) <= qty_ordered (example_offer 30).
Proof.
  assert (H : compute_offer example_offer_row 30 1000 example_mapping example_config
              = Ok (example_offer 30)) by (vm_compute; reflexivity).
  split; [exact H|].
  destruct (qty_ordered_rounding _ _ _ _ _ _ H) as [(f & Hf & _ & _ & Hc & Hd & Hge & _) _].
  exists f. auto.
Defined.

Lemma int_times_float_Ok (n : Z) (x r : float) :
  int_times_float n x = Ok r ->
  exists nf, float_of_int n = Ok nf /\ r = (nf * x)%float.
Proof.
  unfold int_times_float. intros H. py_inv H as nf Hnf.
  exists nf. split; [done|]. by inversion H.
Qed.

Lemma _apply_pricing_overheads_Ok (amount : float)
    (pricing_cfg : gmap string (option num)) (r : float) :
  _apply_pricing_overheads amount (Some pricing_cfg) = Ok r ->
  exists flat pct,
    cfg_float pricing_cfg "handling_flat" = Ok flat
    /\ cfg_float pricing_cfg "handling_percent" = Ok pct
    /\ r = ((amount + flat) * (1 + pct / 100))%float.
Proof.
  unfold _apply_pricing_overheads. intros H.
  py_inv H as flat Hflat. py_inv H as pct Hpct.
  exists flat, pct. repeat split; try done. by inversion H.
Qed.

(** C3: in every offer, for air and for sea, the unit price is the
    production unit cost plus that mode's transport unit cost, and the total
    cost is [(qty_ordered * unit_price + handling_flat) *
    (1 + handling_percent / 100)], with the same overheads for both modes
    (float arithmetic, in this order of operations). *)
Theorem offer_cost_formula (row : gmap string value) (q target : Z)
    (mapping : Mapping) (config : Config) (o : Offer) :
  compute_offer row q target mapping config = Ok o ->
  unit_price (air o) = (production_unit_cost (air o) + transport_unit_cost (air o))%float
  /\ unit_price (sea o) = (production_unit_cost (sea o) + transport_unit_cost (sea o))%float
  /\ exists qty handling_flat handling_percent,
       float_of_int (qty_ordered o) = Ok qty
       /\ cfg_float (default ∅ (c_pricing config)) "handling_flat" = Ok handling_flat
       /\ cfg_float (default ∅ (c_pricing config)) "handling_percent" = Ok handling_percent
       /\ total_cost (air o)
          = ((qty * unit_price (air o) + handling_flat) * (1 + handling_percent / 100))%float
       /\ total_cost (sea o)
          = ((qty * unit_price (sea o) + handling_flat) * (1 + handling_percent / 100))%float.
Proof.
  intros H.
  destruct (compute_offer_fields _ _ _ _ _ _ H)
    as (f & Hf & _ & _ & Hua & Hus & Hpa & Hps & Hta & Hts & _ & _ & _ & _ & Hca & Hcs).
  destruct (_prepare_fields_inv _ _ _ _ Hf) as (Hfa & Hfs & _).
  rewrite Hua, Hus, Hpa, Hps, Hta, Hts. split; [done|]. split; [done|].
  py_inv Hca as aa Haa. py_inv Hcs as sa Hsa.
  apply int_times_float_Ok in Haa as (qa & Hqa & ->).
  apply int_times_float_Ok in Hsa as (qs & Hqs & ->).
  assert (qs = qa) as -> by congruence.
  apply _apply_pricing_overheads_Ok in Hca as (flat & pct & Hflat & Hpct & ->).
  apply _apply_pricing_overheads_Ok in Hcs as (flat' & pct' & Hflat' & Hpct' & ->).
  assert (flat' = flat) as -> by congruence.
  assert (pct' = pct) as -> by congruence.
  exists qa, flat, pct. done.
Qed.

(** For the example row, quantity 30 (100 ordered), handling 10 and 5 %:
    (100 * 5.5 + 10) * 1.05 = 588. *)
Lemma offer_cost_formula_witness :
  compute_offer example_offer_row 30 1000 example_mapping example_config
  = Ok (example_offer 30)
  /\ exists qty handling_flat handling_percent,
       float_of_int (qty_ordered (example_offer 30)) = Ok qty
       /\ cfg_float (default ∅ (c_pricing example_config)) "handling_flat" = Ok handling_flat
       /\ cfg_float (default ∅ (c_pricing example_config)) "handling_percent"
          = Ok handling_percent
       /\ total_cost (air (example_offer 30))
          = ((qty * unit_price (air (example_offer 30)) + handling_flat)
             * (1 + handling_percent / 100))%float.
Proof.
  assert (H : compute_offer example_offer_row 30 1000 example_mapping example_config
              = Ok (example_offer 30)) by (vm_compute; reflexivity).
  split; [exact H|].
  destruct (offer_cost_formula _ _ _ _ _ _ H)
    as (_ & _ & qty & flat & pct & Hq & Hf & Hp & Ha & _).
  exists qty, flat, pct. auto.
Defined.

Lemma transport_time_weeks_absent (row : gmap string value) (col : string) :
  col = EmptyString \/ row !! col = None -> transport_time_weeks row col = Ok 0.
Proof.
  unfold transport_time_weeks. intros [->|Hnone]; [done|].
  rewrite Hnone. rewrite bool_decide_eq_false_2 by (by intros [? ?]).
  by rewrite andb_false_r.
Qed.




(** C10: [compute_offer] uses an MOQ and a lot size clamped to at least 1:
    each is the integer read from its cell when that is positive, and 1 when
    the cell is missing or reads as zero, as a negative number, or as no
    number at all; so the quantity ordered is at least [max q 1], for every
    requested quantity [q]. *)
Theorem moq_lot_clamped (row : gmap string value) (q target : Z)
    (mapping : Mapping) (config : Config) (o : Offer) :
  compute_offer row q target mapping config = Ok o ->
  let moq_col := default EmptyString (m_moq mapping) in
  let lot_col := default EmptyString (m_lot_size mapping) in
  exists f n_moq n_lot,
    _prepare_fields row mapping q = Ok f
    /\ _to_int (row_get row moq_col (VInt 1)) 0 = Ok n_moq
    /\ _to_int (row_get row lot_col (VInt 1)) 0 = Ok n_lot
    /\ f_moq f = (if n_moq <=? 0 then 1 else n_moq)
    /\ f_lot_size f = (if n_lot <=? 0 then 1 else n_lot)
    /\ (row !! moq_col = None -> f_moq f = 1)
    /\ (row !! lot_col = None -> f_lot_size f = 1)
    /\ (forall v, row !! moq_col = Some v -> _extract_number_token v = None -> f_moq f = 1)
    /\ (forall v, row !! lot_col = Some v -> _extract_number_token v = None ->
          f_lot_size f = 1)
    /\ 1 <= f_moq f /\ 1 <= f_lot_size f
    /\ qty_ordered o = _ceil_to_lot (Z.max q (f_moq f)) (f_lot_size f)
    /\ Z.max q 1 <= qty_ordered o.
Proof.
  intros H moq_col lot_col.
  destruct (compute_offer_fields _ _ _ _ _ _ H) as (f & Hf & _ & Hq & _).
  destruct (_prepare_fields_inv _ _ _ _ Hf) as (_ & _ & Hmoq & Hlot & _).
  fold moq_col in Hmoq. fold lot_col in Hlot.
  destruct (clamp_at_least_1_spec row moq_col) as (n1 & Hn1 & Hc1).
  destruct (clamp_at_least_1_spec row lot_col) as (n2 & Hn2 & Hc2).
  assert (Hm : f_moq f = if n1 <=? 0 then 1 else n1) by congruence.
  assert (Hl : f_lot_size f = if n2 <=? 0 then 1 else n2) by congruence.
  pose proof (clamp_at_least_1_ge _ _ _ Hmoq) as Hm1.
  pose proof (clamp_at_least_1_ge _ _ _ Hlot) as Hl1.
  exists f, n1, n2. repeat (split; [done|]).
  split. { intros Hnone. unfold row_get in Hn1. rewrite Hnone, _to_int_one in Hn1.
           inversion Hn1; subst n1. by rewrite Hm. }
  split. { intros Hnone. unfold row_get in Hn2. rewrite Hnone, _to_int_one in Hn2.
           inversion Hn2; subst n2. by rewrite Hl. }
  split. { intros v Hv Ht. unfold row_get in Hn1. rewrite Hv, (_to_int_no_token v Ht) in Hn1.
           inversion Hn1; subst n1. by rewrite Hm. }
  split. { intros v Hv Ht. unfold row_get in Hn2. rewrite Hv, (_to_int_no_token v Ht) in Hn2.
           inversion Hn2; subst n2. by rewrite Hl. }
  split; [done|]. split; [done|]. split; [done|].
  rewrite Hq. destruct (_ceil_to_lot_spec (Z.max q (f_moq f)) (f_lot_size f) Hl1) as (_ & Hge & _).
  lia.
Qed.

Lemma moq_lot_clamped_witness :
  compute_offer example_offer_row (-5) 1000 example_mapping example_config
  = Ok (example_offer (-5))
  /\ Z.max (-5) 1 <= qty_ordered (example_offer (-5)).
Proof.
  assert (H : compute_offer example_offer_row (-5) 1000 example_mapping example_config
              = Ok (example_offer (-5))) by (vm_compute; reflexivity).
  split; [exact H|].
  destruct (moq_lot_clamped _ _ _ _ _ _ H)
    as (f & n1 & n2 & _ & _ & _ & _ & _ & _ & _ & _ & _ & _ & _ & _ & Hge).
  exact Hge.
Defined.

(** With a pricing section that is a dict or absent, [compute_offer] raises
    only when an integer is too large for a float: the quantity ordered, or
    a pricing entry. *)
Lemma compute_offer_total (row : gmap string value) (q target : Z)
    (mapping : Mapping) (config : Config) :
  exists f, _prepare_fields row mapping q = Ok f
    /\ forall qty flat pct,
         c_pricing_entry config <> PricingOther ->
         float_of_int (_ceil_to_lot (Z.max q (f_moq f)) (f_lot_size f)) = Ok qty ->
         cfg_float (default ∅ (c_pricing config)) "handling_flat" = Ok flat ->
         cfg_float (default ∅ (c_pricing config)) "handling_percent" = Ok pct ->
         exists o, compute_offer row q target mapping config = Ok o.
Proof.
  destruct (_prepare_fields_total row mapping q) as [f Hf]. exists f. split; [done|].
  intros qty flat pct Hdict Hqty Hflat Hpct.
  unfold compute_offer. rewrite Hf. simpl.
  unfold int_times_float, _apply_pricing_overheads. rewrite Hqty. simpl.
  unfold config_get_pricing, c_pricing in *.
  destruct (c_pricing_entry config); [| |done];
    simpl in *; rewrite Hflat; simpl; rewrite Hpct; simpl; eauto.
Qed.

(** ** Transitive dependencies *)

Lemma deps_of_not_in_keys (d : list (string * list string)) (c : string) :
  c ∉ (dict_keys d) -> deps_of d c = [].
Proof.
  unfold deps_of, dict_keys. induction d as [|[k v] d IH]; simpl; [done|].
  intros Hc. apply not_elem_of_union in Hc as [Hk Hd].
  rewrite decide_False by set_solver. by apply IH.
Qed.

Lemma size_keys_le (d : list (string * list string)) :
  (size (dict_keys d) <= length d)%nat.
Proof.
  unfold dict_keys. induction d as [|[k v] d IH]; simpl.
  - change (size (∅ : gset string) <= 0)%nat. by rewrite size_empty.
  - change (size ({[k]} ∪ (list_to_set d.*1 : gset string)) <= S (length d))%nat.
    pose proof (size_union_alt {[k]} (list_to_set d.*1 : gset string)) as Hs.
    rewrite Hs, size_singleton.
    pose proof (subseteq_size (list_to_set d.*1 ∖ {[k]}) (list_to_set d.*1 : gset string)
                  ltac:(set_solver)).
    lia.
Qed.

Section ResolveDependencies.
Variable deps_map : list (string * list string).

Lemma deps_of_not_key (c : string) : c ∉ dict_keys deps_map -> deps_of deps_map c = [].
Proof using Type. apply deps_of_not_in_keys. Qed.

Lemma size_keys : (size (dict_keys deps_map) <= length deps_map)%nat.
Proof using Type. apply size_keys_le. Qed.

Lemma all_deps_loop_spec (fuel : nat)
    (IH : forall comp V, (size (dict_keys deps_map ∖ V) < fuel)%nat ->
          exists r V', get_all_deps fuel deps_map comp V = Some (r, V')
                       /\ all_deps_post deps_map comp V r V')
    (deps result : list string) (V : gset string) :
  (size (dict_keys deps_map ∖ V) < fuel)%nat ->
  exists r V',
    all_deps_loop (get_all_deps fuel deps_map) deps result V = Some (result ++ r, V')
    /\ all_deps_loop_post deps_map deps V r V'.
Proof using Type.
  revert result V. induction deps as [|dep rest IHl]; intros result V Hsz; simpl.
  - exists [], V. rewrite app_nil_r. split; [done|].
    split; [done|]. split; [intros d Hd; by apply elem_of_nil in Hd|].
    split; [intros u Hu Hn; done|]. intros x Hx. by apply elem_of_nil in Hx.
  - destruct (IH dep V Hsz) as (sub & V1 & -> & HV & Hdep & Hnew & Hsub).
    assert (Hsz1 : (size (dict_keys deps_map ∖ V1) < fuel)%nat).
    { eapply Nat.le_lt_trans; [|exact Hsz]. apply subseteq_size. set_solver. }
    destruct (IHl (result ++ dep :: sub) V1 Hsz1) as (r2 & V2 & -> & HV2 & Hin2 & Hnew2 & Hsub2).
    exists (dep :: sub ++ r2), V2. split.
    { f_equal. f_equal. by rewrite <- app_assoc. }
    split; [set_solver|]. split; [|split].
    + intros d Hd. apply elem_of_cons in Hd as [->|Hd].
      * split; [set_solver|left].
      * destruct (Hin2 d Hd) as [? ?]. split; [done|].
        right. apply elem_of_app. by right.
    + intros u Hu HnV. destruct (decide (u ∈ V1)) as [Hu1|Hu1].
      * destruct (Hnew u Hu1 HnV) as [Hr Hd]. split.
        -- exists dep. split; [left|done].
        -- intros d Hed. destruct (Hd d Hed) as [? ?]. split; [set_solver|].
           right. apply elem_of_app. by left.
      * destruct (Hnew2 u Hu Hu1) as [(d & Hd & Hr) Hc]. split.
        -- exists d. split; [by right|done].
        -- intros d' Hed. destruct (Hc d' Hed) as [? ?]. split; [done|].
           right. apply elem_of_app. by right.
    + intros x Hx. apply elem_of_cons in Hx as [->|Hx]; [left; left|].
      apply elem_of_app in Hx as [Hx|Hx].
      * right. destruct (Hsub x Hx) as (u & Hu & Hn & He).
        exists u. split; [set_solver|done].
      * destruct (Hsub2 x Hx) as [Hd|(u & Hu & Hn & He)]; [left; by right|].
        right. exists u. split; [done|]. split; [set_solver|done].
Qed.

Lemma get_all_deps_spec (fuel : nat) (comp : string) (V : gset string) :
  (size (dict_keys deps_map ∖ V) < fuel)%nat ->
  exists r V', get_all_deps fuel deps_map comp V = Some (r, V')
               /\ all_deps_post deps_map comp V r V'.
Proof using Type.
  revert comp V. induction fuel as [|fuel IH]; intros comp V Hsz; [lia|].
  simpl. destruct (decide (comp ∈ V)) as [Hin|Hnin].
  - exists [], V. split; [done|]. split; [done|]. split; [done|].
    split; [intros u Hu Hn; done|]. intros x Hx. by apply elem_of_nil in Hx.
  - destruct (decide (comp ∈ dict_keys deps_map)) as [Hk|Hk].
    + assert (Hsz1 : (size (dict_keys deps_map ∖ ({[comp]} ∪ V)) < fuel)%nat).
      { assert (size (dict_keys deps_map ∖ ({[comp]} ∪ V))
                < size (dict_keys deps_map ∖ V))%nat; [|lia].
        apply subset_size. set_solver. }
      destruct (all_deps_loop_spec fuel IH (deps_of deps_map comp) [] _ Hsz1)
        as (r & V' & Hloop & HV & Hin & Hnew & Hsub).
      exists r, V'. split; [exact Hloop|].
      split; [set_solver|]. split; [set_solver|]. split.
      * intros u Hu HnV. destruct (decide (u = comp)) as [->|Hne].
        -- split; [done|]. intros d Hd. by apply Hin.
        -- destruct (Hnew u Hu ltac:(set_solver)) as [(d & Hd & Hr) Hc].
           split; [|done]. by apply rtc_l with d.
      * intros x Hx. destruct (Hsub x Hx) as [Hd|(u & Hu & Hn & He)].
        -- exists comp. split; [set_solver|done].
        -- exists u. split; [done|]. split; [set_solver|done].
    + rewrite (deps_of_not_key comp Hk). simpl.
      exists [], ({[comp]} ∪ V). split; [done|].
      split; [set_solver|]. split; [set_solver|]. split.
      * intros u Hu HnV. assert (u = comp) as -> by set_solver.
        split; [done|]. intros d Hd. unfold dep_edge in Hd.
        rewrite (deps_of_not_key comp Hk) in Hd. by apply elem_of_nil in Hd.
      * intros x Hx. by apply elem_of_nil in Hx.
Qed.

Lemma tc_last_step (x z : string) :
  tc (dep_edge deps_map) x z -> exists y, rtc (dep_edge deps_map) x y /\ dep_edge deps_map y z.
Proof using Type.
  induction 1 as [x z H|x y z H _ (y' & Hr & He)].
  - exists x. done.
  - exists y'. split; [by apply rtc_l with y|done].
Qed.

(** From an empty [visited], the list is exactly the transitive
    dependencies of [comp]. *)
Lemma get_all_deps_transitive (fuel : nat) (comp : string) :
  (length deps_map < fuel)%nat ->
  exists r V', get_all_deps fuel deps_map comp ∅ = Some (r, V')
               /\ forall x, x ∈ r <-> tc (dep_edge deps_map) comp x.
Proof using Type.
  intros Hfuel.
  assert (Hsz : (size (dict_keys deps_map ∖ ∅) < fuel)%nat).
  { pose proof size_keys.
    pose proof (subseteq_size (dict_keys deps_map ∖ ∅) (dict_keys deps_map)
                  ltac:(set_solver)).
    lia. }
  destruct (get_all_deps_spec fuel comp ∅ Hsz) as (r & V' & Hr & _ & Hc & Hnew & Hsub).
  exists r, V'. split; [done|]. intros x. split.
  - intros Hx. destruct (Hsub x Hx) as (u & Hu & Hn & He).
    destruct (Hnew u Hu Hn) as [Hrtc _].
    eapply tc_rtc_l; [exact Hrtc|]. by apply tc_once.
  - intros Htc. apply tc_last_step in Htc as (y & Hry & Hyx).
    assert (Hy : y ∈ V').
    { clear Hyx. revert y Hry. apply rtc_ind_r; [done|].
      intros b c Hab Hbc IHr.
      destruct (Hnew b IHr ltac:(set_solver)) as [_ Hd]. by apply Hd. }
    destruct (Hnew y Hy ltac:(set_solver)) as [_ Hd]. by apply Hd.
Qed.
End ResolveDependencies.

Lemma _resolve_dependencies_spec (fuel : nat) (components : list string)
    (deps_map : list (string * list string)) (acc : gmap string (list string)) :
  (length deps_map < fuel)%nat ->
  exists all_deps,
    _resolve_dependencies fuel components deps_map acc = Some all_deps
    /\ (forall comp, comp ∈ components ->
          exists l, all_deps !! comp = Some l
                    /\ forall x, x ∈ l <-> tc (dep_edge deps_map) comp x)
    /\ (forall comp, comp ∉ components -> all_deps !! comp = acc !! comp).
Proof.
  intros Hfuel. revert acc. induction components as [|c rest IH]; intros acc; simpl.
  - exists acc. split; [done|]. split; [|done].
    intros comp Hc. by apply elem_of_nil in Hc.
  - destruct (get_all_deps_transitive deps_map fuel c Hfuel) as (r & V' & -> & Hr).
    destruct (IH (<[c := r]> acc)) as (all_deps & -> & Hin & Hout).
    exists all_deps. split; [done|]. split.
    + intros comp Hc. destruct (decide (comp ∈ rest)) as [Hrest|Hrest]; [by apply Hin|].
      apply elem_of_cons in Hc as [->|Hc]; [|done].
      exists r. split; [|done]. by rewrite (Hout c Hrest), lookup_insert_eq.
    + intros comp Hc. apply not_elem_of_cons in Hc as [Hne Hrest].
      by rewrite (Hout comp Hrest), lookup_insert_ne.
Qed.

(** C9, as stated, on the diamond A -> B, C; B -> D; C -> D: the list for A
    names D twice. *)
Lemma resolve_dependencies_not_a_set :
  exists all_deps l,
    _resolve_dependencies 4 ["A"] diamond_deps ∅ = Some all_deps
    /\ all_deps !! "A" = Some l
    /\ ~ NoDup l.
Proof.
  exists (<["A" := ["B"; "D"; "C"; "D"]]> ∅), ["B"; "D"; "C"; "D"].
  split; [vm_compute; reflexivity|]. split; [vm_compute; reflexivity|].
  intros Hnd. apply NoDup_cons in Hnd as [_ Hnd]. apply NoDup_cons in Hnd as [Hd _].
  apply Hd. set_solver.
Qed.


(** ** The multiplicities in the transitive-dependency lists *)

Section ResolveListing.
Variable deps_map : list (string * list string).

(** What the loop appends: the dependencies it runs over, and the
    dependency lists of the components visited for the first time. *)
Lemma all_deps_loop_listing (fuel : nat)
    (IH : forall comp V r V',
          get_all_deps fuel deps_map comp V = Some (r, V') ->
          V ⊆ V'
          /\ exists new, NoDup new /\ (forall u, u ∈ new <-> u ∈ V' /\ u ∉ V)
                         /\ r ≡ₚ new ≫= deps_of deps_map)
    (deps result : list string) (V : gset string) (r : list string) (V' : gset string) :
  all_deps_loop (get_all_deps fuel deps_map) deps result V = Some (r, V') ->
  V ⊆ V'
  /\ exists new, NoDup new /\ (forall u, u ∈ new <-> u ∈ V' /\ u ∉ V)
                 /\ r ≡ₚ result ++ deps ++ (new ≫= deps_of deps_map).
Proof using Type.
  revert result V. induction deps as [|dep rest IHl]; intros result V H; simpl in H.
  - injection H as <- <-. split; [done|]. exists []. split; [constructor|]. split.
    + intros u. split; [intros Hu; by apply elem_of_nil in Hu|by intros [? ?]].
    + simpl. by rewrite app_nil_r.
  - destruct (get_all_deps fuel deps_map dep V) as [[sub V1]|] eqn:E; [|discriminate].
    destruct (IH _ _ _ _ E) as (HV1 & new1 & Hnd1 & Hel1 & Hp1).
    destruct (IHl _ _ H) as (HV' & new2 & Hnd2 & Hel2 & Hp2).
    split; [set_solver|]. exists (new1 ++ new2). split; [|split].
    + apply NoDup_app. split; [done|]. split; [|done].
      intros u Hu1 Hu2. apply Hel1 in Hu1 as [Hu1 _]. apply Hel2 in Hu2 as [_ Hu2]. done.
    + intros u. rewrite elem_of_app, Hel1, Hel2. split.
      * intros [[Hu Hn]|[Hu Hn]]; split; set_solver.
      * intros [Hu Hn]. destruct (decide (u ∈ V1)); [by left|by right].
    + rewrite Hp2, bind_app, Hp1. rewrite <- !app_assoc. apply Permutation_app_head.
      simpl. apply Permutation_skip. rewrite !app_assoc. apply Permutation_app_tail.
      apply Permutation_app_comm.
Qed.

(** A call lists the dependency lists of the components it visits for the
    first time, each once. *)
Lemma get_all_deps_listing (fuel : nat) (comp : string) (V : gset string)
    (r : list string) (V' : gset string) :
  get_all_deps fuel deps_map comp V = Some (r, V') ->
  V ⊆ V'
  /\ exists new, NoDup new /\ (forall u, u ∈ new <-> u ∈ V' /\ u ∉ V)
                 /\ r ≡ₚ new ≫= deps_of deps_map.
Proof using Type.
  revert comp V r V'. induction fuel as [|fuel IH]; intros comp V r V' H; [discriminate|].
  simpl in H. destruct (decide (comp ∈ V)) as [Hin|Hnin].
  - injection H as <- <-. split; [done|]. exists []. split; [constructor|]. split; [|done].
    intros u. split; [intros Hu; by apply elem_of_nil in Hu|by intros [? ?]].
  - destruct (all_deps_loop_listing fuel IH _ _ _ _ _ H) as (HV & new & Hnd & Hel & Hp).
    split; [set_solver|]. exists (comp :: new). split; [|split].
    + apply NoDup_cons. split; [|done]. intros Hc. apply Hel in Hc as [_ Hc]. set_solver.
    + intros u. rewrite elem_of_cons, Hel. split.
      * intros [->|[Hu Hn]]; split; set_solver.
      * intros [Hu Hn]. destruct (decide (u = comp)) as [->|Hne]; [by left|right].
        split; [done|]. set_solver.
    + simpl in Hp. by rewrite Hp.
Qed.

(** From an empty set of visited components: the list holds the transitive
    dependencies, and it is the dependency lists of the component and of
    its transitive dependencies, put together. *)
Lemma get_all_deps_visited (fuel : nat) (comp : string) :
  (length deps_map < fuel)%nat ->
  exists r V', get_all_deps fuel deps_map comp ∅ = Some (r, V')
    /\ (forall x, x ∈ r <-> tc (dep_edge deps_map) comp x)
    /\ exists visited, NoDup visited
         /\ (forall u, u ∈ visited <-> rtc (dep_edge deps_map) comp u)
         /\ r ≡ₚ visited ≫= deps_of deps_map.
Proof using Type.
  intros Hfuel.
  assert (Hsz : (size (dict_keys deps_map ∖ ∅) < fuel)%nat).
  { pose proof (size_keys deps_map).
    pose proof (subseteq_size (dict_keys deps_map ∖ ∅) (dict_keys deps_map)
                  ltac:(set_solver)).
    lia. }
  destruct (get_all_deps_transitive deps_map fuel comp Hfuel) as (r & V' & Hr & Htc).
  exists r, V'. split; [done|]. split; [done|].
  destruct (get_all_deps_spec deps_map fuel comp ∅ Hsz) as (r2 & V2 & Hr2 & _ & Hc & Hnew & _).
  rewrite Hr in Hr2. injection Hr2 as <- <-.
  destruct (get_all_deps_listing fuel comp ∅ r V' Hr) as (_ & visited & Hnd & Hel & Hp).
  exists visited. split; [done|]. split; [|done].
  intros u. rewrite Hel. split.
  - intros [Hu Hn]. by destruct (Hnew u Hu Hn).
  - intros Hrtc. split; [|set_solver]. revert u Hrtc. apply rtc_ind_r; [done|].
    intros b c Hab Hbc IHr. destruct (Hnew b IHr ltac:(set_solver)) as [_ Hd]. by apply Hd.
Qed.
End ResolveListing.

Lemma _resolve_dependencies_listing (fuel : nat) (components : list string)
    (deps_map : list (string * list string)) (acc : gmap string (list string)) :
  (length deps_map < fuel)%nat ->
  exists all_deps,
    _resolve_dependencies fuel components deps_map acc = Some all_deps
    /\ (forall comp, comp ∈ components ->
          exists l visited,
            all_deps !! comp = Some l
            /\ (forall x, x ∈ l <-> tc (dep_edge deps_map) comp x)
            /\ NoDup visited
            /\ (forall u, u ∈ visited <-> rtc (dep_edge deps_map) comp u)
            /\ l ≡ₚ visited ≫= deps_of deps_map)
    /\ (forall comp, comp ∉ components -> all_deps !! comp = acc !! comp).
Proof.
  intros Hfuel. revert acc. induction components as [|c rest IH]; intros acc; simpl.
  - exists acc. split; [done|]. split; [|done].
    intros comp Hc. by apply elem_of_nil in Hc.
  - destruct (get_all_deps_visited deps_map fuel c Hfuel)
      as (r & V' & -> & Hr & visited & Hnd & Hvis & Hp).
    destruct (IH (<[c := r]> acc)) as (all_deps & -> & Hin & Hout).
    exists all_deps. split; [done|]. split.
    + intros comp Hc. destruct (decide (comp ∈ rest)) as [Hrest|Hrest]; [by apply Hin|].
      apply elem_of_cons in Hc as [->|Hc]; [|done].
      exists r, visited. split; [|done]. by rewrite (Hout c Hrest), lookup_insert_eq.
    + intros comp Hc. apply not_elem_of_cons in Hc as [Hne Hrest].
      by rewrite (Hout comp Hrest), lookup_insert_ne.
Qed.

(** C9 (amended): for every dependency map, circular and self-referential
    ones included, the transitive-dependency computation terminates (a
    recursion budget above the number of entries of the map is never
    exhausted), and the list it returns for a component holds exactly the
    transitive dependencies of that component.  It is a list and not a set:
    up to the order, it is the dependency lists of the component and of each
    of its transitive dependencies, every one of these components taken
    once, put end to end; so a name occurs in it once for each time it is
    listed by one of them. *)
Theorem resolve_dependencies_terminates (fuel : nat) (components : list string)
    (deps_map : list (string * list string)) :
  (length deps_map < fuel)%nat ->
  exists all_deps,
    _resolve_dependencies fuel components deps_map ∅ = Some all_deps
    /\ forall comp, comp ∈ components ->
         exists l visited,
           all_deps !! comp = Some l
           /\ (forall x, x ∈ l <-> tc (dep_edge deps_map) comp x)
           /\ NoDup visited
           /\ (forall u, u ∈ visited <-> rtc (dep_edge deps_map) comp u)
           /\ l ≡ₚ visited ≫= deps_of deps_map.
Proof.
  intros Hfuel.
  destruct (_resolve_dependencies_listing fuel components deps_map ∅ Hfuel)
    as (all_deps & H & Hin & _).
  by exists all_deps.
Qed.

Lemma resolve_dependencies_terminates_witness :
  (length [("A", ["A"; "B"]); ("B", ["A"])] < 3)%nat
  /\ exists all_deps,
       _resolve_dependencies 3 ["A"; "B"] [("A", ["A"; "B"]); ("B", ["A"])] ∅
       = Some all_deps
       /\ forall comp, comp ∈ ["A"; "B"] ->
            exists l visited,
              all_deps !! comp = Some l
              /\ (forall x, x ∈ l
                    <-> tc (dep_edge [("A", ["A"; "B"]); ("B", ["A"])]) comp x)
              /\ NoDup visited
              /\ (forall u, u ∈ visited
                    <-> rtc (dep_edge [("A", ["A"; "B"]); ("B", ["A"])]) comp u)
              /\ l ≡ₚ visited ≫= deps_of [("A", ["A"; "B"]); ("B", ["A"])].
Proof.
  split; [simpl; lia|].
  apply (resolve_dependencies_terminates 3 ["A"; "B"] [("A", ["A"; "B"]); ("B", ["A"])]).
  simpl. lia.
Defined.

(** ** Backward scheduling *)

Lemma dependents_add_get (comp : string) (m : gmap string (list string)) (d c : string) :
  dependents_get (dependents_add comp m d) c
  = if decide (c = d) then dependents_get m d ++ [comp] else dependents_get m c.
Proof.
  unfold dependents_get, dependents_add. destruct (decide (c = d)) as [->|Hne].
  - by rewrite lookup_insert_eq.
  - by rewrite lookup_insert_ne.
Qed.

Lemma dependents_inner_spec (selected : gset string) (comp : string) (deps : list string)
    (m : gmap string (list string)) (c D : string) :
  D ∈ dependents_get
        (foldl (fun m d => if decide (d ∈ selected) then dependents_add comp m d else m)
               m deps) c
  <-> D ∈ dependents_get m c \/ (D = comp /\ c ∈ selected /\ c ∈ deps).
Proof.
  revert m. induction deps as [|d deps IH]; intros m; simpl.
  - split; [by left|]. intros [H|(_ & _ & H)]; [done|]. by apply elem_of_nil in H.
  - rewrite IH. destruct (decide (d ∈ selected)) as [Hd|Hd].
    + rewrite dependents_add_get. destruct (decide (c = d)) as [->|Hne].
      * rewrite elem_of_app, list_elem_of_singleton. split.
        -- intros [[H|H]|(H1 & H2 & H3)]; [by left|right|right].
           ++ split; [done|]. split; [done|]. left.
           ++ split; [done|]. split; [done|]. by right.
        -- intros [H|(H1 & H2 & H3)]; [left; by left|].
           apply elem_of_cons in H3 as [_|H3]; [left; by right|right; done].
      * split.
        -- intros [H|(H1 & H2 & H3)]; [by left|right].
           split; [done|]. split; [done|]. by right.
        -- intros [H|(H1 & H2 & H3)]; [by left|].
           apply elem_of_cons in H3 as [->|H3]; [done|right; done].
    + split.
      * intros [H|(H1 & H2 & H3)]; [by left|right].
        split; [done|]. split; [done|]. by right.
      * intros [H|(H1 & H2 & H3)]; [by left|].
        apply elem_of_cons in H3 as [->|H3]; [done|right; done].
Qed.

Lemma dependents_outer_spec (selected : gset string) (items : list (string * list string))
    (m : gmap string (list string)) (c D : string) :
  D ∈ dependents_get
        (foldl (fun m '(comp, deps) =>
                  if decide (comp ∈ selected) then
                    foldl (fun m d => if decide (d ∈ selected)
                                      then dependents_add comp m d else m) m deps
                  else m) m items) c
  <-> D ∈ dependents_get m c
      \/ (D ∈ selected /\ c ∈ selected /\ exists deps, (D, deps) ∈ items /\ c ∈ deps).
Proof.
  revert m. induction items as [|[comp deps] items IH]; intros m; simpl.
  - split; [by left|]. intros [H|(_ & _ & deps & H & _)]; [done|]. by apply elem_of_nil in H.
  - rewrite IH. destruct (decide (comp ∈ selected)) as [Hc|Hc].
    + rewrite dependents_inner_spec. split.
      * intros [[H|(-> & H2 & H3)]|(H1 & H2 & deps' & H3 & H4)].
        -- by left.
        -- right. split; [done|]. split; [done|]. exists deps. split; [left|done].
        -- right. split; [done|]. split; [done|]. exists deps'. split; [by right|done].
      * intros [H|(H1 & H2 & deps' & H3 & H4)]; [left; by left|].
        apply elem_of_cons in H3 as [[= -> ->]|H3].
        -- left. right. done.
        -- right. split; [done|]. split; [done|]. by exists deps'.
    + split.
      * intros [H|(H1 & H2 & deps' & H3 & H4)]; [by left|right].
        split; [done|]. split; [done|]. exists deps'. split; [by right|done].
      * intros [H|(H1 & H2 & deps' & H3 & H4)]; [by left|].
        apply elem_of_cons in H3 as [[= -> ->]|H3]; [done|].
        right. split; [done|]. split; [done|]. by exists deps'.
Qed.

Lemma dependents_init_get (components : list string) (m : gmap string (list string))
    (c : string) :
  dependents_get (foldl (fun m c => <[c := []]> m) m components) c
  = if bool_decide (c ∈ components) then [] else dependents_get m c.
Proof.
  revert m. induction components as [|a l IH]; intros m; cbn [foldl].
  - rewrite bool_decide_eq_false_2; [done|]. apply not_elem_of_nil.
  - rewrite IH. destruct (decide (c ∈ l)) as [Hl|Hl].
    + rewrite !bool_decide_eq_true_2; [done| |done]. by right.
    + rewrite (bool_decide_eq_false_2 _ Hl).
      unfold dependents_get. destruct (decide (c = a)) as [->|Hne].
      * rewrite lookup_insert_eq. rewrite bool_decide_eq_true_2; [done|]. left.
      * rewrite lookup_insert_ne by done. rewrite bool_decide_eq_false_2; [done|].
        intros H. apply elem_of_cons in H as [?|?]; done.
Qed.

(** The dependents that [build_dependents] records for [c] are the selected
    components that depend on [c]. *)
Lemma build_dependents_spec (components : list string)
    (deps_map : list (string * list string)) (c D : string) :
  D ∈ dependents_get (build_dependents components deps_map) c
  <-> depends_on components deps_map D c.
Proof.
  unfold build_dependents, depends_on. rewrite dependents_outer_spec.
  rewrite dependents_init_get. rewrite !elem_of_list_to_set. split.
  - intros [H|H]; [|done]. destruct (bool_decide (c ∈ components)).
    + by apply elem_of_nil in H.
    + unfold dependents_get in H. rewrite lookup_empty in H. by apply elem_of_nil in H.
  - intros H. by right.
Qed.

Section DfsTotal.
Variable dependents : gmap string (list string).
Variable universe : gset string.
Hypothesis dependents_in_universe :
  forall x D, D ∈ dependents_get dependents x -> D ∈ universe.

Lemma dfs_loop_total (fuel : nat)
    (IH : forall c V O, c ∈ universe -> (size (universe ∖ V) < fuel)%nat ->
          exists V' O', dfs fuel dependents c (V, O) = Some (V', O') /\ V ⊆ V')
    (nexts : list string) (V : gset string) (O : list string) :
  (forall x, x ∈ nexts -> x ∈ universe) ->
  (size (universe ∖ V) < fuel)%nat ->
  exists V' O', dfs_loop (dfs fuel dependents) nexts (V, O) = Some (V', O') /\ V ⊆ V'.
Proof using dependents_in_universe.
  revert V O. induction nexts as [|n rest IHl]; intros V O Hin Hsz; simpl.
  - by exists V, O.
  - destruct (IH n V O (Hin n ltac:(left)) Hsz) as (V1 & O1 & -> & HV1).
    destruct (IHl V1 O1) as (V2 & O2 & -> & HV2).
    + intros x Hx. apply Hin. by right.
    + eapply Nat.le_lt_trans; [|exact Hsz]. apply subseteq_size. set_solver.
    + exists V2, O2. split; [done|]. set_solver.
Qed.

(** The traversal ends within a recursion budget above the number of
    components not yet visited, whatever the graph. *)
Lemma dfs_total (fuel : nat) (c : string) (V : gset string) (O : list string) :
  c ∈ universe -> (size (universe ∖ V) < fuel)%nat ->
  exists V' O', dfs fuel dependents c (V, O) = Some (V', O') /\ V ⊆ V'.
Proof using dependents_in_universe.
  revert c V O. induction fuel as [|fuel IH]; intros c V O Hc Hsz; [lia|].
  simpl. destruct (decide (c ∈ V)) as [Hin|Hnin]; [by exists V, O|].
  destruct (dfs_loop_total fuel IH (dependents_get dependents c) ({[c]} ∪ V) O)
    as (V' & O' & -> & HV').
  - intros x Hx. by apply dependents_in_universe with c.
  - assert (size (universe ∖ ({[c]} ∪ V)) < size (universe ∖ V))%nat; [|lia].
    apply subset_size. set_solver.
  - exists V', (O' ++ [c]). split; [done|]. set_solver.
Qed.

End DfsTotal.

Lemma dfs_post_refl (dependents : gmap string (list string))
    (V : gset string) (O : list string) :
  dfs_inv dependents V O -> dfs_post dependents V O V O.
Proof. intros H. split; [done|]. split; [done|]. split; done. Qed.

Lemma dfs_post_trans (dependents : gmap string (list string))
    (V0 : gset string) (O0 : list string) (V1 : gset string) (O1 : list string)
    (V2 : gset string) (O2 : list string) :
  dfs_post dependents V0 O0 V1 O1 -> dfs_post dependents V1 O1 V2 O2 ->
  dfs_post dependents V0 O0 V2 O2.
Proof.
  intros (_ & HV1 & HO1 & HP1) (Hinv & HV2 & HO2 & HP2).
  split; [done|]. split; [set_solver|]. split; [auto|].
  intros x. by rewrite HP2, HP1.
Qed.

Section DfsAcyclic.
Variable dependents : gmap string (list string).
Hypothesis dependents_acyclic : forall x, ~ tc (dependent_edge dependents) x x.

Lemma dfs_loop_order (fuel : nat)
    (IH : forall c V O V' O',
          dfs fuel dependents c (V, O) = Some (V', O') ->
          dfs_inv dependents V O ->
          (forall x, in_progress V O x -> tc (dependent_edge dependents) x c) ->
          dfs_post dependents V O V' O' /\ c ∈ O')
    (nexts : list string) (V : gset string) (O : list string)
    (V' : gset string) (O' : list string) :
  dfs_loop (dfs fuel dependents) nexts (V, O) = Some (V', O') ->
  dfs_inv dependents V O ->
  (forall D x, D ∈ nexts -> in_progress V O x -> tc (dependent_edge dependents) x D) ->
  dfs_post dependents V O V' O' /\ forall D, D ∈ nexts -> D ∈ O'.
Proof using dependents_acyclic.
  revert V O. induction nexts as [|n rest IHl]; intros V O Hloop Hinv Hrank;
    simpl in Hloop.
  - injection Hloop as <- <-. split; [by apply dfs_post_refl|].
    intros D HD. by apply elem_of_nil in HD.
  - destruct (dfs fuel dependents n (V, O)) as [[V1 O1]|] eqn:Hn; [|discriminate].
    destruct (IH n V O V1 O1 Hn Hinv) as [Hpost1 Hn1].
    { intros x Hx. apply (Hrank n x); [left|done]. }
    destruct (IHl V1 O1 Hloop) as [Hpost2 Hrest].
    { by destruct Hpost1. }
    { intros D x HD Hx. apply (Hrank D x); [by right|].
      destruct Hpost1 as (_ & _ & _ & HP). by apply HP. }
    split; [by eapply dfs_post_trans|].
    intros D HD. apply elem_of_cons in HD as [->|HD]; [|by apply Hrest].
    destruct Hpost2 as (_ & _ & HO & _). by apply HO.
Qed.

(** On an acyclic graph the traversal appends every component after all
    its dependents. *)
Lemma dfs_order (fuel : nat) (c : string) (V : gset string) (O : list string)
    (V' : gset string) (O' : list string) :
  dfs fuel dependents c (V, O) = Some (V', O') ->
  dfs_inv dependents V O ->
  (forall x, in_progress V O x -> tc (dependent_edge dependents) x c) ->
  dfs_post dependents V O V' O' /\ c ∈ O'.
Proof using dependents_acyclic.
  revert c V O V' O'. induction fuel as [|fuel IH]; intros c V O V' O' Hdfs Hinv Hrank;
    [discriminate|].
  simpl in Hdfs. destruct (decide (c ∈ V)) as [Hin|Hnin].
  - injection Hdfs as <- <-. split; [by apply dfs_post_refl|].
    destruct (decide (c ∈ O)) as [HcO|HcO]; [done|].
    destruct (dependents_acyclic c). by apply Hrank.
  - destruct (dfs_loop (dfs fuel dependents) (dependents_get dependents c)
                ({[c]} ∪ V, O)) as [[V2 O2]|] eqn:Hloop; [|discriminate].
    injection Hdfs as <- <-.
    destruct Hinv as [Hok HOV].
    assert (HcO : c ∉ O) by (intros HcO; by apply Hnin, HOV).
    destruct (dfs_loop_order fuel IH _ _ _ _ _ Hloop) as [Hpost Hdeps].
    { split; [done|]. intros x Hx. apply elem_of_union_r. by apply HOV. }
    { intros D x HD [HxV HxO]. apply elem_of_union in HxV as [Hxc|HxV].
      - apply elem_of_singleton in Hxc as ->. by apply tc_once.
      - apply tc_r with c; [by apply Hrank|done]. }
    destruct Hpost as ([Hok2 HOV2] & HV2 & HO2 & HP2).
    assert (HcO2 : c ∉ O2).
    { assert (in_progress V2 O2 c) as [_ H]; [|done].
      apply HP2. split; [set_solver|done]. }
    split; [|apply elem_of_app; right; left].
    split; [|split; [set_solver|split]].
    + split.
      * by apply order_ok_snoc.
      * intros x Hx. apply elem_of_app in Hx as [Hx|Hx]; [by apply HOV2|].
        apply list_elem_of_singleton in Hx as ->. set_solver.
    + intros x Hx. apply elem_of_app. left. by apply HO2.
    + intros x. split.
      * intros [HxV HxO]. rewrite elem_of_app in HxO.
        assert (in_progress ({[c]} ∪ V) O x) as [HxV' HxO'].
        { apply HP2. split; [done|]. intros ?. apply HxO. by left. }
        split; [|done]. apply elem_of_union in HxV' as [Hxc|?]; [|done].
        apply elem_of_singleton in Hxc as ->. exfalso. apply HxO. right. left.
      * intros [HxV HxO].
        assert (in_progress V2 O2 x) as [HxV2 HxO2].
        { apply HP2. split; [set_solver|done]. }
        split; [done|]. rewrite elem_of_app. intros [?|Hx]; [done|].
        apply list_elem_of_singleton in Hx as ->. done.
Qed.
End DfsAcyclic.

Lemma min_list_le (x : Z) (l : list Z) :
  min_list x l <= x /\ (forall y, y ∈ l -> min_list x l <= y) /\ min_list x l ∈ x :: l.
Proof.
  unfold min_list. revert x. induction l as [|a l IH]; intros x; simpl.
  - split; [lia|]. split; [|left]. intros y Hy. by apply elem_of_nil in Hy.
  - destruct (IH (Z.min x a)) as (H1 & H2 & H3). split; [lia|]. split.
    + intros y Hy. apply elem_of_cons in Hy as [->|Hy]; [lia|by apply H2].
    + apply elem_of_cons in H3 as [H3|H3]; [|right; by right].
      rewrite H3. destruct (Z.min_spec x a) as [[_ ->]|[_ ->]]; [left|right; left].
Qed.

Lemma max_list_ge (x : Z) (l : list Z) :
  x <= max_list x l /\ (forall y, y ∈ l -> y <= max_list x l) /\ max_list x l ∈ x :: l.
Proof.
  unfold max_list. revert x. induction l as [|a l IH]; intros x; simpl.
  - split; [lia|]. split; [|left]. intros y Hy. by apply elem_of_nil in Hy.
  - destruct (IH (Z.max x a)) as (H1 & H2 & H3). split; [lia|]. split.
    + intros y Hy. apply elem_of_cons in Hy as [->|Hy]; [lia|by apply H2].
    + apply elem_of_cons in H3 as [H3|H3]; [|right; by right].
      rewrite H3. destruct (Z.max_spec x a) as [[_ ->]|[_ ->]]; [right; left|left].
Qed.

Section BackwardFinish.
Variable dependents : gmap string (list string).
Variable assembly_start : Z.
Variable durations : gmap string Z.
Variable assembly_end : option Z.
Variable assembly_name : option string.

Lemma backward_step_insert (finish : gmap string Z) (c : string) :
  exists v, backward_step dependents assembly_start durations assembly_end
              assembly_name finish c = <[c := v]> finish.
Proof using Type.
  unfold backward_step. destruct (dependents_get dependents c).
  - destruct assembly_name, assembly_end; try by eexists.
    destruct (_ && _); by eexists.
  - destruct (starts_of_dependents _ _ _); by eexists.
Qed.

Lemma starts_of_dependents_elem (finish : gmap string Z) (ds : list string) (s : Z) :
  s ∈ starts_of_dependents durations finish ds
  <-> exists D fD, D ∈ ds /\ finish !! D = Some fD /\ s = fD - duration_of durations D.
Proof using Type.
  unfold starts_of_dependents. rewrite list_elem_of_omap. split.
  - intros (D & HD & Hs). destruct (finish !! D) as [fD|] eqn:E; [|discriminate].
    injection Hs as <-. by exists D, fD.
  - intros (D & fD & HD & E & ->). exists D. split; [done|]. by rewrite E.
Qed.

(** A dependent with a known finish binds the finish that [backward_step]
    gives, and that finish is reached by one of them. *)
Lemma backward_step_min (finish : gmap string Z) (c : string) :
  dependents_get dependents c <> [] ->
  (forall D, D ∈ dependents_get dependents c -> is_Some (finish !! D)) ->
  exists fc,
    backward_step dependents assembly_start durations assembly_end assembly_name finish c
    = <[c := fc]> finish
    /\ (forall D fD, D ∈ dependents_get dependents c -> finish !! D = Some fD ->
          fc <= fD - duration_of durations D)
    /\ (exists D fD, D ∈ dependents_get dependents c /\ finish !! D = Some fD
                     /\ fc = fD - duration_of durations D).
Proof using Type.
  intros Hne Hall. unfold backward_step.
  destruct (dependents_get dependents c) as [|d ds] eqn:Eds; [done|].
  pose proof (starts_of_dependents_elem finish (d :: ds)) as Hel.
  destruct (starts_of_dependents durations finish (d :: ds)) as [|s rest].
  - exfalso. destruct (Hall d ltac:(left)) as [fd Hfd].
    apply (not_elem_of_nil (fd - duration_of durations d)), Hel.
    exists d, fd. split; [left|done].
  - exists (min_list s rest). split; [done|].
    destruct (min_list_le s rest) as (Hs & Hrest & Hin). split.
    + intros D fD HD HfD.
      assert (Hx : fD - duration_of durations D ∈ s :: rest).
      { apply Hel. by exists D, fD. }
      apply elem_of_cons in Hx as [->|Hx]; [done|by apply Hrest].
    + apply Hel in Hin as (D & fD & HD & HfD & E). by exists D, fD.
Qed.

(** After the loop over a good order, every component of the order has a
    finish, and the finish of a component with dependents is the least of
    its dependents' finish minus duration. *)
Lemma backward_finish_spec (order : list string) :
  order_ok dependents order ->
  let finish := backward_finish dependents assembly_start durations assembly_end
                  assembly_name order in
  (forall c, c ∈ order <-> is_Some (finish !! c))
  /\ (forall c, c ∈ order -> dependents_get dependents c <> [] ->
        exists fc, finish !! c = Some fc
          /\ (forall D, D ∈ dependents_get dependents c ->
                exists fD, finish !! D = Some fD /\ fc <= fD - duration_of durations D)
          /\ (exists D fD, D ∈ dependents_get dependents c /\ finish !! D = Some fD
                           /\ fc = fD - duration_of durations D)).
Proof using Type.
  unfold backward_finish. induction 1 as [|order c Hok IH Hc Hdeps]; simpl.
  - split.
    + intros c. rewrite lookup_empty. split; [intros H; by apply elem_of_nil in H|].
      by intros [? ?].
    + intros c Hc. by apply elem_of_nil in Hc.
  - rewrite foldl_app. simpl. destruct IH as [IHdom IHmin].
    set (finish := foldl (backward_step dependents assembly_start durations assembly_end
                            assembly_name) ∅ order) in *.
    split.
    + intros x. destruct (backward_step_insert finish c) as [v ->].
      rewrite elem_of_app, list_elem_of_singleton, lookup_insert_is_Some, <- IHdom.
      destruct (decide (c = x)) as [->|Hne]; [tauto|]. split.
      * intros [?|?]; [right; done|congruence].
      * intros [?|[_ ?]]; [congruence|by left].
    + intros x Hx Hne. apply elem_of_app in Hx as [Hx|Hx].
      * assert (Hxc : c <> x) by congruence.
        destruct (backward_step_insert finish c) as [v ->].
        destruct (IHmin x Hx Hne) as (fx & Hfx & Hle & D & fD & HD & HfD & E).
        exists fx. split; [by rewrite lookup_insert_ne|]. split.
        -- intros D' HD'. destruct (Hle D' HD') as (fD' & HfD' & Hle').
           exists fD'. split; [|done]. rewrite lookup_insert_ne; [done|].
           intros <-. apply Hc. apply IHdom. by exists fD'.
        -- exists D, fD. split; [done|]. split; [|done].
           rewrite lookup_insert_ne; [done|]. intros <-. apply Hc, IHdom. by exists fD.
      * apply list_elem_of_singleton in Hx as ->.
        destruct (backward_step_min finish c Hne) as (fc & -> & Hle & D & fD & HD & HfD & E).
        { intros D HD. apply IHdom. by apply Hdeps. }
        exists fc. split; [by rewrite lookup_insert_eq|]. split.
        -- intros D' HD'. destruct (proj1 (IHdom D') (Hdeps D' HD')) as [fD' HfD'].
           exists fD'. split; [|by apply Hle]. rewrite lookup_insert_ne; [done|].
           intros <-. by apply Hc, Hdeps.
        -- exists D, fD. split; [done|]. split; [|done].
           rewrite lookup_insert_ne; [done|]. intros <-. by apply Hc, Hdeps.
Qed.
End BackwardFinish.

Lemma size_list_to_set_le (l : list string) :
  (size (list_to_set l : gset string) <= length l)%nat.
Proof.
  induction l as [|a l IH]; simpl.
  - change (size (∅ : gset string) <= 0)%nat. by rewrite size_empty.
  - change (size ({[a]} ∪ (list_to_set l : gset string)) <= S (length l))%nat.
    rewrite size_union_alt, size_singleton.
    pose proof (subseteq_size (list_to_set l ∖ {[a]}) (list_to_set l : gset string)
                  ltac:(set_solver)).
    lia.
Qed.

Lemma build_dependents_selected (components : list string)
    (deps_map : list (string * list string)) (x D : string) :
  D ∈ dependents_get (build_dependents components deps_map) x ->
  D ∈ (list_to_set components : gset string).
Proof.
  intros H. apply build_dependents_spec in H as (HD & _). by apply elem_of_list_to_set.
Qed.

(** The traversal of [_backward_schedule_with_deps] ends, cycles or not. *)
Lemma backward_order_total (fuel : nat) (components : list string)
    (deps_map : list (string * list string)) :
  (length components < fuel)%nat ->
  exists V O, backward_order fuel components (build_dependents components deps_map)
              = Some (V, O).
Proof.
  intros Hfuel. unfold backward_order.
  pose proof (size_list_to_set_le components) as Hsz.
  destruct (dfs_loop_total (build_dependents components deps_map)
              (list_to_set components) (build_dependents_selected components deps_map)
              fuel) with (nexts := components)
              (V := (∅ : gset string)) (O := @nil string) as (V & O & H & _).
  - intros c V O Hc HV.
    apply (dfs_total _ (list_to_set components)); [|done..].
    apply build_dependents_selected.
  - intros x Hx. by apply elem_of_list_to_set.
  - pose proof (subseteq_size (list_to_set components ∖ ∅)
                  (list_to_set components : gset string) ltac:(set_solver)).
    lia.
  - by exists V, O.
Qed.

Lemma tc_flip {A} (R : relation A) (x y : A) : tc (flip R) x y -> tc R y x.
Proof.
  induction 1 as [x y H|x y z H _ IH]; [by apply tc_once|].
  by apply tc_r with y.
Qed.

Lemma tc_sub {A} (R S : relation A) (x y : A) :
  (forall a b, R a b -> S a b) -> tc R x y -> tc S x y.
Proof.
  intros Hsub. induction 1 as [x y H|x y z H _ IH]; [by apply tc_once, Hsub|].
  apply tc_l with y; [by apply Hsub|done].
Qed.

Lemma build_dependents_acyclic (components : list string)
    (deps_map : list (string * list string)) :
  acyclic_selection components deps_map ->
  forall x, ~ tc (dependent_edge (build_dependents components deps_map)) x x.
Proof.
  intros Hacyc x Hx. apply (Hacyc x), tc_flip.
  apply tc_sub with (R := dependent_edge (build_dependents components deps_map)); [|done].
  intros a b Hab. by apply build_dependents_spec.
Qed.

Lemma backward_order_ok (fuel : nat) (components : list string)
    (deps_map : list (string * list string)) (V : gset string) (O : list string) :
  acyclic_selection components deps_map ->
  backward_order fuel components (build_dependents components deps_map) = Some (V, O) ->
  order_ok (build_dependents components deps_map) O /\ forall c, c ∈ components -> c ∈ O.
Proof.
  intros Hacyc Horder. unfold backward_order in Horder.
  pose proof (build_dependents_acyclic components deps_map Hacyc) as Hr.
  destruct (dfs_loop_order (build_dependents components deps_map) Hr fuel
              (fun c V O V' O' => dfs_order _ Hr fuel c V O V' O')
              components ∅ [] V O Horder) as [([Hok _] & _) Hall].
  - split; [constructor|]. intros x Hx. by apply elem_of_nil in Hx.
  - intros D x _ [Hx _]. by apply elem_of_empty in Hx.
  - done.
Qed.

(** A ranking that decreases along dependencies excludes cycles. *)
Lemma ranked_acyclic (components : list string) (deps_map : list (string * list string))
    (rank : string -> nat) :
  (forall D c, depends_on components deps_map D c -> (rank c < rank D)%nat) ->
  acyclic_selection components deps_map.
Proof.
  intros Hrank x Hx.
  assert (H : forall a b, tc (depends_on components deps_map) a b -> (rank b < rank a)%nat).
  { induction 1 as [a b H|a b c H _ IH]; [by apply Hrank|].
    specialize (Hrank a b H). lia. }
  specialize (H x x Hx). lia.
Qed.

Lemma diamond_acyclic : acyclic_selection ["A"; "B"; "C"; "D"] diamond_deps.
Proof.
  apply ranked_acyclic with diamond_rank. intros D c (_ & _ & deps & Hin & Hc).
  unfold diamond_deps in Hin.
  repeat (apply elem_of_cons in Hin as [[= -> ->]|Hin]);
    try (by apply elem_of_nil in Hin);
    repeat (apply elem_of_cons in Hc as [->|Hc]);
    try (by apply elem_of_nil in Hc);
    vm_compute; lia.
Qed.

Lemma backward_rows_names (assembly_start : Z) (durations finish : gmap string Z)
    (components : list string) :
  Composant <$> (backward_row assembly_start durations finish <$> components) = components.
Proof.
  induction components as [|c l IH]; [done|].
  rewrite !fmap_cons. by rewrite IH.
Qed.

(** C5, as stated, on the cycle A -> B -> A with durations 7 and 14 and
    milestone day 100: B has the dependent A, yet finish(B) = 100 is later
    than finish(A) - 7 = 79. *)
Lemma backward_cycle_counterexample :
  _backward_schedule_with_deps 3 ["A"; "B"] cycle_deps 100 cycle_durations None None
  = Some [{| Composant := "A"; Start := 79; Finish := 86 |};
          {| Composant := "B"; Start := 86; Finish := 100 |}]
  /\ depends_on ["A"; "B"] cycle_deps "A" "B"
  /\ ~ (100 <= 86 - duration_of cycle_durations "A").
Proof.
  split; [vm_compute; reflexivity|]. split.
  - split; [left|]. split; [right; left|].
    exists ["B"]. split; left.
  - vm_compute. intros H. by apply H.
Qed.

(** C5 (amended): when the selected part of the dependency map is acyclic,
    the backward scheduler returns, for some finish date per component, the
    rows (c, finish c - duration c, finish c) of the requested components,
    and for every component c with a selected dependent D,
    finish c <= finish D - duration D, with equality for one of the
    dependents: the finish is the minimum over the direct dependents. *)
Theorem backward_respects_dependents (fuel : nat) (components : list string)
    (deps_map : list (string * list string)) (assembly_start : Z)
    (durations : gmap string Z) (assembly_end : option Z)
    (assembly_name : option string) :
  (length components < fuel)%nat ->
  acyclic_selection components deps_map ->
  exists (rows : list ScheduleRow) (finish : string -> Z),
    _backward_schedule_with_deps fuel components deps_map assembly_start durations
      assembly_end assembly_name = Some rows
    /\ rows = (fun c => {| Composant := c;
                           Start := finish c - duration_of durations c;
                           Finish := finish c |}) <$> components
    /\ (forall D c, depends_on components deps_map D c ->
          finish c <= finish D - duration_of durations D)
    /\ (forall D0 c, depends_on components deps_map D0 c ->
          exists D, depends_on components deps_map D c
                    /\ finish c = finish D - duration_of durations D).
Proof.
  intros Hfuel Hacyc. unfold _backward_schedule_with_deps.
  destruct (backward_order_total fuel components deps_map Hfuel) as (V & O & Horder).
  rewrite Horder.
  destruct (backward_order_ok fuel components deps_map V O Hacyc Horder) as [Hok Hall].
  set (G := build_dependents components deps_map) in *.
  set (F := backward_finish G assembly_start durations assembly_end assembly_name O).
  destruct (backward_finish_spec G assembly_start durations assembly_end assembly_name O Hok)
    as [Hdom Hmin]. fold F in Hdom, Hmin.
  exists (backward_row assembly_start durations F <$> components),
         (fun c => default assembly_start (F !! c)).
  split; [done|]. split; [done|].
  assert (Hkey : forall D c, depends_on components deps_map D c ->
            exists fc, F !! c = Some fc
              /\ (forall D', D' ∈ dependents_get G c ->
                    exists fD, F !! D' = Some fD /\ fc <= fD - duration_of durations D')
              /\ (exists D' fD, D' ∈ dependents_get G c /\ F !! D' = Some fD
                                /\ fc = fD - duration_of durations D')).
  { intros D c Hdep. pose proof Hdep as (_ & Hc & _).
    apply build_dependents_spec in Hdep. fold G in Hdep.
    apply Hmin; [by apply Hall|]. intros E. rewrite E in Hdep. by apply elem_of_nil in Hdep. }
  split.
  - intros D c Hdep. destruct (Hkey D c Hdep) as (fc & Hfc & Hle & _).
    apply build_dependents_spec in Hdep. fold G in Hdep.
    destruct (Hle D Hdep) as (fD & HfD & Hle'). by rewrite Hfc, HfD.
  - intros D0 c Hdep. destruct (Hkey D0 c Hdep) as (fc & Hfc & _ & D & fD & HD & HfD & E).
    exists D. split; [by apply build_dependents_spec|]. by rewrite Hfc, HfD.
Qed.

Lemma backward_respects_dependents_witness :
  (length ["A"; "B"; "C"; "D"] < 5)%nat
  /\ acyclic_selection ["A"; "B"; "C"; "D"] diamond_deps
  /\ exists (rows : list ScheduleRow) (finish : string -> Z),
       _backward_schedule_with_deps 5 ["A"; "B"; "C"; "D"] diamond_deps 100
         cycle_durations None None = Some rows
       /\ rows = (fun c => {| Composant := c;
                              Start := finish c - duration_of cycle_durations c;
                              Finish := finish c |}) <$> ["A"; "B"; "C"; "D"]
       /\ (forall D c, depends_on ["A"; "B"; "C"; "D"] diamond_deps D c ->
             finish c <= finish D - duration_of cycle_durations D)
       /\ (forall D0 c, depends_on ["A"; "B"; "C"; "D"] diamond_deps D0 c ->
             exists D, depends_on ["A"; "B"; "C"; "D"] diamond_deps D c
                       /\ finish c = finish D - duration_of cycle_durations D).
Proof.
  split; [simpl; lia|]. split; [exact diamond_acyclic|].
  apply backward_respects_dependents; [simpl; lia|exact diamond_acyclic].
Defined.

(** ** Forward scheduling *)

Lemma dict_get_elem {V} (d : list (string * V)) (k : string) (v : V) :
  dict_get d k = Some v -> (k, v) ∈ d.
Proof.
  induction d as [|[k' v'] d IH]; simpl; [discriminate|].
  destruct (decide (k = k')) as [->|Hne].
  - intros [= ->]. left.
  - intros H. right. by apply IH.
Qed.

Lemma foldl_insert_lookup {V} (g : string -> V) (l : list string) (m : gmap string V)
    (x : string) :
  foldl (fun m c => <[c := g c]> m) m l !! x
  = if bool_decide (x ∈ l) then Some (g x) else m !! x.
Proof.
  revert m. induction l as [|a l IH]; intros m; cbn [foldl].
  - rewrite bool_decide_eq_false_2; [done|]. apply not_elem_of_nil.
  - rewrite IH. destruct (decide (x ∈ l)) as [Hl|Hl].
    + rewrite !bool_decide_eq_true_2; [done| |done]. by right.
    + rewrite (bool_decide_eq_false_2 _ Hl). destruct (decide (x = a)) as [->|Hne].
      * rewrite lookup_insert_eq. rewrite bool_decide_eq_true_2; [done|]. left.
      * rewrite lookup_insert_ne by done. rewrite bool_decide_eq_false_2; [done|].
        intros H. apply elem_of_cons in H as [?|?]; done.
Qed.

Lemma deps_limited_get_elem (components : list string)
    (deps_map : list (string * list string)) (c d : string) :
  d ∈ deps_limited_get components deps_map c
  <-> c ∈ components /\ d ∈ components /\ d ∈ deps_of deps_map c.
Proof.
  unfold deps_limited_get, deps_limited. rewrite foldl_insert_lookup.
  destruct (decide (c ∈ components)) as [Hc|Hc].
  - rewrite bool_decide_eq_true_2 by done. simpl.
    rewrite list_elem_of_filter. unfold selected. rewrite elem_of_list_to_set. tauto.
  - rewrite bool_decide_eq_false_2 by done. rewrite lookup_empty. simpl.
    split; [intros H; by apply elem_of_nil in H|tauto].
Qed.

Lemma deps_limited_get_depends (components : list string)
    (deps_map : list (string * list string)) (c d : string) :
  d ∈ deps_limited_get components deps_map c -> depends_on components deps_map c d.
Proof.
  intros H. apply deps_limited_get_elem in H as (Hc & Hd & Hdeps).
  split; [done|]. split; [done|]. unfold deps_of in Hdeps.
  destruct (dict_get deps_map c) as [deps|] eqn:E; simpl in Hdeps.
  - exists deps. split; [by apply dict_get_elem|done].
  - by apply elem_of_nil in Hdeps.
Qed.

(** In a non-empty finite set with an acyclic successor relation, some
    element has no successor in the set. *)
Lemma exists_ready (succ : string -> list string) :
  (forall x, ~ tc (fun a b => b ∈ succ a) x x) ->
  forall (n : nat) (X : gset string) (x : string),
    (size X <= n)%nat -> x ∈ X ->
    exists m, m ∈ X /\ rtc (fun a b => b ∈ succ a) x m /\ forall d, d ∈ succ m -> d ∉ X.
Proof.
  intros Hacyc. induction n as [|n IH]; intros X x Hsz Hx.
  - exfalso. assert (X ≡ ∅) as HS by (apply size_empty_inv; lia). set_solver.
  - destruct (decide (Exists (fun d => d ∈ X) (succ x))) as [Hex|Hnex].
    + apply Exists_exists in Hex as (d & Hd & HdS).
      assert (Hne : d <> x).
      { intros ->. apply (Hacyc x). by apply tc_once. }
      destruct (IH (X ∖ {[x]}) d) as (m & Hm & Hrtc & Hmin).
      * assert (size (X ∖ {[x]}) < size X)%nat; [|lia].
        apply subset_size. clear - Hx. set_solver.
      * clear - HdS Hne. set_solver.
      * exists m. split; [clear - Hm; set_solver|]. split; [by apply rtc_l with d|].
        intros e He HeS. destruct (decide (e = x)) as [->|Hex].
        -- apply (Hacyc x). apply tc_r with m; [|done].
           apply tc_rtc_r with d; [by apply tc_once|done].
        -- apply (Hmin e He). clear - HeS Hex. set_solver.
    + exists x. split; [done|]. split; [done|].
      intros d Hd HdS. apply Hnex. apply Exists_exists. by exists d.
Qed.

Lemma py_mapM_dict_at (fin : gmap string Z) (deps : list string) :
  (forall d, d ∈ deps -> is_Some (fin !! d)) ->
  exists fins, py_mapM (dict_at fin) deps = Ok fins
    /\ length fins = length deps
    /\ forall x, x ∈ fins <-> exists d, d ∈ deps /\ fin !! d = Some x.
Proof.
  induction deps as [|d deps IH]; intros Hall; simpl.
  - exists []. split; [done|]. split; [done|]. intros x. split.
    + intros Hx. by apply elem_of_nil in Hx.
    + intros (d & Hd & _). by apply elem_of_nil in Hd.
  - destruct (Hall d ltac:(left)) as [fd Hfd].
    destruct IH as (fins & -> & Hlen & Hel); [intros x Hx; apply Hall; by right|].
    unfold dict_at at 1. rewrite Hfd. simpl.
    exists (fd :: fins). split; [done|]. split; [simpl; by rewrite Hlen|].
    intros x. rewrite elem_of_cons, Hel. split.
    + intros [->|(d' & Hd' & Hx)]; [exists d; split; [left|done]|].
      exists d'. split; [by right|done].
    + intros (d' & Hd' & Hx). apply elem_of_cons in Hd' as [->|Hd'].
      * left. congruence.
      * right. by exists d'.
Qed.

Section ForwardSteps.
Variable components : list string.
Variable deps_map : list (string * list string).
Variable start_by_comp : gmap string Z.
Variable lead_days : gmap string Z.
Variable today : Z.

Abbreviation resolve' := (resolve lead_days).
Abbreviation relax_step' := (relax_step components deps_map start_by_comp lead_days today).
Abbreviation force_step' := (force_step components deps_map start_by_comp lead_days today).
Abbreviation dom_ok := (forward_dom components).
Abbreviation constraints_ok := (forward_ok components deps_map start_by_comp lead_days today).
Abbreviation deps_get := (deps_limited_get components deps_map).

(** [remaining.remove(comp)] finds [comp], and the bookkeeping stays
    sound. *)
Lemma resolve_dom (st : fstate) (comp : string) (start : Z) :
  dom_ok st -> comp ∈ remaining st ->
  exists st', resolve' st comp start = Ok st'
    /\ dom_ok st'
    /\ starts st' = <[comp := start]> (starts st)
    /\ finishes st' = <[comp := start + Z.max 0 (default 0 (lead_days !! comp))]> (finishes st)
    /\ remaining st' = remaining st ∖ {[comp]}
    /\ iteration st' = iteration st.
Proof.
  intros (Hsub & Hs & Hf) Hcomp. unfold resolve, set_remove.
  rewrite decide_True by done. simpl. eexists. split; [done|].
  split; [|done]. split; [|split]; simpl.
  - set_solver.
  - intros c. rewrite lookup_insert_is_Some, Hs.
    destruct (decide (comp = c)) as [->|Hne]; set_solver.
  - intros c. rewrite lookup_insert_is_Some, Hf.
    destruct (decide (comp = c)) as [->|Hne]; set_solver.
Qed.

(** With every dependency resolved, the start is computed without a
    [KeyError] or an empty [max], and it is late enough. *)
Lemma ready_start_ok (fin : gmap string Z) (comp : string) (deps : list string) :
  (forall d, d ∈ deps -> is_Some (fin !! d)) ->
  exists s, ready_start start_by_comp today fin comp deps = Ok s
    /\ own_start_of start_by_comp today comp <= s
    /\ forall d fd, d ∈ deps -> fin !! d = Some fd -> fd <= s.
Proof.
  intros Hall. unfold ready_start. destruct deps as [|d0 deps'].
  - eexists. split; [done|]. split; [lia|]. intros d fd Hd. by apply elem_of_nil in Hd.
  - destruct (py_mapM_dict_at fin (d0 :: deps') Hall) as (fins & -> & Hlen & Hel).
    simpl. destruct fins as [|f rest]; [simpl in Hlen; lia|]. simpl.
    eexists. split; [done|].
    destruct (max_list_ge f rest) as (Hf & Hrest & _). split; [lia|].
    intros d fd Hd Hfd.
    assert (Hx : fd ∈ f :: rest) by (apply Hel; by exists d).
    apply elem_of_cons in Hx as [->|Hx]; [lia|]. specialize (Hrest fd Hx). lia.
Qed.

(** One turn of the relaxation pass. *)
Lemma relax_step_spec (st : fstate) (p : bool) (comp : string) :
  dom_ok st -> comp ∈ remaining st ->
  exists st' p', relax_step' (st, p) comp = Ok (st', p')
  /\ dom_ok st'
  /\ remaining st' ⊆ remaining st
  /\ (forall x, x ∈ remaining st -> x <> comp -> x ∈ remaining st')
  /\ (p = true -> p' = true)
  /\ (p' = true -> p = true \/ comp ∉ remaining st')
  /\ (constraints_ok st -> constraints_ok st')
  /\ ((forall d, d ∈ deps_get comp -> is_Some (finishes st !! d)) -> p' = true)
  /\ (forall d, is_Some (finishes st !! d) -> is_Some (finishes st' !! d))
  /\ iteration st' = iteration st.
Proof.
  intros Hdom Hcomp. unfold relax_step.
  change (default [] (deps_limited components deps_map !! comp)) with (deps_get comp).
  destruct (forallb _ (deps_get comp)) eqn:Hall.
  - rewrite forallb_forall in Hall.
    assert (Hdeps : forall d, d ∈ deps_get comp -> is_Some (finishes st !! d)).
    { intros d Hd. apply list_elem_of_In, Hall in Hd. by apply bool_decide_eq_true in Hd. }
    destruct (ready_start_ok (finishes st) comp (deps_get comp) Hdeps)
      as (s & -> & Hown & Hge).
    cbn [py_bind].
    destruct (resolve_dom st comp s Hdom Hcomp) as (st' & -> & Hdom' & Hs' & Hf' & Hr' & Hi').
    cbn [py_bind]. exists st', true. split; [done|]. split; [done|].
    split; [set_solver|]. split; [set_solver|]. split; [done|].
    split; [right; set_solver|]. split; [|split; [done|split; [|done]]].
    + intros Hok c s0 f0. rewrite Hs', Hf'.
      destruct Hdom as (Hsub & Hst & Hfi).
      assert (Hnf : finishes st !! comp = None).
      { destruct (finishes st !! comp) eqn:E; [|done].
        assert (is_Some (finishes st !! comp)) as Hsome by eauto.
        apply Hfi in Hsome as [_ ?]. done. }
      destruct (decide (c = comp)) as [->|Hne].
      * rewrite !lookup_insert_eq. intros [= <-] [= <-].
        split; [done|]. split; [done|].
        intros d Hd. destruct (Hdeps d Hd) as [fd Hfd].
        exists fd. split; [|by apply (Hge d)].
        rewrite lookup_insert_ne; [done|]. intros <-. congruence.
      * rewrite !lookup_insert_ne by done. intros Hcs Hcf.
        destruct (Hok c s0 f0 Hcs Hcf) as (H1 & H2 & H3). split; [done|]. split; [done|].
        intros d Hd. destruct (H3 d Hd) as (fd & Hfd & Hle). exists fd. split; [|done].
        rewrite lookup_insert_ne; [done|]. intros <-. congruence.
    + intros d Hd. rewrite Hf', lookup_insert_is_Some. destruct (decide (comp = d)); auto.
  - exists st, p. split; [done|].
    split; [done|]. split; [done|]. split; [auto|]. split; [done|].
    split; [by left|]. split; [done|]. split; [|done].
    intros Hdeps. exfalso.
    assert (forallb (fun d => bool_decide (is_Some (finishes st !! d))) (deps_get comp) = true)
      as Habs; [|congruence].
    apply forallb_forall. intros d Hd. apply bool_decide_eq_true, Hdeps.
    by apply list_elem_of_In.
Qed.

(** The whole relaxation pass over a snapshot [l] of [remaining]. *)
Lemma relax_pass_spec (l : list string) (st : fstate) (p : bool) :
  NoDup l -> (forall x, x ∈ l -> x ∈ remaining st) -> dom_ok st ->
  exists st' p', py_foldl relax_step' (st, p) l = Ok (st', p')
  /\ dom_ok st'
  /\ remaining st' ⊆ remaining st
  /\ (p' = true -> p = true \/ remaining st' ⊂ remaining st)
  /\ (constraints_ok st -> constraints_ok st')
  /\ (forall m, m ∈ l -> (forall d, d ∈ deps_get m -> is_Some (finishes st !! d)) ->
        p' = true)
  /\ (p = true -> p' = true)
  /\ iteration st' = iteration st.
Proof.
  revert st p. induction l as [|a l IH]; intros st p Hnd Hin Hdom; cbn [py_foldl].
  - exists st, p. split; [done|].
    split; [done|]. split; [done|]. split; [by left|]. split; [done|].
    split; [|done]. intros m Hm. by apply elem_of_nil in Hm.
  - apply NoDup_cons in Hnd as [Ha Hnd].
    destruct (relax_step_spec st p a Hdom (Hin a ltac:(left)))
      as (st1 & p1 & -> & Hdom1 & Hsub1 & Hkeep1 & Hp1 & Hprog1 & Hok1 & Hall1 & Hmono1 & Hit1).
    simpl.
    destruct (IH st1 p1 Hnd)
      as (st2 & p2 & -> & Hdom2 & Hsub2 & Hprog2 & Hok2 & Hall2 & Hp2 & Hit2); [|done|].
    { intros x Hx. apply Hkeep1; [apply Hin; by right|]. intros ->. done. }
    exists st2, p2. split; [done|].
    split; [done|]. split; [set_solver|]. split; [|split; [auto|split; [|split]]].
    + intros Hp. destruct (Hprog2 Hp) as [Hp1'|Hstrict].
      * destruct (Hprog1 Hp1') as [?|Hna]; [by left|]. right.
        split; [set_solver|]. intros Hsup. apply Hna. apply Hsub2. apply Hsup.
        apply Hin. left.
      * right. set_solver.
    + intros m Hm Hdeps. apply elem_of_cons in Hm as [->|Hm].
      * apply Hp2. by apply Hall1.
      * apply (Hall2 m Hm). intros d Hd. apply Hmono1. by apply Hdeps.
    + auto.
    + congruence.
Qed.

(** The forced pass resolves every component of its snapshot. *)
Lemma force_pass_spec (l : list string) (st : fstate) :
  NoDup l -> (forall x, x ∈ l -> x ∈ remaining st) -> dom_ok st ->
  exists st', py_foldl force_step' st l = Ok st'
  /\ dom_ok st'
  /\ remaining st' = remaining st ∖ list_to_set l
  /\ iteration st' = iteration st.
Proof.
  revert st. induction l as [|a l IH]; intros st Hnd Hin Hdom; cbn [py_foldl].
  - exists st. split; [done|]. split; [done|]. split; [|done]. set_solver.
  - apply NoDup_cons in Hnd as [Ha Hnd]. unfold force_step at 1.
    destruct (resolve_dom st a
                (forced_start start_by_comp today (finishes st) a
                   (default [] (deps_limited components deps_map !! a)))
                Hdom (Hin a ltac:(left)))
      as (st1 & -> & Hdom1 & _ & _ & Hr1 & Hi1).
    simpl.
    destruct (IH st1 Hnd) as (st2 & -> & Hdom2 & Hrem & Hit); [|done|].
    { intros x Hx. rewrite Hr1. apply elem_of_difference. split; [apply Hin; by right|].
      intros Hxa. apply elem_of_singleton in Hxa as ->. done. }
    exists st2. split; [done|]. split; [done|]. split; [|congruence].
    rewrite Hrem, Hr1. set_solver.
Qed.

Lemma forward_init_dom : dom_ok (forward_init components).
Proof.
  unfold forward_init. split; [done|]. simpl. split.
  - intros c. rewrite lookup_empty. split; [by intros [? ?]|]. unfold selected. set_solver.
  - intros c. rewrite lookup_empty. split; [by intros [? ?]|]. unfold selected. set_solver.
Qed.

Lemma forward_init_ok : constraints_ok (forward_init components).
Proof. intros c s f Hs. simpl in Hs. by rewrite lookup_empty in Hs. Qed.

Lemma forward_rows_all (st : fstate) :
  (forall c, c ∈ components -> is_Some (starts st !! c) /\ is_Some (finishes st !! c)) ->
  forward_rows components st
  = (fun c => {| Composant := c;
                 Start := default 0 (starts st !! c);
                 Finish := default 0 (finishes st !! c) |}) <$> components.
Proof.
  unfold forward_rows. induction components as [|c l IH]; intros Hall; [done|].
  cbn [omap list_omap fmap list_fmap].
  destruct (Hall c ltac:(left)) as [[s Hs] [f Hf]]. rewrite Hs, Hf. simpl.
  f_equal. apply IH. intros x Hx. apply Hall. by right.
Qed.
End ForwardSteps.

Section ForwardLoop.
Variable list_of_set : nat -> bool -> gset string -> list string.
Variable components : list string.
Variable deps_map : list (string * list string).
Variable start_by_comp : gmap string Z.
Variable lead_days : gmap string Z.
Variable today : Z.
Hypothesis list_of_set_perm : forall i b s, list_of_set i b s ≡ₚ elements s.

Abbreviation relax_step' := (relax_step components deps_map start_by_comp lead_days today).
Abbreviation force_step' := (force_step components deps_map start_by_comp lead_days today).
Abbreviation forward_loop' :=
  (forward_loop list_of_set components deps_map start_by_comp lead_days today).
Abbreviation dom_ok := (forward_dom components).
Abbreviation constraints_ok := (forward_ok components deps_map start_by_comp lead_days today).
Abbreviation deps_get := (deps_limited_get components deps_map).

Lemma list_of_set_elem (i : nat) (b : bool) (s : gset string) (x : string) :
  x ∈ list_of_set i b s <-> x ∈ s.
Proof using list_of_set_perm. by rewrite list_of_set_perm, elem_of_elements. Qed.

Lemma list_of_set_NoDup (i : nat) (b : bool) (s : gset string) :
  NoDup (list_of_set i b s).
Proof using list_of_set_perm. rewrite list_of_set_perm. apply NoDup_elements. Qed.

(** The loop raises nothing and leaves [remaining] empty, whatever the
    dependency map, and counts at most its budget of passes. *)
Lemma forward_loop_spec (budget : nat) (st : fstate) :
  dom_ok st -> (size (remaining st) <= budget)%nat ->
  exists st', forward_loop' budget st = Ok st'
  /\ dom_ok st'
  /\ remaining st' = ∅
  /\ (iteration st' <= iteration st + budget)%nat.
Proof using list_of_set_perm.
  revert st. induction budget as [|budget IH]; intros st Hdom Hsz.
  - simpl. exists st. split; [done|]. split; [done|]. split; [|lia].
    apply leibniz_equiv, size_empty_inv. lia.
  - cbn [forward_loop]. destruct (decide (remaining st = ∅)) as [He|Hne].
    { exists st. split; [done|]. split; [done|]. split; [done|]. lia. }
    set (st0 := {| starts := starts st; finishes := finishes st;
                   remaining := remaining st; iteration := S (iteration st) |}).
    assert (Hdom0 : dom_ok st0) by done.
    destruct (relax_pass_spec components deps_map start_by_comp lead_days today
                (list_of_set (iteration st0) false (remaining st0)) st0 false
                (list_of_set_NoDup _ _ _) (fun x => proj1 (list_of_set_elem _ _ _ x)) Hdom0)
      as (st1 & p1 & -> & Hdom1 & Hsub1 & Hprog1 & _ & _ & _ & Hit1).
    simpl. destruct p1.
    + destruct (Hprog1 eq_refl) as [?|Hstrict]; [done|].
      apply subset_size in Hstrict. simpl in Hstrict.
      destruct (IH st1 Hdom1 ltac:(lia)) as (st2 & -> & H1 & H2 & H3).
      exists st2. split; [done|]. split; [done|]. split; [done|].
      rewrite Hit1 in H3. simpl in H3. lia.
    + destruct (force_pass_spec components deps_map start_by_comp lead_days today
                  (list_of_set (iteration st1) true (remaining st1)) st1
                  (list_of_set_NoDup _ _ _) (fun x => proj1 (list_of_set_elem _ _ _ x)) Hdom1)
        as (st2 & -> & H1 & H2 & H3).
      exists st2. split; [done|]. split; [done|]. split.
      * rewrite H2. apply leibniz_equiv. intros x. rewrite elem_of_difference.
        rewrite elem_of_list_to_set, list_of_set_elem. set_solver.
      * rewrite H3, Hit1. simpl. lia.
Qed.

(** On an acyclic selection every pass over a non-empty [remaining] makes
    progress, so no component is ever forced and the constraints hold. *)
Lemma forward_loop_ok (budget : nat) (st st' : fstate) :
  acyclic_selection components deps_map ->
  dom_ok st -> constraints_ok st ->
  forward_loop' budget st = Ok st' ->
  constraints_ok st'.
Proof using list_of_set_perm.
  intros Hacyc.
  assert (Hsucc : forall x, ~ tc (fun a b => b ∈ deps_get a) x x).
  { intros x Hx. apply (Hacyc x).
    apply tc_sub with (R := fun a b => b ∈ deps_get a); [|done].
    intros a b Hab. by apply deps_limited_get_depends. }
  revert st. induction budget as [|budget IH]; intros st Hdom Hok Hloop.
  - simpl in Hloop. by injection Hloop as <-.
  - cbn [forward_loop] in Hloop.
    destruct (decide (remaining st = ∅)) as [He|Hne]; [by injection Hloop as <-|].
    set (st0 := {| starts := starts st; finishes := finishes st;
                   remaining := remaining st; iteration := S (iteration st) |}) in *.
    assert (Hdom0 : dom_ok st0) by done.
    assert (Hok0 : constraints_ok st0) by done.
    destruct (relax_pass_spec components deps_map start_by_comp lead_days today
                (list_of_set (iteration st0) false (remaining st0)) st0 false
                (list_of_set_NoDup _ _ _) (fun x => proj1 (list_of_set_elem _ _ _ x)) Hdom0)
      as (st1 & p1 & Hpass & Hdom1 & _ & _ & Hok1 & Hall & _ & _).
    rewrite Hpass in Hloop. simpl in Hloop.
    destruct p1; [by apply (IH st1); auto|]. exfalso.
    assert (exists x, x ∈ remaining st) as [x Hx].
    { apply set_choose_L. done. }
    destruct (exists_ready deps_get Hsucc (size (remaining st)) (remaining st) x
                ltac:(lia) Hx) as (m & Hm & _ & Hmin).
    assert (true = false) as Habs; [|discriminate]. symmetry.
    apply (Hall m); [by apply list_of_set_elem|].
    intros d Hd. destruct Hdom0 as (_ & _ & Hf). apply Hf.
    pose proof (proj1 (deps_limited_get_elem _ _ _ _) Hd) as (_ & Hdsel & _).
    split; [by apply elem_of_list_to_set|]. simpl. by apply Hmin.
Qed.

Lemma forward_final_dom :
  exists st,
    forward_final list_of_set components deps_map start_by_comp lead_days today = Ok st
    /\ (forall c, c ∈ components -> is_Some (starts st !! c) /\ is_Some (finishes st !! c))
    /\ (iteration st <= length components * 3)%nat.
Proof using list_of_set_perm.
  unfold forward_final.
  destruct (forward_loop_spec (length components * 3) (forward_init components)
              (forward_init_dom components)) as (st & Hst & (_ & Hs & Hf) & Hrem & Hit).
  { simpl. pose proof (size_list_to_set_le components). lia. }
  exists st. split; [done|]. split; [|exact Hit].
  intros c Hc. rewrite Hs, Hf, Hrem. unfold selected. set_solver.
Qed.
End ForwardLoop.

(** Once every selected component has a finish, the assembly step raises
    nothing, and it appends a row exactly when the assembly is selected or
    has a selected dependency. *)
Lemma assembly_rows_spec (components : list string)
    (deps_map : list (string * list string)) (today : Z) (assembly_name : string)
    (assembly_days : Z) (fin : gmap string Z) :
  (forall c, c ∈ components -> is_Some (fin !! c)) ->
  exists assembly,
    assembly_rows components deps_map today assembly_name assembly_days fin = Ok assembly
    /\ (assembly_name ∉ components ->
        (forall d, d ∈ deps_of deps_map assembly_name -> d ∉ components) ->
        assembly = [])
    /\ (assembly_name ∈ components
        \/ (exists d, d ∈ deps_of deps_map assembly_name /\ d ∈ components) ->
        exists s, assembly = [{| Composant := assembly_name; Start := s;
                                 Finish := s + assembly_days |}]).
Proof.
  intros Hall. unfold assembly_rows.
  set (asm_deps := filter (fun d => d ∈ selected components) (deps_of deps_map assembly_name)).
  assert (Hel : forall d, d ∈ asm_deps
                          <-> d ∈ deps_of deps_map assembly_name /\ d ∈ components).
  { intros d. unfold asm_deps, selected.
    rewrite list_elem_of_filter, elem_of_list_to_set. tauto. }
  assert (Hfa : forallb (fun d => bool_decide (is_Some (fin !! d))) asm_deps = true).
  { apply forallb_forall. intros d Hd. apply list_elem_of_In, Hel in Hd as [_ Hd].
    apply bool_decide_eq_true. by apply Hall. }
  destruct (py_mapM_dict_at fin asm_deps) as (fins & Hfins & _ & _).
  { intros d Hd. apply Hel in Hd as [_ Hd]. by apply Hall. }
  rewrite Hfa, andb_true_r, Hfins. cbn [py_bind].
  destruct (decide (assembly_name ∈ components)) as [Hin|Hnin].
  - rewrite bool_decide_eq_true_2; [|unfold selected; by rewrite elem_of_list_to_set].
    cbn [orb]. eexists. split; [done|]. split; [done|]. intros _. by eexists.
  - rewrite bool_decide_eq_false_2; [|unfold selected; by rewrite elem_of_list_to_set].
    cbn [orb]. destruct asm_deps as [|d0 l] eqn:E.
    + eexists. split; [done|]. split; [done|].
      intros [?|(d & Hd & Hdc)]; [done|]. exfalso.
      apply (not_elem_of_nil d), Hel. done.
    + rewrite bool_decide_eq_false_2 by done. cbn [negb].
      eexists. split; [done|]. split; [|intros _; by eexists].
      intros _ Hnd. exfalso. destruct (proj1 (Hel d0) ltac:(left)) as [H1 H2].
      by apply (Hnd d0).
Qed.

Lemma forward_rows_names (components : list string) (start finish : string -> Z) :
  Composant <$> ((fun c => {| Composant := c; Start := start c; Finish := finish c |})
                   <$> components) = components.
Proof.
  induction components as [|c l IH]; [done|]. rewrite !fmap_cons. by rewrite IH.
Qed.

(** C6, as stated, on a component that lists itself as a dependency, with
    lead 7 and order date (today) 50: it is forced to start at 50, before
    its dependency, itself, finishes at 57.  And without any dependency,
    when the component is also the assembly: the row appended for the
    assembly runs from 57 to 113, which is not its start plus
    max(0, lead) = 7. *)
Lemma forward_constraint_counterexample :
  (_forward_schedule_with_custom_starts elements_order ["A"] [("A", ["A"])] ∅
     cycle_durations 50 "Z" 56
   = Ok [{| Composant := "A"; Start := 50; Finish := 57 |}]
   /\ "A" ∈ deps_of [("A", ["A"])] "A"
   /\ ~ (57 <= 50))
  /\ (_forward_schedule_with_custom_starts elements_order ["A"] [] ∅
        cycle_durations 50 "A" 56
      = Ok [{| Composant := "A"; Start := 50; Finish := 57 |};
            {| Composant := "A"; Start := 57; Finish := 113 |}]
      /\ 113 <> 57 + Z.max 0 (default 0 (cycle_durations !! "A"))).
Proof.
  split.
  - split; [vm_compute; reflexivity|]. split; [left|lia].
  - split; [vm_compute; reflexivity|]. vm_compute. discriminate.
Qed.

(** C7, as stated, when the assembly component is itself selected: the
    forward scheduler returns two rows for the one requested component. *)
Lemma forward_assembly_row_counterexample :
  _forward_schedule_with_custom_starts elements_order ["A"] [] ∅ ∅ 50 "A" 56
  = Ok [{| Composant := "A"; Start := 50; Finish := 50 |};
        {| Composant := "A"; Start := 50; Finish := 106 |}]
  /\ length [{| Composant := "A"; Start := 50; Finish := 50 |};
             {| Composant := "A"; Start := 50; Finish := 106 |}]
     <> length ["A"].
Proof.
  split; [vm_compute; reflexivity|]. simpl. lia.
Qed.

(** C7 (amended): for every selection and every dependency map, cyclic or
    self-referential ones included, both schedulers terminate and raise
    nothing.  The backward scheduler (with a recursion budget above the
    number of components) returns exactly one row per requested component,
    in order.  The forward scheduler's loop counts at most 3 times the
    number of requested components, and the scheduler returns one row per
    requested component, in order, followed by one more row, for the
    assembly component, exactly when the assembly is selected or has a
    selected dependency. *)
Theorem schedulers_terminate (list_of_set : nat -> bool -> gset string -> list string) (fuel : nat)
    (components : list string) (deps_map : list (string * list string))
    (assembly_start : Z) (durations : gmap string Z) (assembly_end : option Z)
    (backward_assembly_name : option string)
    (start_by_comp lead_days : gmap string Z) (today : Z)
    (assembly_name : string) (assembly_days : Z) :
  (forall i b s, list_of_set i b s ≡ₚ elements s) ->
  (length components < fuel)%nat ->
  (exists rows,
     _backward_schedule_with_deps fuel components deps_map assembly_start durations
       assembly_end backward_assembly_name = Some rows
     /\ Composant <$> rows = components)
  /\ (exists st,
        forward_final list_of_set components deps_map start_by_comp lead_days today = Ok st
        /\ (iteration st <= length components * 3)%nat)
  /\ exists rows assembly,
       _forward_schedule_with_custom_starts list_of_set components deps_map start_by_comp
         lead_days today assembly_name assembly_days = Ok (rows ++ assembly)
       /\ Composant <$> rows = components
       /\ (assembly_name ∉ components ->
           (forall d, d ∈ deps_of deps_map assembly_name -> d ∉ components) ->
           assembly = [])
       /\ (assembly_name ∈ components
           \/ (exists d, d ∈ deps_of deps_map assembly_name /\ d ∈ components) ->
           exists s, assembly = [{| Composant := assembly_name; Start := s;
                                    Finish := s + assembly_days |}]).
Proof.
  intros Hperm Hfuel.
  destruct (forward_final_dom list_of_set components deps_map start_by_comp lead_days
              today Hperm) as (st & Hst & Hall & Hit).
  split; [|split].
  - unfold _backward_schedule_with_deps.
    destruct (backward_order_total fuel components deps_map Hfuel) as (V & O & ->).
    eexists. split; [done|]. apply backward_rows_names.
  - by exists st.
  - destruct (assembly_rows_spec components deps_map today assembly_name assembly_days
                (finishes st)) as (assembly & Hasm & Hnone & Hone).
    { intros c Hc. by apply Hall. }
    exists (forward_rows components st), assembly. split; [|split; [|done]].
    + unfold _forward_schedule_with_custom_starts. rewrite Hst. cbn [py_bind].
      by rewrite Hasm.
    + rewrite (forward_rows_all components st Hall). apply forward_rows_names.
Qed.

Lemma schedulers_terminate_witness :
  (forall (i : nat) (b : bool) (s : gset string), elements_order i b s ≡ₚ elements s)
  /\ (length ["A"; "B"] < 3)%nat
  /\ (exists rows,
        _backward_schedule_with_deps 3 ["A"; "B"] cycle_deps 100 cycle_durations None None
        = Some rows
        /\ Composant <$> rows = ["A"; "B"])
  /\ (exists st,
        forward_final elements_order ["A"; "B"] cycle_deps ∅ cycle_durations 50 = Ok st
        /\ (iteration st <= length ["A"; "B"] * 3)%nat).
Proof.
  split; [done|]. split; [simpl; lia|].
  destruct (schedulers_terminate elements_order 3 ["A"; "B"] cycle_deps 100 cycle_durations
              None None ∅ cycle_durations 50 "Z" 56) as (Hb & Hit & _);
    [done|simpl; lia|].
  split; [exact Hb|exact Hit].
Defined.

(** * Further properties *)

(** ** Lot rounding and ordered quantities *)

Lemma _ceil_to_lot_idem (q l : Z) :
  _ceil_to_lot (_ceil_to_lot q l) l = _ceil_to_lot q l.
Proof.
  unfold _ceil_to_lot. destruct (Z.leb_spec l 1) as [Hle|Hgt]; [done|].
  f_equal. replace ((q + l - 1) / l * l + l - 1) with (l - 1 + (q + l - 1) / l * l) by lia.
  rewrite Z.div_add by lia. rewrite (Z.div_small (l - 1) l) by lia. lia.
Qed.

Lemma _ceil_to_lot_mono (q1 q2 l : Z) :
  q1 <= q2 -> _ceil_to_lot q1 l <= _ceil_to_lot q2 l.
Proof.
  intros Hq. unfold _ceil_to_lot. destruct (Z.leb_spec l 1) as [Hle|Hgt]; [done|].
  apply Z.mul_le_mono_nonneg_r; [lia|]. apply Z.div_le_mono; lia.
Qed.

Lemma _ceil_to_lot_lt (q l : Z) : 1 <= l -> _ceil_to_lot q l < q + l.
Proof.
  intros Hl. unfold _ceil_to_lot. destruct (Z.leb_spec l 1) as [Hle|Hgt]; [lia|].
  pose proof (Z.div_mod (q + l - 1) l ltac:(lia)) as Hdm.
  pose proof (Z.mod_pos_bound (q + l - 1) l ltac:(lia)) as Hb. nia.
Qed.

(** X1: rounding a quantity up to a lot adds less than one lot (nothing
    for a lot size of 1 or less), and a quantity that is already rounded
    is left as it is. *)
Theorem ceil_to_lot_overshoot (q l : Z) :
  q <= _ceil_to_lot q l < q + Z.max 1 l
  /\ _ceil_to_lot (_ceil_to_lot q l) l = _ceil_to_lot q l.
Proof.
  split; [|apply _ceil_to_lot_idem].
  destruct (Z.le_gt_cases l 1) as [Hle|Hgt].
  - rewrite _ceil_to_lot_no_rounding by done. lia.
  - destruct (_ceil_to_lot_spec q l ltac:(lia)) as (_ & Hge & _).
    pose proof (_ceil_to_lot_lt q l ltac:(lia)). lia.
Qed.

(** The MOQ and the lot size of an offer are read from the row alone. *)
Lemma compute_offer_qty (row : gmap string value) (q target : Z)
    (mapping : Mapping) (config : Config) (o : Offer) :
  compute_offer row q target mapping config = Ok o ->
  exists moq lot,
    clamp_at_least_1 row (default EmptyString (m_moq mapping)) = Ok moq
    /\ clamp_at_least_1 row (default EmptyString (m_lot_size mapping)) = Ok lot
    /\ 1 <= moq /\ 1 <= lot
    /\ qty_ordered o = _ceil_to_lot (Z.max q moq) lot.
Proof.
  intros H.
  destruct (compute_offer_fields _ _ _ _ _ _ H) as (f & Hf & _ & Hq & _).
  destruct (_prepare_fields_inv _ _ _ _ Hf) as (_ & _ & Hmoq & Hlot & _).
  exists (f_moq f), (f_lot_size f). split; [done|]. split; [done|].
  split; [by apply clamp_at_least_1_ge in Hmoq|].
  split; [by apply clamp_at_least_1_ge in Hlot|done].
Qed.

(** X2: for one row and mapping, asking for more never orders less: the
    ordered quantity is monotone in the requested quantity, whatever the
    target dates and pricing configurations of the two offers. *)
Theorem qty_ordered_monotone (row : gmap string value) (q1 q2 target1 target2 : Z)
    (mapping : Mapping) (config1 config2 : Config) (o1 o2 : Offer) :
  q1 <= q2 ->
  compute_offer row q1 target1 mapping config1 = Ok o1 ->
  compute_offer row q2 target2 mapping config2 = Ok o2 ->
  qty_ordered o1 <= qty_ordered o2.
Proof.
  intros Hq H1 H2.
  apply compute_offer_qty in H1 as (moq & lot & Hmoq & Hlot & _ & _ & ->).
  apply compute_offer_qty in H2 as (moq' & lot' & Hmoq' & Hlot' & _ & _ & ->).
  assert (moq' = moq) as -> by congruence.
  assert (lot' = lot) as -> by congruence.
  apply _ceil_to_lot_mono. lia.
Qed.

Lemma qty_ordered_monotone_witness :
  30 <= 120
  /\ compute_offer example_offer_row 30 1000 example_mapping example_config
     = Ok (example_offer 30)
  /\ exists o2,
       compute_offer example_offer_row 120 1000 example_mapping example_config = Ok o2
       /\ qty_ordered o2 = 150
       /\ qty_ordered (example_offer 30) <= qty_ordered o2.
Proof.
  split; [lia|].
  assert (H1 : compute_offer example_offer_row 30 1000 example_mapping example_config
               = Ok (example_offer 30)) by (vm_compute; reflexivity).
  split; [exact H1|].
  eexists. split; [vm_compute; reflexivity|]. split; [reflexivity|].
  apply (qty_ordered_monotone example_offer_row 30 120 1000 1000 example_mapping
           example_config example_config); [lia|exact H1|vm_compute; reflexivity].
Defined.

(** X3: the ordered quantity is a fixed point: asking again for the
    quantity that an offer orders gives an offer that orders the same
    quantity. *)
Theorem qty_ordered_fixed_point (row : gmap string value) (q target target' : Z)
    (mapping : Mapping) (config config' : Config) (o o' : Offer) :
  compute_offer row q target mapping config = Ok o ->
  compute_offer row (qty_ordered o) target' mapping config' = Ok o' ->
  requested_qty o' = qty_ordered o /\ qty_ordered o' = qty_ordered o.
Proof.
  intros H H'.
  destruct (compute_offer_fields _ _ _ _ _ _ H') as (_ & _ & Hreq & _).
  split; [done|].
  apply compute_offer_qty in H as (moq & lot & Hmoq & Hlot & Hm & Hl & Hq).
  apply compute_offer_qty in H' as (moq' & lot' & Hmoq' & Hlot' & _ & _ & ->).
  assert (moq' = moq) as -> by congruence.
  assert (lot' = lot) as -> by congruence.
  destruct (_ceil_to_lot_spec (Z.max q moq) lot Hl) as (_ & Hge & _).
  rewrite Z.max_l by lia. rewrite Hq. apply _ceil_to_lot_idem.
Qed.

Lemma qty_ordered_fixed_point_witness :
  compute_offer example_offer_row 30 1000 example_mapping example_config
  = Ok (example_offer 30)
  /\ compute_offer example_offer_row (qty_ordered (example_offer 30)) 1000
       example_mapping example_config = Ok (example_offer 100)
  /\ requested_qty (example_offer 100) = qty_ordered (example_offer 30)
  /\ qty_ordered (example_offer 100) = qty_ordered (example_offer 30).
Proof.
  assert (H : compute_offer example_offer_row 30 1000 example_mapping example_config
              = Ok (example_offer 30)) by (vm_compute; reflexivity).
  assert (H' : compute_offer example_offer_row (qty_ordered (example_offer 30)) 1000
                 example_mapping example_config = Ok (example_offer 100))
    by (vm_compute; reflexivity).
  split; [exact H|]. split; [exact H'|].
  exact (qty_ordered_fixed_point _ _ _ _ _ _ _ _ _ H H').
Defined.

(** X4: the target date enters an offer through the order-by dates only:
    for the same row, quantity, mapping and configuration, moving the
    target date by k days moves both order-by dates by k days and changes
    nothing else. *)
Theorem offer_target_shift (row : gmap string value) (q target1 target2 : Z)
    (mapping : Mapping) (config : Config) (o1 o2 : Offer) :
  compute_offer row q target1 mapping config = Ok o1 ->
  compute_offer row q target2 mapping config = Ok o2 ->
  o2 = {| requested_qty := requested_qty o1;
          qty_ordered := qty_ordered o1;
          air := shift_order_by (target2 - target1) (air o1);
          sea := shift_order_by (target2 - target1) (sea o1) |}.
Proof.
  intros H1 H2. unfold compute_offer in H1, H2.
  py_inv H1 as f Hf. rewrite Hf in H2. cbn [py_bind] in H2.
  py_inv H1 as aa Haa. rewrite Haa in H2. cbn [py_bind] in H2.
  py_inv H1 as ac Hac. rewrite Hac in H2. cbn [py_bind] in H2.
  py_inv H1 as sa Hsa. rewrite Hsa in H2. cbn [py_bind] in H2.
  py_inv H1 as sc Hsc. rewrite Hsc in H2. cbn [py_bind] in H2.
  py_inv H1 as pt Hpt. rewrite Hpt in H2. cbn [py_bind] in H2.
  py_inv H1 as at' Hat. rewrite Hat in H2. cbn [py_bind] in H2.
  py_inv H1 as st Hst. rewrite Hst in H2. cbn [py_bind] in H2.
  injection H1 as <-. injection H2 as <-. unfold shift_order_by. simpl.
  f_equal; f_equal; lia.
Qed.

Lemma offer_target_shift_witness :
  compute_offer example_offer_row 30 1000 example_mapping example_config
  = Ok (example_offer 30)
  /\ exists o2,
       compute_offer example_offer_row 30 1030 example_mapping example_config = Ok o2
       /\ order_by (air o2) = 1009 /\ order_by (sea o2) = 988
       /\ total_cost (air o2) = total_cost (air (example_offer 30)).
Proof.
  assert (H1 : compute_offer example_offer_row 30 1000 example_mapping example_config
               = Ok (example_offer 30)) by (vm_compute; reflexivity).
  split; [exact H1|].
  assert (H2 : exists o2,
            compute_offer example_offer_row 30 1030 example_mapping example_config = Ok o2)
    by (eexists; vm_compute; reflexivity).
  destruct H2 as [o2 H2]. exists o2. split; [exact H2|].
  rewrite (offer_target_shift _ _ _ _ _ _ _ _ H1 H2). simpl. repeat split.
Defined.

(** ** Cells without a usable number *)

Lemma float_add_nan_l (x : float) : (nan + x)%float = nan.
Proof.
  apply Prim2SF_inj. rewrite add_spec. change (Prim2SF nan) with S754_nan. reflexivity.
Qed.

Lemma float_mul_nan_l (x : float) : (nan * x)%float = nan.
Proof.
  apply Prim2SF_inj. rewrite mul_spec. change (Prim2SF nan) with S754_nan. reflexivity.
Qed.

Lemma float_mul_nan_r (x : float) : (x * nan)%float = nan.
Proof.
  apply Prim2SF_inj. rewrite mul_spec. change (Prim2SF nan) with S754_nan.
  by destruct (Prim2SF x).
Qed.

(** A quantity is served by one breakpoint only. *)
Lemma tier_choice_unique (tiers : gmap Z string) (q b b' : Z) :
  tier_choice tiers q b -> tier_choice tiers q b' -> b = b'.
Proof.
  intros [Hb [[Hle Hmax]|[Hall Hmin]]] [Hb' [[Hle' Hmax']|[Hall' Hmin']]].
  - specialize (Hmax b' Hb' Hle'). specialize (Hmax' b Hb Hle). lia.
  - specialize (Hall' b Hb). lia.
  - specialize (Hall b' Hb'). lia.
  - specialize (Hmin b' Hb'). specialize (Hmin' b Hb). lia.
Qed.

(** The unit costs of [_prepare_fields] are the tier values at the
    requested quantity. *)
Lemma _prepare_fields_costs (row : gmap string value) (mapping : Mapping) (q : Z)
    (f : Fields) :
  _prepare_fields row mapping q = Ok f ->
  pick_tier_value row (default ∅ (m_tiers_production mapping)) q to_float_arg
  = Ok (NFloat (f_production_unit_cost f))
  /\ pick_tier_value row (default ∅ (m_tiers_air_transport mapping)) q to_float_arg
     = Ok (NFloat (f_air_transport_unit_cost f))
  /\ pick_tier_value row (default ∅ (m_tiers_sea_transport mapping)) q to_float_arg
     = Ok (NFloat (f_sea_transport_unit_cost f)).
Proof.
  intros H. unfold _prepare_fields in H.
  destruct (pick_tier_value_float row (default ∅ (m_tiers_production mapping)) q) as [x1 E1].
  destruct (pick_tier_value_float row (default ∅ (m_tiers_air_transport mapping)) q)
    as [x2 E2].
  destruct (pick_tier_value_float row (default ∅ (m_tiers_sea_transport mapping)) q)
    as [x3 E3].
  rewrite E1, E2, E3 in *. cbn [py_bind py_float_of_num] in H.
  do 5 py_inv H. injection H as <-. done.
Qed.

(** X5: a price cell that holds NaN (an empty spreadsheet cell, as pandas
    reads it) is not replaced by the default: when the column that serves
    the requested quantity in the production tier table holds NaN, the unit
    prices and the total costs of the offer are NaN, for air and for sea. *)
Theorem offer_nan_price (row : gmap string value) (q target : Z) (mapping : Mapping)
    (config : Config) (tiers : gmap Z string) (b : Z) (col : string) (o : Offer) :
  m_tiers_production mapping = Some tiers ->
  tier_choice tiers q b ->
  tiers !! b = Some col ->
  row !! col = Some (VFloat nan) ->
  compute_offer row q target mapping config = Ok o ->
  production_unit_cost (air o) = nan
  /\ unit_price (air o) = nan /\ unit_price (sea o) = nan
  /\ total_cost (air o) = nan /\ total_cost (sea o) = nan.
Proof.
  intros Hm Hb Hcol Hcell H.
  destruct (compute_offer_fields _ _ _ _ _ _ H)
    as (f & Hf & _ & _ & Hua & Hus & Hpa & _ & _ & _ & _ & _ & _ & _ & Hca & Hcs).
  destruct (_prepare_fields_inv _ _ _ _ Hf) as (Hfa & Hfs & _).
  destruct (_prepare_fields_costs _ _ _ _ Hf) as (Hp & _).
  rewrite Hm in Hp. simpl in Hp.
  assert (Hne : tiers <> ∅).
  { intros ->. by rewrite lookup_empty in Hcol. }
  destruct (pick_tier_value_choice row tiers q to_float_arg Hne) as (b' & col' & Hb' & Hcol' & E).
  assert (b' = b) as -> by (by apply (tier_choice_unique tiers q)).
  assert (col' = col) as -> by congruence.
  rewrite E in Hp. unfold row_get in Hp. rewrite Hcell in Hp.
  injection Hp as Hp.
  assert (Hprod : f_production_unit_cost f = nan) by done.
  rewrite Hprod in Hfa, Hfs. rewrite float_add_nan_l in Hfa, Hfs.
  rewrite Hua, Hus, Hpa, Hfa, Hfs in *.
  py_inv Hca as aa Haa. py_inv Hcs as sa Hsa.
  apply int_times_float_Ok in Haa as (qa & _ & ->).
  apply int_times_float_Ok in Hsa as (qs & _ & ->).
  apply _apply_pricing_overheads_Ok in Hca as (flat & pct & _ & _ & Ea).
  apply _apply_pricing_overheads_Ok in Hcs as (flat' & pct' & _ & _ & Es).
  rewrite float_mul_nan_r, float_add_nan_l, float_mul_nan_l in Ea, Es.
  done.
Qed.

Lemma offer_nan_price_witness :
  exists o,
    compute_offer (<["CU pour 200" := VFloat nan]> example_offer_row) 30 1000
      example_mapping example_config = Ok o
    /\ unit_price (air o) = nan /\ total_cost (air o) = nan /\ total_cost (sea o) = nan.
Proof.
  assert (H : exists o,
            compute_offer (<["CU pour 200" := VFloat nan]> example_offer_row) 30 1000
              example_mapping example_config = Ok o)
    by (eexists; vm_compute; reflexivity).
  destruct H as [o H]. exists o. split; [exact H|].
  destruct (offer_nan_price (<["CU pour 200" := VFloat nan]> example_offer_row) 30 1000
              example_mapping example_config example_tiers 200 "CU pour 200" o)
    as (_ & Hu & _ & Ha & Hs); try done.
  split; [by eexists|]. right. split.
  - intros b' [c Hb']. unfold example_tiers in Hb'.
    repeat (apply lookup_insert_Some in Hb' as [[<- _]|[_ Hb']]; [lia|]).
    by rewrite lookup_empty in Hb'.
  - intros b' [c Hb']. unfold example_tiers in Hb'.
    repeat (apply lookup_insert_Some in Hb' as [[<- _]|[_ Hb']]; [lia|]).
    by rewrite lookup_empty in Hb'.
Defined.

Lemma pick_tier_value_absent (row : gmap string value) (tiers : gmap Z string) (q : Z) :
  (forall b col, tiers !! b = Some col -> row !! col = None) ->
  pick_tier_value row tiers q to_float_arg = Ok (NFloat 0)
  /\ (tiers <> ∅ -> pick_tier_value row tiers q to_int_arg = Ok (NInt 0)).
Proof.
  intros Habs. split.
  - destruct (decide (tiers = ∅)) as [->|Hne]; [done|].
    destruct (pick_tier_value_choice row tiers q to_float_arg Hne) as (b & col & _ & Hb & ->).
    unfold row_get. rewrite (Habs b col Hb). vm_compute. reflexivity.
  - intros Hne.
    destruct (pick_tier_value_choice row tiers q to_int_arg Hne) as (b & col & _ & Hb & ->).
    unfold row_get. rewrite (Habs b col Hb). vm_compute. reflexivity.
Qed.

(** X6: [_prepare_fields] raises for no row, mapping and quantity: a
    missing column, an empty tier table or a cell without a number gives
    the defaults.  For a row that has none of the labels that the mapping
    makes it look up, it gives no cost, MOQ 1, lot size 1 and no lead
    time. *)
Theorem prepare_fields_never_raises (row : gmap string value) (mapping : Mapping) (q : Z) :
  (exists f, _prepare_fields row mapping q = Ok f)
  /\ ((forall c, c ∈ mapping_labels mapping -> row !! c = None) ->
      _prepare_fields row mapping q = Ok default_fields).
Proof.
  split; [apply _prepare_fields_total|].
  intros Habs.
  assert (Htier : forall tiers : gmap Z string,
            (forall c, c ∈ (map_to_list tiers).*2 -> c ∈ mapping_labels mapping) ->
            forall b col, tiers !! b = Some col -> row !! col = None).
  { intros tiers Hsub b col Hb. apply Habs, Hsub.
    apply list_elem_of_fmap. exists (b, col). split; [done|]. by apply elem_of_map_to_list. }
  assert (H1 := Htier (default ∅ (m_tiers_production mapping))
                  ltac:(intros c Hc; unfold mapping_labels; set_solver)).
  assert (H2 := Htier (default ∅ (m_tiers_air_transport mapping))
                  ltac:(intros c Hc; unfold mapping_labels; set_solver)).
  assert (H3 := Htier (default ∅ (m_tiers_sea_transport mapping))
                  ltac:(intros c Hc; unfold mapping_labels; set_solver)).
  assert (H4 := Htier (default ∅ (m_tiers_production_time mapping))
                  ltac:(intros c Hc; unfold mapping_labels; set_solver)).
  assert (Hmoq : row !! default EmptyString (m_moq mapping) = None)
    by (apply Habs; unfold mapping_labels; set_solver).
  assert (Hlot : row !! default EmptyString (m_lot_size mapping) = None)
    by (apply Habs; unfold mapping_labels; set_solver).
  assert (Hair : transport_time_weeks row
                   (default EmptyString (m_air_transport_time_column mapping)) = Ok 0).
  { apply transport_time_weeks_absent.
    destruct (m_air_transport_time_column mapping) as [c|] eqn:E; [right|by left].
    apply Habs. unfold mapping_labels. rewrite E. set_solver. }
  assert (Hsea : transport_time_weeks row
                   (default EmptyString (m_sea_transport_time_column mapping)) = Ok 0).
  { apply transport_time_weeks_absent.
    destruct (m_sea_transport_time_column mapping) as [c|] eqn:E; [right|by left].
    apply Habs. unfold mapping_labels. rewrite E. set_solver. }
  unfold _prepare_fields.
  rewrite (proj1 (pick_tier_value_absent row _ q H1)),
    (proj1 (pick_tier_value_absent row _ q H2)),
    (proj1 (pick_tier_value_absent row _ q H3)).
  cbn [py_bind py_float_of_num].
  unfold clamp_at_least_1, row_get. rewrite Hmoq, Hlot, _to_int_one. cbn [py_bind].
  rewrite Hair, Hsea.
  destruct (decide (default ∅ (m_tiers_production_time mapping) = ∅)) as [He|Hne].
  - cbn [py_bind]. reflexivity.
  - rewrite (proj2 (pick_tier_value_absent row _ q H4) Hne). cbn [py_bind expect_int].
    reflexivity.
Qed.

Lemma prepare_fields_never_raises_witness :
  (forall c, c ∈ mapping_labels example_mapping ->
     (<["Remarque" := VStr "12 pcs"]> ∅ : gmap string value) !! c = None)
  /\ _prepare_fields (<["Remarque" := VStr "12 pcs"]> ∅) example_mapping 30
     = Ok default_fields.
Proof.
  assert (H : forall c, c ∈ mapping_labels example_mapping ->
                (<["Remarque" := VStr "12 pcs"]> ∅ : gmap string value) !! c = None).
  { intros c Hc. apply lookup_insert_None. split; [apply lookup_empty|].
    intros <-. vm_compute in Hc.
    repeat (apply elem_of_cons in Hc as [Hc|Hc]; [discriminate|]).
    by apply elem_of_nil in Hc. }
  split; [exact H|].
  exact (proj2 (prepare_fields_never_raises _ example_mapping 30) H).
Defined.

(** ** The first numeric token of a text *)

Lemma span_digits_spec (s d r : string) :
  span_digits s = (d, r) ->
  s = d +:+ r /\ string_forall is_digit d = true /\ no_digit_start r = true.
Proof.
  revert d r. induction s as [|c t IH]; intros d r H; simpl in H.
  - by injection H as <- <-.
  - destruct (is_digit c) eqn:Hc.
    + destruct (span_digits t) as [d' r'] eqn:E. injection H as <- <-.
      destruct (IH d' r' eq_refl) as (-> & Hd & Hr). simpl. by rewrite Hc.
    + injection H as <- <-. simpl. by rewrite Hc.
Qed.

Lemma string_app_assoc (a b c : string) : (a +:+ b) +:+ c = a +:+ (b +:+ c).
Proof.
  induction a as [|x a IH]; [done|].
  change (String x ((a +:+ b) +:+ c) = String x (a +:+ b +:+ c)). by rewrite IH.
Qed.

Lemma string_app_nil_r (a : string) : a +:+ EmptyString = a.
Proof.
  induction a as [|x a IH]; [done|].
  change (String x (a +:+ EmptyString) = String x a). by rewrite IH.
Qed.

(** A match of the pattern at the start of a text: a token of the right
    shape, as long as possible. *)
Lemma match_number_Some (s tok : string) :
  match_number s = Some tok ->
  exists post, s = tok +:+ post /\ number_token tok /\ no_digit_start post = true
               /\ (first_is_sign s = true -> first_is_sign tok = true).
Proof.
  unfold match_number. intros H.
  set (p := match s with
            | String c t => if is_sign c then (String c EmptyString, t) else (EmptyString, s)
            | EmptyString => (EmptyString, s)
            end) in H.
  assert (Hp : s = p.1 +:+ p.2
               /\ (p.1 = EmptyString \/ p.1 = "+"%string \/ p.1 = "-"%string)
               /\ (first_is_sign s = true -> first_is_sign p.1 = true)).
  { unfold p. destruct s as [|c t]; [by auto|]. simpl. destruct (is_sign c) eqn:Hc.
    - simpl. split; [done|]. split; [|by rewrite Hc]. unfold is_sign in Hc.
      apply orb_prop in Hc as [Hc|Hc]; apply Ascii.eqb_eq in Hc as ->; auto.
    - simpl. split; [done|]. split; [by left|done]. }
  destruct p as [sg s1]. simpl in Hp. destruct Hp as (-> & Hsg & Hfirst).
  destruct (span_digits s1) as [ds s2] eqn:E1.
  apply span_digits_spec in E1 as (-> & Hds & Hs2).
  assert (Hsign : forall frac, first_is_sign (sg +:+ ds +:+ s2) = true ->
                               first_is_sign ((sg +:+ ds) +:+ frac) = true).
  { intros frac Hf. specialize (Hfirst Hf).
    destruct sg as [|c sg']; [discriminate|]. done. }
  destruct ds as [|d0 ds']; [discriminate|].
  assert (Hbase : exists post, sg +:+ String d0 ds' +:+ s2 = (sg +:+ String d0 ds') +:+ post
            /\ number_token (sg +:+ String d0 ds') /\ no_digit_start post = true
            /\ (first_is_sign (sg +:+ String d0 ds' +:+ s2) = true ->
                first_is_sign (sg +:+ String d0 ds') = true)).
  { exists s2. split; [by rewrite string_app_assoc|]. split; [|split; [done|]].
    - exists sg, (String d0 ds'), EmptyString. rewrite string_app_nil_r.
      split; [done|]. split; [done|]. split; [done|]. split; [done|]. by left.
    - intros Hf. rewrite <- (string_app_nil_r (sg +:+ String d0 ds')). by apply Hsign. }
  destruct s2 as [|c t].
  { injection H as <-. exact Hbase. }
  destruct (is_sep c) eqn:Hc; [|injection H as <-; exact Hbase].
  destruct (span_digits t) as [fs s3] eqn:E2.
  apply span_digits_spec in E2 as (-> & Hfs & Hs3).
  destruct fs as [|f0 fs']; [injection H as <-; exact Hbase|].
  injection H as <-. exists s3. split; [|split; [|split; [done|]]].
  - rewrite !string_app_assoc. reflexivity.
  - exists sg, (String d0 ds'), (String c (String f0 fs')).
    split; [done|]. split; [done|]. split; [done|]. split; [done|].
    right. by exists c, (String f0 fs').
  - intros Hf. rewrite <- string_app_assoc. by apply Hsign.
Qed.

(** No match at the start: the text does not start with a digit, nor with
    a sign followed by a digit. *)
Lemma match_number_None (s : string) :
  match_number s = None ->
  no_digit_start s = true
  /\ forall c t, s = String c t -> is_sign c = true -> no_digit_start t = true.
Proof.
  unfold match_number. intros H. destruct s as [|c t]; [done|].
  destruct (is_sign c) eqn:Hs.
  - destruct (span_digits t) as [ds s2] eqn:E.
    apply span_digits_spec in E as (-> & _ & Hs2).
    destruct ds as [|d0 ds'].
    + split.
      * simpl. destruct (is_digit c) eqn:Hd; [|done].
        by rewrite (digit_not_sign c Hd) in Hs.
      * by intros c' t' [= <- <-] _.
    + exfalso. destruct s2 as [|c2 t2]; [discriminate|].
      destruct (is_sep c2); [|discriminate].
      destruct (span_digits t2) as [[|f0 fs'] s3]; discriminate.
  - split; [|intros c' t' [= <- <-]; congruence].
    simpl in H. simpl. destruct (is_digit c); [|done]. exfalso.
    destruct (span_digits t) as [ds s2].
    destruct s2 as [|c2 t2]; [discriminate|].
    destruct (is_sep c2); [|discriminate].
    destruct (span_digits t2) as [[|f0 fs'] s3]; discriminate.
Qed.

Lemma re_search_Some (s tok : string) :
  re_search s = Some tok ->
  exists pre post,
    s = pre +:+ tok +:+ post
    /\ no_digit pre = true
    /\ number_token tok
    /\ no_digit_start post = true
    /\ (last_is_sign pre = true -> first_is_sign tok = true).
Proof.
  revert tok. induction s as [|c t IH]; intros tok H.
  - simpl in H. discriminate.
  - cbn [re_search] in H. destruct (match_number (String c t)) as [tok'|] eqn:Hm.
    + injection H as ->. apply match_number_Some in Hm as (post & E & Htok & Hpost & _).
      exists EmptyString, post. done.
    + apply match_number_None in Hm as [Hc Hsign].
      destruct (IH tok H) as (pre & post & -> & Hpre & Htok & Hpost & Hlast).
      exists (String c pre), post. split; [done|]. split; [|split; [done|split; [done|]]].
      * unfold no_digit in *. simpl in *. by rewrite Hc, Hpre.
      * destruct pre as [|p pre']; [|exact Hlast].
        simpl. intros Hs. specialize (Hsign c _ eq_refl Hs).
        destruct Htok as (sg & ds & frac & -> & Hsg & Hne & Hds & _).
        destruct Hsg as [->|[->| ->]]; [|done..].
        destruct ds as [|d0 ds']; [done|]. simpl in Hsign, Hds.
        apply andb_prop in Hds as [Hd _]. by rewrite Hd in Hsign.
Qed.

Lemma re_search_None (s : string) : re_search s = None <-> no_digit s = true.
Proof.
  split; [|apply re_search_no_digit].
  induction s as [|c t IH]; [done|]. cbn [re_search].
  destruct (match_number (String c t)) as [tok|] eqn:Hm; [discriminate|].
  intros H. apply match_number_None in Hm as [Hc _].
  unfold no_digit in *. simpl in *. by rewrite Hc, (IH H).
Qed.

(** X7: the token that [_extract_number_token] takes from a text.  There
    is none exactly when the text has no digit.  Otherwise the token is a
    piece of the text: nothing before it is a digit, it is an optional
    sign, digits and optionally a point or comma with digits, it is not
    followed by a digit, and a sign just before the first digit belongs to
    it. *)
Theorem extract_number_token_text (s : string) :
  (_extract_number_token (VStr s) = None <-> no_digit s = true)
  /\ forall t, _extract_number_token (VStr s) = Some t ->
       exists tok pre post,
         t = Text tok
         /\ s = pre +:+ tok +:+ post
         /\ no_digit pre = true
         /\ number_token tok
         /\ no_digit_start post = true
         /\ (last_is_sign pre = true -> first_is_sign tok = true).
Proof.
  simpl. split.
  - rewrite <- re_search_None. destruct (re_search s); simpl; split; done.
  - intros t H. destruct (re_search s) as [tok|] eqn:E; [|discriminate].
    injection H as <-. apply re_search_Some in E as (pre & post & H).
    by exists tok, pre, post.
Qed.


(** ** The number that [_to_float] reads from a text *)

Lemma span_digits_none (s : string) :
  no_digit_start s = true -> span_digits s = (EmptyString, s).
Proof.
  destruct s as [|c t]; [done|]. simpl. by destruct (is_digit c).
Qed.

(** A match at the start of a text, with its parts. *)
Lemma match_number_shape (s tok : string) :
  match_number s = Some tok ->
  exists sg ds sep fs post,
    s = tok +:+ post /\ tok = sg +:+ ds +:+ sep +:+ fs
    /\ (sg = EmptyString \/ sg = "+"%string \/ sg = "-"%string)
    /\ (first_is_sign s = true -> sg <> EmptyString)
    /\ ds <> EmptyString /\ string_forall is_digit ds = true
    /\ ((sep = EmptyString /\ fs = EmptyString /\ ends_token post = true)
        \/ ((sep = "."%string \/ sep = ","%string)
            /\ fs <> EmptyString /\ string_forall is_digit fs = true
            /\ no_digit_start post = true)).
Proof.
  unfold match_number. intros H.
  set (p := match s with
            | String c t => if is_sign c then (String c EmptyString, t) else (EmptyString, s)
            | EmptyString => (EmptyString, s)
            end) in H.
  assert (Hp : s = p.1 +:+ p.2
               /\ (p.1 = EmptyString \/ p.1 = "+"%string \/ p.1 = "-"%string)
               /\ (first_is_sign s = true -> p.1 <> EmptyString)).
  { unfold p. destruct s as [|c t]; [by auto|]. simpl. destruct (is_sign c) eqn:Hc.
    - simpl. split; [done|]. split; [|done]. unfold is_sign in Hc.
      apply orb_prop in Hc as [Hc|Hc]; apply Ascii.eqb_eq in Hc as ->; auto.
    - simpl. split; [done|]. split; [by left|done]. }
  destruct p as [sg s1]. simpl in Hp. destruct Hp as (-> & Hsg & Hfirst).
  destruct (span_digits s1) as [ds s2] eqn:E1.
  apply span_digits_spec in E1 as (-> & Hds & Hs2).
  destruct ds as [|d0 ds']; [discriminate|].
  assert (Hbase : ends_token s2 = true ->
            exists sg' ds sep fs post,
              sg +:+ String d0 ds' +:+ s2 = (sg +:+ String d0 ds') +:+ post
              /\ sg +:+ String d0 ds' = sg' +:+ ds +:+ sep +:+ fs
              /\ (sg' = EmptyString \/ sg' = "+"%string \/ sg' = "-"%string)
              /\ (first_is_sign (sg +:+ String d0 ds' +:+ s2) = true -> sg' <> EmptyString)
              /\ ds <> EmptyString /\ string_forall is_digit ds = true
              /\ ((sep = EmptyString /\ fs = EmptyString /\ ends_token post = true)
                  \/ ((sep = "."%string \/ sep = ","%string)
                      /\ fs <> EmptyString /\ string_forall is_digit fs = true
                      /\ no_digit_start post = true))).
  { intros Hend. exists sg, (String d0 ds'), EmptyString, EmptyString, s2.
    split; [by rewrite string_app_assoc|].
    split; [by rewrite !string_app_nil_r|].
    split; [done|]. split; [done|]. split; [done|]. split; [done|]. by left. }
  destruct s2 as [|c t].
  { injection H as <-. by apply Hbase. }
  simpl in Hs2.
  destruct (is_sep c) eqn:Hc.
  2:{ injection H as <-. apply Hbase. simpl. by rewrite Hs2, Hc. }
  destruct (span_digits t) as [fs s3] eqn:E2.
  apply span_digits_spec in E2 as (-> & Hfs & Hs3).
  destruct fs as [|f0 fs'].
  { injection H as <-. apply Hbase. simpl. rewrite Hs2, Hc.
    change (EmptyString +:+ s3) with s3. by rewrite Hs3. }
  injection H as <-.
  exists sg, (String d0 ds'), (String c EmptyString), (String f0 fs'), s3.
  split; [by rewrite !string_app_assoc|]. split; [done|].
  split; [done|]. split; [done|]. split; [done|]. split; [done|]. right.
  split; [|done]. unfold is_sep in Hc.
  apply orb_prop in Hc as [Hc|Hc]; apply Ascii.eqb_eq in Hc as ->; auto.
Qed.

(** The first match in a text, with its parts. *)
Lemma re_search_shape (s tok : string) :
  re_search s = Some tok ->
  exists pre sg ds sep fs post,
    tok = sg +:+ ds +:+ sep +:+ fs /\ first_token s pre sg ds sep fs post.
Proof.
  revert tok. induction s as [|c t IH]; intros tok H.
  - simpl in H. discriminate.
  - cbn [re_search] in H. destruct (match_number (String c t)) as [tok'|] eqn:Hm.
    + injection H as ->.
      apply match_number_shape in Hm
        as (sg & ds & sep & fs & post & E & -> & Hsg & _ & Hne & Hds & Hrest).
      exists EmptyString, sg, ds, sep, fs, post. split; [done|].
      split; [exact E|]. split; [done|]. split; [done|]. split; [done|]. done.
    + apply match_number_None in Hm as [Hc Hsign].
      destruct (IH tok H)
        as (pre & sg & ds & sep & fs & post & -> & -> & Hpre & Hsg & Hlast & Hne & Hds & Hrest).
      exists (String c pre), sg, ds, sep, fs, post. split; [done|].
      split; [done|]. split.
      { unfold no_digit in *. simpl in *. by rewrite Hc, Hpre. }
      split; [done|]. split; [|done].
      destruct pre as [|p pre']; [|exact Hlast].
      simpl. intros Hs -> . specialize (Hsign c _ eq_refl Hs).
      destruct ds as [|d0 ds']; [done|]. simpl in Hsign, Hds.
      apply andb_prop in Hds as [Hd _]. by rewrite Hd in Hsign.
Qed.

(** Conversely, the parts determine the match. *)
Lemma match_number_token (sg ds sep fs post : string) :
  (sg = EmptyString \/ sg = "+"%string \/ sg = "-"%string) ->
  ds <> EmptyString -> string_forall is_digit ds = true ->
  ((sep = EmptyString /\ fs = EmptyString /\ ends_token post = true)
   \/ ((sep = "."%string \/ sep = ","%string)
       /\ fs <> EmptyString /\ string_forall is_digit fs = true
       /\ no_digit_start post = true)) ->
  match_number ((sg +:+ ds +:+ sep +:+ fs) +:+ post) = Some (sg +:+ ds +:+ sep +:+ fs).
Proof.
  intros Hsg Hne Hds Hrest.
  assert (Hbody : forall sg',
    (let '(d, s2) := span_digits (ds +:+ sep +:+ fs +:+ post) in
     match d with
     | EmptyString => None
     | _ =>
         match s2 with
         | String c t =>
             if is_sep c then
               let '(f, _) := span_digits t in
               match f with
               | EmptyString => Some (sg' +:+ d)
               | _ => Some (sg' +:+ d +:+ String c f)
               end
             else Some (sg' +:+ d)
         | EmptyString => Some (sg' +:+ d)
         end
     end) = Some (sg' +:+ ds +:+ sep +:+ fs)).
  { intros sg'. destruct Hrest as [(-> & -> & Hend)|(Hsep & Hfne & Hfs & Hpost)].
    - change (EmptyString +:+ EmptyString +:+ post) with post.
      change (EmptyString +:+ EmptyString) with EmptyString. rewrite string_app_nil_r.
      assert (Hp : no_digit_start post = true).
      { destruct post as [|c t]; [done|]. simpl in *. by apply andb_prop in Hend as [-> _]. }
      rewrite (span_digits_before ds post Hds Hp).
      destruct ds as [|d0 ds']; [done|].
      destruct post as [|c t]; [done|]. simpl in Hend.
      destruct (is_sep c) eqn:Hc; [|done].
      apply andb_prop in Hend as [_ Hend]. simpl in Hend.
      apply negb_true_iff, negb_false_iff in Hend.
      by rewrite (span_digits_none t Hend).
    - assert (Hs : exists c, sep = String c EmptyString /\ is_sep c = true).
      { destruct Hsep as [-> | ->]; eexists; split; reflexivity. }
      destruct Hs as (c & -> & Hc).
      change (String c EmptyString +:+ fs +:+ post) with (String c (fs +:+ post)).
      change (String c EmptyString +:+ fs) with (String c fs).
      rewrite (span_digits_before ds (String c (fs +:+ post)) Hds)
        by (simpl; by rewrite (sep_not_digit c Hc)).
      destruct ds as [|d0 ds']; [done|]. rewrite Hc.
      rewrite (span_digits_before fs post Hfs Hpost).
      by destruct fs. }
  rewrite !string_app_assoc.
  destruct ds as [|d0 ds']; [done|].
  assert (Hd0 : is_sign d0 = false).
  { apply digit_not_sign. simpl in Hds. by apply andb_prop in Hds as [-> _]. }
  unfold match_number.
  destruct Hsg as [->|[->| ->]].
  - specialize (Hbody EmptyString).
    change (EmptyString +:+ String d0 ds' +:+ sep +:+ fs +:+ post)
      with (String d0 (ds' +:+ sep +:+ fs +:+ post)).
    cbv beta iota. rewrite Hd0. exact Hbody.
  - specialize (Hbody "+"%string).
    change ("+" +:+ String d0 ds' +:+ sep +:+ fs +:+ post)%string
      with (String "+" (String d0 ds' +:+ sep +:+ fs +:+ post)).
    cbv beta iota. change (is_sign "+"%char) with true. exact Hbody.
  - specialize (Hbody "-"%string).
    change ("-" +:+ String d0 ds' +:+ sep +:+ fs +:+ post)%string
      with (String "-" (String d0 ds' +:+ sep +:+ fs +:+ post)).
    cbv beta iota. change (is_sign "-"%char) with true. exact Hbody.
Qed.

Lemma match_number_skip (c : ascii) (t : string) :
  is_digit c = false -> (is_sign c = true -> no_digit_start t = true) ->
  match_number (String c t) = None.
Proof.
  intros Hc Hs. unfold match_number. destruct (is_sign c).
  - by rewrite (span_digits_none t (Hs eq_refl)).
  - simpl. by rewrite Hc.
Qed.

Lemma re_search_match (s tok : string) :
  match_number s = Some tok -> re_search s = Some tok.
Proof.
  intros H. destruct s as [|c t]; [discriminate|]. cbn [re_search]. by rewrite H.
Qed.

(** The first token of a text is what the search finds. *)
Lemma re_search_token (s pre sg ds sep fs post : string) :
  first_token s pre sg ds sep fs post -> re_search s = Some (sg +:+ ds +:+ sep +:+ fs).
Proof.
  intros (-> & Hpre & Hsg & Hlast & Hne & Hds & Hrest).
  induction pre as [|c pre IH].
  - apply re_search_match. by apply match_number_token.
  - unfold no_digit in Hpre. simpl in Hpre. apply andb_prop in Hpre as [Hc Hpre].
    apply negb_true_iff in Hc.
    change (String c pre +:+ (sg +:+ ds +:+ sep +:+ fs) +:+ post)
      with (String c (pre +:+ (sg +:+ ds +:+ sep +:+ fs) +:+ post)).
    cbn [re_search]. rewrite match_number_skip; [| done |].
    + apply IH; [done|]. destruct pre as [|p pre']; [done|exact Hlast].
    + intros Hs. destruct pre as [|p pre'].
      * simpl in Hlast. specialize (Hlast Hs).
        destruct Hsg as [->|[->| ->]]; done.
      * simpl in Hpre. apply andb_prop in Hpre as [Hp _]. simpl. exact Hp.
Qed.

(** The number that [float] reads from a token. *)
Lemma float_of_string_token_value (sg ds sep fs : string) :
  (sg = EmptyString \/ sg = "+"%string \/ sg = "-"%string) ->
  ds <> EmptyString -> string_forall is_digit ds = true ->
  ((sep = EmptyString /\ fs = EmptyString)
   \/ ((sep = "."%string \/ sep = ","%string)
       /\ fs <> EmptyString /\ string_forall is_digit fs = true)) ->
  float_of_string (replace_comma (sg +:+ ds +:+ sep +:+ fs))
  = Ok (float_of_decimal (String.eqb sg "-") (digits_to_Z (ds +:+ fs)) (String.length fs)).
Proof.
  intros Hsg Hne Hds Hrest.
  assert (Hbody : forall neg,
    (let '(d, s2) := span_digits (replace_comma (ds +:+ sep +:+ fs)) in
     match d with
     | EmptyString => Raise ValueError
     | _ =>
         match s2 with
         | EmptyString => Ok (float_of_decimal neg (digits_to_Z d) 0)
         | String c t =>
             if Ascii.eqb c "." then
               let '(f, s3) := span_digits t in
               match f, s3 with
               | String _ _, EmptyString =>
                   Ok (float_of_decimal neg (digits_to_Z (d +:+ f)) (String.length f))
               | _, _ => Raise ValueError
               end
             else Raise ValueError
         end
     end) = Ok (float_of_decimal neg (digits_to_Z (ds +:+ fs)) (String.length fs))).
  { intros neg. rewrite replace_comma_app, (replace_comma_digits _ Hds).
    destruct Hrest as [(-> & ->)|(Hsep & Hfne & Hfs)].
    - change (replace_comma (EmptyString +:+ EmptyString)) with EmptyString.
      rewrite string_app_nil_r, (span_digits_all _ Hds). by destruct ds.
    - assert (Hs : replace_comma (sep +:+ fs) = String "." fs).
      { rewrite replace_comma_app, (replace_comma_digits _ Hfs).
        by destruct Hsep as [-> | ->]. }
      rewrite Hs.
      rewrite (span_digits_before ds (String "." fs) Hds eq_refl).
      destruct ds as [|d0 ds']; [done|]. simpl Ascii.eqb. cbv iota.
      rewrite (span_digits_all _ Hfs). by destruct fs. }
  destruct ds as [|d0 ds'] eqn:Eds; [done|].
  pose proof Hds as Hd0. simpl in Hd0. apply andb_prop in Hd0 as [Hd0 _].
  pose proof (digit_not_sign d0 Hd0) as Hns. unfold is_sign in Hns.
  apply orb_false_elim in Hns as [Hm Hp].
  pose proof (digit_not_comma d0 Hd0) as Hcomma.
  destruct Hsg as [->|[->| ->]].
  - specialize (Hbody false).
    change (EmptyString +:+ String d0 ds' +:+ sep +:+ fs) with (String d0 ds' +:+ sep +:+ fs).
    change (replace_comma (String d0 ds' +:+ sep +:+ fs))
      with (String (if Ascii.eqb d0 "," then "."%char else d0)
              (replace_comma (ds' +:+ sep +:+ fs))) in *.
    rewrite Hcomma in *. unfold float_of_string. rewrite Hm, Hp. exact Hbody.
  - exact (Hbody false).
  - exact (Hbody true).
Qed.

(** X8: the number that [_to_float] reads from a text.  A text that has a
    digit has a first numeric token; whatever way that text is cut into the
    part without a digit, the token (sign, digits, and a point or comma
    with digits when there is one) and the rest, the result is the decimal
    number that the token writes, rounded to the nearest float; the default
    plays no part. *)
Theorem to_float_text_with_digit (s : string) :
  (no_digit s = false ->
   exists pre sg ds sep fs post, first_token s pre sg ds sep fs post)
  /\ forall pre sg ds sep fs post default,
       first_token s pre sg ds sep fs post ->
       _to_float (VStr s) default
       = Ok (float_of_decimal (String.eqb sg "-") (digits_to_Z (ds +:+ fs))
               (String.length fs)).
Proof.
  split.
  - intros Hs. destruct (re_search s) as [tok|] eqn:E.
    + apply re_search_shape in E as (pre & sg & ds & sep & fs & post & _ & H).
      by exists pre, sg, ds, sep, fs, post.
    + apply re_search_None in E. congruence.
  - intros pre sg ds sep fs post default H.
    unfold _to_float. simpl. rewrite (re_search_token _ _ _ _ _ _ _ H). simpl.
    destruct H as (_ & _ & Hsg & _ & Hne & Hds & Hrest).
    rewrite float_of_string_token_value; [done..|].
    destruct Hrest as [(? & ? & _)|(? & ? & ? & _)]; [by left|by right].
Qed.

Lemma to_float_text_with_digit_witness :
  first_token "env. -12,5 EUR" "env. " "-" "12" "," "5" " EUR"
  /\ forall default, _to_float (VStr "env. -12,5 EUR") default = Ok (-12.5)%float.
Proof.
  assert (H : first_token "env. -12,5 EUR" "env. " "-" "12" "," "5" " EUR").
  { split; [reflexivity|]. split; [reflexivity|]. split; [by auto|]. split; [done|].
    split; [done|]. split; [reflexivity|]. right. split; [by right|]. done. }
  split; [exact H|]. intros default.
  rewrite (proj2 (to_float_text_with_digit "env. -12,5 EUR") _ _ _ _ _ _ default H).
  vm_compute. reflexivity.
Defined.

(** ** The size of the transitive-dependency lists *)

Lemma deps_weight_insert (deps_map : list (string * list string)) (c : string)
    (X : gset string) :
  c ∉ X ->
  deps_weight deps_map ({[c]} ∪ X)
  = (length (deps_of deps_map c) + deps_weight deps_map X)%nat.
Proof.
  intros Hc. unfold deps_weight. by rewrite (elements_union_singleton X c Hc).
Qed.

Lemma deps_weight_mono (deps_map : list (string * list string)) (X Y : gset string) :
  X ⊆ Y -> (deps_weight deps_map X <= deps_weight deps_map Y)%nat.
Proof.
  intros Hsub. unfold deps_weight.
  assert (HY : Y = X ∪ (Y ∖ X)).
  { apply leibniz_equiv. intros x. destruct (decide (x ∈ X)); set_solver. }
  rewrite HY at 1. rewrite elements_disj_union by set_solver.
  rewrite sum_list_with_app. lia.
Qed.

Lemma deps_weight_le_edges (deps_map : list (string * list string)) (X : gset string) :
  (deps_weight deps_map X <= edge_count deps_map)%nat.
Proof.
  revert X. induction deps_map as [|[k v] d IH]; intros X.
  - unfold deps_weight, deps_of. simpl.
    induction (elements X) as [|a l IHl]; simpl; lia.
  - assert (Hout : forall Y : gset string, k ∉ Y ->
              deps_weight ((k, v) :: d) Y = deps_weight d Y).
    { intros Y HY. unfold deps_weight.
      assert (Hel : forall u, u ∈ elements Y -> u <> k).
      { intros u Hu ->. by apply elem_of_elements in Hu. }
      induction (elements Y) as [|a l IHl]; [done|]. simpl.
      rewrite IHl by (intros u Hu; apply Hel; by right).
      unfold deps_of at 1. simpl. rewrite decide_False by (apply Hel; left). done. }
    unfold edge_count. simpl. fold (edge_count d).
    destruct (decide (k ∈ X)) as [Hk|Hk].
    + assert (HX : X = {[k]} ∪ (X ∖ {[k]})).
      { apply leibniz_equiv. intros x. destruct (decide (x = k)); set_solver. }
      rewrite HX, deps_weight_insert by set_solver.
      rewrite Hout by set_solver. specialize (IH (X ∖ {[k]})).
      unfold deps_of at 1. simpl. rewrite decide_True by done. simpl. lia.
    + rewrite Hout by done. specialize (IH X). lia.
Qed.

Section ResolveSize.
Variable deps_map : list (string * list string).

Lemma all_deps_loop_length (fuel : nat)
    (IH : forall comp V r V',
          get_all_deps fuel deps_map comp V = Some (r, V') ->
          V ⊆ V' /\ (length r + deps_weight deps_map V <= deps_weight deps_map V')%nat)
    (deps result : list string) (V : gset string) (r : list string) (V' : gset string) :
  all_deps_loop (get_all_deps fuel deps_map) deps result V = Some (r, V') ->
  V ⊆ V'
  /\ (length r + deps_weight deps_map V
      <= length result + length deps + deps_weight deps_map V')%nat.
Proof using Type.
  revert result V. induction deps as [|dep rest IHl]; intros result V H; simpl in H.
  - injection H as <- <-. split; [done|]. simpl. lia.
  - destruct (get_all_deps fuel deps_map dep V) as [[sub V1]|] eqn:E; [|discriminate].
    destruct (IH dep V sub V1 E) as [HV1 Hlen1].
    destruct (IHl _ _ H) as [HV2 Hlen2].
    split; [set_solver|]. rewrite length_app in Hlen2. simpl in *. lia.
Qed.

(** Every call lists at most as many names as the components it newly
    visits have dependency entries. *)
Lemma get_all_deps_length (fuel : nat) (comp : string) (V : gset string)
    (r : list string) (V' : gset string) :
  get_all_deps fuel deps_map comp V = Some (r, V') ->
  V ⊆ V' /\ (length r + deps_weight deps_map V <= deps_weight deps_map V')%nat.
Proof using Type.
  revert comp V r V'. induction fuel as [|fuel IH]; intros comp V r V' H; [discriminate|].
  simpl in H. destruct (decide (comp ∈ V)) as [Hin|Hnin].
  - injection H as <- <-. split; [done|]. simpl. lia.
  - apply (all_deps_loop_length fuel IH) in H as [HV Hlen].
    rewrite deps_weight_insert in Hlen by done. simpl in Hlen.
    split; [set_solver|]. lia.
Qed.
End ResolveSize.

(** X9: the lists of [_resolve_dependencies] stay small although they can
    repeat names: the list of a component is never longer than the number
    of dependency entries of the whole map (every entry of the map is
    listed at most once per component), and the result has an entry for
    the requested components only. *)
Theorem resolve_dependencies_size (fuel : nat) (components : list string)
    (deps_map : list (string * list string)) :
  (length deps_map < fuel)%nat ->
  exists all_deps,
    _resolve_dependencies fuel components deps_map ∅ = Some all_deps
    /\ (forall comp, is_Some (all_deps !! comp) <-> comp ∈ components)
    /\ forall comp l, all_deps !! comp = Some l ->
         (length l <= edge_count deps_map)%nat.
Proof.
  intros Hfuel.
  destruct (_resolve_dependencies_spec fuel components deps_map ∅ Hfuel)
    as (all_deps & H & Hin & Hout).
  exists all_deps. split; [done|]. split.
  - intros comp. split.
    + intros Hsome. destruct (decide (comp ∈ components)) as [|Hn]; [done|].
      rewrite (Hout comp Hn), lookup_empty in Hsome. by destruct Hsome.
    + intros Hc. destruct (Hin comp Hc) as (l & -> & _). by eexists.
  - clear Hin Hout.
    assert (Hgen : forall acc : gmap string (list string),
              (forall c l, acc !! c = Some l -> (length l <= edge_count deps_map)%nat) ->
              forall all, _resolve_dependencies fuel components deps_map acc = Some all ->
              forall c l, all !! c = Some l -> (length l <= edge_count deps_map)%nat).
    { clear H all_deps. induction components as [|a rest IH]; intros acc Hacc all H; simpl in H.
      - by injection H as <-.
      - destruct (get_all_deps fuel deps_map a ∅) as [[r V']|] eqn:E; [|discriminate].
        apply (IH (<[a := r]> acc)); [|done].
        intros c l Hl. apply lookup_insert_Some in Hl as [[<- <-]|[_ Hl]]; [|by eapply Hacc].
        apply get_all_deps_length in E as [_ Hlen].
        pose proof (deps_weight_le_edges deps_map V'). lia. }
    apply (Hgen ∅); [|done]. intros c l Hl. by rewrite lookup_empty in Hl.
Qed.

Lemma resolve_dependencies_size_witness :
  (length diamond_deps < 4)%nat
  /\ edge_count diamond_deps = 4%nat
  /\ exists all_deps,
       _resolve_dependencies 4 ["A"] diamond_deps ∅ = Some all_deps
       /\ all_deps !! "A" = Some ["B"; "D"; "C"; "D"]
       /\ forall comp l, all_deps !! comp = Some l ->
            (length l <= edge_count diamond_deps)%nat.
Proof.
  split; [simpl; lia|]. split; [reflexivity|].
  destruct (resolve_dependencies_size 4 ["A"] diamond_deps) as (all_deps & H & _ & Hlen);
    [simpl; lia|].
  exists all_deps. split; [exact H|]. split; [|exact Hlen].
  assert (E : _resolve_dependencies 4 ["A"] diamond_deps ∅
              = Some (<["A" := ["B"; "D"; "C"; "D"]]> ∅)) by (vm_compute; reflexivity).
  rewrite E in H. injection H as <-. reflexivity.
Defined.

(** ** The backward schedule on every dependency map *)

Section DfsVisits.
Variable dependents : gmap string (list string).

Lemma dfs_loop_visits (fuel : nat)
    (IH : forall c V O V' O',
          dfs fuel dependents c (V, O) = Some (V', O') ->
          V ⊆ V' /\ c ∈ V' /\ forall x, x ∈ O' <-> x ∈ O \/ (x ∈ V' /\ x ∉ V))
    (nexts : list string) (V : gset string) (O : list string)
    (V' : gset string) (O' : list string) :
  dfs_loop (dfs fuel dependents) nexts (V, O) = Some (V', O') ->
  V ⊆ V' /\ (forall n, n ∈ nexts -> n ∈ V')
  /\ forall x, x ∈ O' <-> x ∈ O \/ (x ∈ V' /\ x ∉ V).
Proof using Type.
  revert V O. induction nexts as [|n rest IHl]; intros V O H; simpl in H.
  - injection H as <- <-. split; [done|]. split.
    + intros n Hn. by apply elem_of_nil in Hn.
    + intros x. split; [by left|]. intros [?|[? ?]]; done.
  - destruct (dfs fuel dependents n (V, O)) as [[V1 O1]|] eqn:E; [|discriminate].
    destruct (IH n V O V1 O1 E) as (HV1 & Hn1 & HO1).
    destruct (IHl V1 O1 H) as (HV2 & Hrest & HO2).
    split; [set_solver|]. split.
    + intros m Hm. apply elem_of_cons in Hm as [->|Hm]; [set_solver|by apply Hrest].
    + intros x. rewrite HO2, HO1. destruct (decide (x ∈ V1)); set_solver.
Qed.

(** Whatever the graph, a call of [dfs] visits its component, and appends
    to the order exactly the components it newly visits. *)
Lemma dfs_visits (fuel : nat) (c : string) (V : gset string) (O : list string)
    (V' : gset string) (O' : list string) :
  dfs fuel dependents c (V, O) = Some (V', O') ->
  V ⊆ V' /\ c ∈ V' /\ forall x, x ∈ O' <-> x ∈ O \/ (x ∈ V' /\ x ∉ V).
Proof using Type.
  revert c V O V' O'. induction fuel as [|fuel IH]; intros c V O V' O' H; [discriminate|].
  simpl in H. destruct (decide (c ∈ V)) as [Hin|Hnin].
  - injection H as <- <-. split; [done|]. split; [done|].
    intros x. split; [by left|]. intros [?|[? ?]]; done.
  - destruct (dfs_loop (dfs fuel dependents) (dependents_get dependents c) ({[c]} ∪ V, O))
      as [[V2 O2]|] eqn:E; [|discriminate].
    injection H as <- <-.
    destruct (dfs_loop_visits fuel IH _ _ _ _ _ E) as (HV2 & _ & HO2).
    split; [set_solver|]. split; [set_solver|].
    intros x. rewrite elem_of_app, list_elem_of_singleton, HO2.
    destruct (decide (x = c)) as [->|Hne]; set_solver.
Qed.
End DfsVisits.

(** The order of the backward scheduler holds every requested component,
    cycles or not. *)
Lemma backward_order_all (fuel : nat) (components : list string)
    (dependents : gmap string (list string)) (V : gset string) (O : list string) :
  backward_order fuel components dependents = Some (V, O) ->
  forall c, c ∈ components -> c ∈ O.
Proof.
  intros H c Hc. unfold backward_order in H.
  destruct (dfs_loop_visits dependents fuel (dfs_visits dependents fuel) _ _ _ _ _ H)
    as (_ & Hall & HO).
  apply HO. right. split; [by apply Hall|]. set_solver.
Qed.

Section BackwardAll.
Variable dependents : gmap string (list string).
Variable assembly_start : Z.
Variable durations : gmap string Z.
Variable assembly_end : option Z.
Variable assembly_name : option string.

Abbreviation step := (backward_step dependents assembly_start durations assembly_end
                        assembly_name).

(** The finish that one turn gives is within the horizon when the finishes
    known so far are. *)
Lemma backward_step_horizon (finish : gmap string Z) (c : string) :
  (forall D, 0 <= duration_of durations D) ->
  (forall x f, finish !! x = Some f -> f <= backward_horizon assembly_start assembly_end) ->
  forall x f, step finish c !! x = Some f ->
    f <= backward_horizon assembly_start assembly_end.
Proof using Type.
  intros Hdur Hinv x f. unfold backward_horizon in *. unfold backward_step.
  assert (Hins : forall v, v <= Z.max assembly_start (default assembly_start assembly_end) ->
            <[c := v]> finish !! x = Some f ->
            f <= Z.max assembly_start (default assembly_start assembly_end)).
  { intros v Hv Hl. apply lookup_insert_Some in Hl as [[_ <-]|[_ Hl]]; [done|by eapply Hinv]. }
  destruct (dependents_get dependents c) as [|d ds] eqn:Eds.
  - destruct assembly_name as [a|], assembly_end as [e|]; simpl in *;
      try (apply Hins; lia).
    destruct (negb (String.eqb a EmptyString) && String.eqb c a); apply Hins; lia.
  - pose proof (starts_of_dependents_elem durations finish (d :: ds)) as Hel.
    destruct (starts_of_dependents durations finish (d :: ds)) as [|s rest].
    + apply Hins. lia.
    + apply Hins. destruct (min_list_le s rest) as (Hs & _ & _).
      destruct (proj1 (Hel s) ltac:(left)) as (D & fD & _ & HfD & ->).
      specialize (Hinv D fD HfD). specialize (Hdur D). lia.
Qed.

Lemma backward_finish_horizon (order : list string) :
  (forall D, 0 <= duration_of durations D) ->
  forall x f,
    backward_finish dependents assembly_start durations assembly_end assembly_name order
      !! x = Some f ->
    f <= backward_horizon assembly_start assembly_end.
Proof using Type.
  intros Hdur. unfold backward_finish.
  induction order as [|c order IH] using rev_ind; simpl.
  - intros x f H. by rewrite lookup_empty in H.
  - rewrite foldl_app. simpl. by apply backward_step_horizon.
Qed.

(** A component without dependents gets its finish from the milestone, or
    from the end date when it is the assembly. *)
Lemma backward_finish_sink (order : list string) (c : string) :
  c ∈ order -> dependents_get dependents c = [] ->
  backward_finish dependents assembly_start durations assembly_end assembly_name order !! c
  = Some (match assembly_name, assembly_end with
          | Some a, Some e =>
              if negb (String.eqb a EmptyString) && String.eqb c a then e else assembly_start
          | _, _ => assembly_start
          end).
Proof using Type.
  intros Hc Hsink. unfold backward_finish.
  induction order as [|x order IH] using rev_ind; [by apply elem_of_nil in Hc|].
  rewrite foldl_app. simpl. destruct (decide (x = c)) as [->|Hne].
  - unfold backward_step. rewrite Hsink.
    destruct assembly_name as [a|], assembly_end as [e|]; try by rewrite lookup_insert_eq.
    destruct (negb (String.eqb a EmptyString) && String.eqb c a);
      by rewrite lookup_insert_eq.
  - apply elem_of_app in Hc as [Hc|Hc]; [|apply list_elem_of_singleton in Hc; congruence].
    destruct (backward_step_insert dependents assembly_start durations assembly_end
                assembly_name
                (foldl (backward_step dependents assembly_start durations assembly_end
                          assembly_name) ∅ order) x) as [v ->].
    rewrite lookup_insert_ne by done. by apply IH.
Qed.
End BackwardAll.

(** X10: on every dependency map, cyclic ones included, every row of the
    backward schedule belongs to a requested component and starts that
    component's duration before it finishes; and when no duration is
    negative, no row finishes after the later of the milestone and the end
    date of the assembly (the milestone alone when no end date is passed),
    nor before it starts. *)
Theorem backward_within_horizon (fuel : nat) (components : list string)
    (deps_map : list (string * list string)) (assembly_start : Z)
    (durations : gmap string Z) (assembly_end : option Z)
    (assembly_name : option string) :
  (length components < fuel)%nat ->
  exists rows,
    _backward_schedule_with_deps fuel components deps_map assembly_start durations
      assembly_end assembly_name = Some rows
    /\ (forall r, r ∈ rows ->
          Composant r ∈ components
          /\ Start r = Finish r - duration_of durations (Composant r))
    /\ ((forall c, 0 <= duration_of durations c) ->
        forall r, r ∈ rows ->
          Start r <= Finish r
          /\ Finish r <= Z.max assembly_start (default assembly_start assembly_end)).
Proof.
  intros Hfuel. unfold _backward_schedule_with_deps.
  destruct (backward_order_total fuel components deps_map Hfuel) as (V & O & ->).
  eexists. split; [done|]. split.
  - intros r Hr. apply list_elem_of_fmap in Hr as (c & -> & Hc). simpl. done.
  - intros Hdur r Hr. apply list_elem_of_fmap in Hr as (c & -> & Hc). simpl.
    split; [specialize (Hdur c); unfold duration_of in Hdur; lia|].
    fold (backward_horizon assembly_start assembly_end).
    destruct (backward_finish (build_dependents components deps_map) assembly_start durations
                assembly_end assembly_name O !! c) as [f|] eqn:E; simpl.
    + by eapply backward_finish_horizon.
    + unfold backward_horizon. lia.
Qed.

Lemma backward_within_horizon_witness :
  (length ["A"; "B"] < 3)%nat
  /\ (forall c, 0 <= duration_of cycle_durations c)
  /\ _backward_schedule_with_deps 3 ["A"; "B"] cycle_deps 100 cycle_durations None None
     = Some [{| Composant := "A"; Start := 79; Finish := 86 |};
             {| Composant := "B"; Start := 86; Finish := 100 |}].
Proof.
  assert (Hdur : forall c, 0 <= duration_of cycle_durations c).
  { intros c. unfold duration_of, cycle_durations.
    destruct (decide (c = "A")) as [->|HA]; [by rewrite lookup_insert_eq|].
    rewrite lookup_insert_ne by done.
    destruct (decide (c = "B")) as [->|HB]; [by rewrite lookup_insert_eq|].
    rewrite lookup_insert_ne by done. by rewrite lookup_empty. }
  split; [simpl; lia|]. split; [exact Hdur|].
  destruct (backward_within_horizon 3 ["A"; "B"] cycle_deps 100 cycle_durations None None)
    as (rows & H & _); [simpl; lia|].
  rewrite H. f_equal.
  assert (E : _backward_schedule_with_deps 3 ["A"; "B"] cycle_deps 100 cycle_durations
                None None
              = Some [{| Composant := "A"; Start := 79; Finish := 86 |};
                      {| Composant := "B"; Start := 86; Finish := 100 |}])
    by (vm_compute; reflexivity).
  rewrite E in H. by injection H.
Defined.

(** X11: on every dependency map, a requested component on which no
    selected component depends finishes exactly at the milestone; when it
    is the assembly and an end date is passed, it finishes at that end
    date. *)
Theorem backward_sink_at_milestone (fuel : nat) (components : list string)
    (deps_map : list (string * list string)) (assembly_start : Z)
    (durations : gmap string Z) (assembly_end : option Z)
    (assembly_name : option string) (c : string) :
  (length components < fuel)%nat ->
  c ∈ components ->
  (forall D, ~ depends_on components deps_map D c) ->
  exists rows,
    _backward_schedule_with_deps fuel components deps_map assembly_start durations
      assembly_end assembly_name = Some rows
    /\ (exists r, r ∈ rows /\ Composant r = c)
    /\ forall r, r ∈ rows -> Composant r = c ->
         (assembly_end = None \/ assembly_name <> Some c \/ c = EmptyString ->
          Finish r = assembly_start)
         /\ (forall e, assembly_end = Some e -> assembly_name = Some c ->
             c <> EmptyString -> Finish r = e).
Proof.
  intros Hfuel Hc Hsink. unfold _backward_schedule_with_deps.
  destruct (backward_order_total fuel components deps_map Hfuel) as (V & O & Horder).
  rewrite Horder. eexists. split; [done|]. split.
  { eexists. split; [apply list_elem_of_fmap; by exists c|done]. }
  intros r Hr Hrc. apply list_elem_of_fmap in Hr as (c' & -> & Hc'). simpl in *. subst c'.
  assert (Hnil : dependents_get (build_dependents components deps_map) c = []).
  { destruct (dependents_get (build_dependents components deps_map) c) as [|D l] eqn:E;
      [done|].
    destruct (Hsink D). apply build_dependents_spec. rewrite E. left. }
  rewrite (backward_finish_sink _ assembly_start durations assembly_end assembly_name O c
             (backward_order_all _ _ _ _ _ Horder c Hc) Hnil). simpl.
  split.
  - intros Hcase. destruct assembly_name as [a|], assembly_end as [e|]; try done.
    destruct (String.eqb_spec a EmptyString) as [->|Ha]; simpl; [done|].
    destruct (String.eqb_spec c a) as [->|Hca]; [|done].
    destruct Hcase as [?|[?|?]]; done.
  - intros e -> -> Hne. rewrite String.eqb_refl.
    destruct (String.eqb_spec c EmptyString) as [->|_]; done.
Qed.

Lemma backward_sink_at_milestone_witness :
  (length ["A"; "B"; "C"; "D"] < 5)%nat
  /\ "A" ∈ ["A"; "B"; "C"; "D"]
  /\ (forall D, ~ depends_on ["A"; "B"; "C"; "D"] diamond_deps D "A")
  /\ _backward_schedule_with_deps 5 ["A"; "B"; "C"; "D"] diamond_deps 100 cycle_durations
       (Some 156) (Some "A")
     = Some [{| Composant := "A"; Start := 149; Finish := 156 |};
             {| Composant := "B"; Start := 135; Finish := 149 |};
             {| Composant := "C"; Start := 149; Finish := 149 |};
             {| Composant := "D"; Start := 135; Finish := 135 |}].
Proof.
  assert (Hsink : forall D, ~ depends_on ["A"; "B"; "C"; "D"] diamond_deps D "A").
  { intros D (_ & _ & deps & Hin & HA). unfold diamond_deps in Hin.
    repeat (apply elem_of_cons in Hin as [[= -> ->]|Hin];
            [repeat (apply elem_of_cons in HA as [HA|HA]; [discriminate|]);
             by apply elem_of_nil in HA|]).
    by apply elem_of_nil in Hin. }
  split; [simpl; lia|]. split; [left|]. split; [exact Hsink|].
  destruct (backward_sink_at_milestone 5 ["A"; "B"; "C"; "D"] diamond_deps 100
              cycle_durations (Some 156) (Some "A") "A")
    as (rows & H & _ & _); [simpl; lia|left|exact Hsink|].
  rewrite H. f_equal.
  assert (E : _backward_schedule_with_deps 5 ["A"; "B"; "C"; "D"] diamond_deps 100
                cycle_durations (Some 156) (Some "A")
              = Some [{| Composant := "A"; Start := 149; Finish := 156 |};
                      {| Composant := "B"; Start := 135; Finish := 149 |};
                      {| Composant := "C"; Start := 149; Finish := 149 |};
                      {| Composant := "D"; Start := 135; Finish := 135 |}])
    by (vm_compute; reflexivity).
  rewrite E in H. by injection H.
Defined.

(** ** The forward schedule on every dependency map *)

Lemma py_mapM_dict_at_inv (fin : gmap string Z) (deps : list string) (fins : list Z) :
  py_mapM (dict_at fin) deps = Ok fins ->
  forall x, x ∈ fins -> exists d, d ∈ deps /\ fin !! d = Some x.
Proof.
  revert fins. induction deps as [|d deps IH]; intros fins H; simpl in H.
  - injection H as <-. intros x Hx. by apply elem_of_nil in Hx.
  - py_inv H as fd Hfd. py_inv H as rest Hrest. injection H as <-.
    unfold dict_at in Hfd. destruct (fin !! d) as [v|] eqn:E; [|discriminate].
    injection Hfd as ->. intros x Hx. apply elem_of_cons in Hx as [->|Hx].
    + exists d. split; [left|done].
    + destruct (IH rest Hrest x Hx) as (d' & Hd' & Hx'). exists d'. split; [by right|done].
Qed.

Section ForwardTight.
Variable components : list string.
Variable deps_map : list (string * list string).
Variable start_by_comp : gmap string Z.
Variable lead_days : gmap string Z.
Variable today : Z.

Abbreviation own := (own_start_of start_by_comp today).
Abbreviation tight := (forward_tight components deps_map start_by_comp lead_days today).
Abbreviation deps_get := (deps_limited_get components deps_map).
Abbreviation dom_ok := (forward_dom components).
Abbreviation relax_step' := (relax_step components deps_map start_by_comp lead_days today).
Abbreviation force_step' := (force_step components deps_map start_by_comp lead_days today).

(** The start of a ready component is its order date or the finish of one
    of its dependencies. *)
Lemma ready_start_tight (fin : gmap string Z) (comp : string) (deps : list string) (s : Z) :
  ready_start start_by_comp today fin comp deps = Ok s ->
  own comp <= s /\ (s = own comp \/ exists d, d ∈ deps /\ fin !! d = Some s).
Proof using Type.
  unfold ready_start. destruct deps as [|d0 deps'].
  - intros [= <-]. split; [lia|by left].
  - intros H. py_inv H as fins Hfins. py_inv H as latest Hlatest. injection H as <-.
    split; [lia|].
    destruct fins as [|f rest]; [discriminate|]. injection Hlatest as <-.
    destruct (Z.max_spec (own comp) (max_list f rest)) as [[_ ->]|[_ ->]]; [|by left].
    right. destruct (max_list_ge f rest) as (_ & _ & Hin).
    by apply (py_mapM_dict_at_inv fin (d0 :: deps') (f :: rest)).
Qed.

(** So is the start of a forced component. *)
Lemma forced_start_tight (fin : gmap string Z) (comp : string) (deps : list string) :
  let s := forced_start start_by_comp today fin comp deps in
  own comp <= s /\ (s = own comp \/ exists d, d ∈ deps /\ fin !! d = Some s).
Proof using Type.
  unfold forced_start. destruct deps as [|d0 deps']; [split; [lia|by left]|].
  destruct (dep_finishes fin (d0 :: deps')) as [|f rest] eqn:E; [split; [lia|by left]|].
  split; [lia|].
  destruct (Z.max_spec (own comp) (max_list f rest)) as [[_ ->]|[_ ->]]; [|by left].
  right. destruct (max_list_ge f rest) as (_ & _ & Hin).
  rewrite <- E in Hin. unfold dep_finishes in Hin.
  apply list_elem_of_omap in Hin as (d & Hd & Hfd). by exists d.
Qed.

Lemma resolve_tight (st st' : fstate) (comp : string) (s : Z) :
  dom_ok st -> comp ∈ remaining st -> tight st ->
  own comp <= s ->
  (s = own comp \/ exists d, d ∈ deps_get comp /\ finishes st !! d = Some s) ->
  resolve lead_days st comp s = Ok st' ->
  tight st'.
Proof using Type.
  intros Hdom Hcomp Htight Hown Hjust Hres.
  destruct (resolve_dom components lead_days st comp s Hdom Hcomp)
    as (st'' & E & _ & Hs' & Hf' & _).
  rewrite E in Hres. injection Hres as ->.
  destruct Hdom as (_ & _ & Hfi).
  assert (Hnf : finishes st !! comp = None).
  { destruct (finishes st !! comp) eqn:E'; [|done].
    assert (is_Some (finishes st !! comp)) as Hsome by eauto.
    apply Hfi in Hsome as [_ ?]. done. }
  assert (Hkeep : forall d x, finishes st !! d = Some x -> finishes st' !! d = Some x).
  { intros d x Hd. rewrite Hf', lookup_insert_ne; [done|]. intros <-. congruence. }
  intros c s0 f0. rewrite Hs', Hf'. destruct (decide (c = comp)) as [->|Hne].
  - rewrite !lookup_insert_eq. intros [= <-] [= <-].
    split; [done|]. split; [done|].
    destruct Hjust as [?|(d & Hd & Hfd)]; [by left|right].
    exists d. split; [done|]. rewrite <- Hf'. by apply Hkeep.
  - rewrite !lookup_insert_ne by done. intros Hcs Hcf.
    destruct (Htight c s0 f0 Hcs Hcf) as (H1 & H2 & H3). split; [done|]. split; [done|].
    destruct H3 as [?|(d & Hd & Hfd)]; [by left|right].
    exists d. split; [done|]. rewrite <- Hf'. by apply Hkeep.
Qed.

Lemma relax_pass_tight (l : list string) (st : fstate) (p : bool) (st' : fstate) (p' : bool) :
  NoDup l -> (forall x, x ∈ l -> x ∈ remaining st) -> dom_ok st -> tight st ->
  py_foldl relax_step' (st, p) l = Ok (st', p') ->
  tight st'.
Proof using Type.
  revert st p. induction l as [|a l IH]; intros st p Hnd Hin Hdom Htight H;
    cbn [py_foldl] in H.
  - by injection H as <- <-.
  - apply NoDup_cons in Hnd as [Ha Hnd].
    destruct (relax_step_spec components deps_map start_by_comp lead_days today st p a
                Hdom (Hin a ltac:(left)))
      as (st1 & p1 & E & Hdom1 & _ & Hkeep1 & _).
    rewrite E in H. cbn [py_bind] in H.
    apply (IH st1 p1); [done| |done| |done].
    + intros x Hx. apply Hkeep1; [apply Hin; by right|]. intros ->. done.
    + unfold relax_step in E.
      change (default [] (deps_limited components deps_map !! a)) with (deps_get a) in E.
      destruct (forallb _ (deps_get a)); [|by injection E as <- _].
      py_inv E as s Hs. py_inv E as st2 Hst2. injection E as <- _.
      apply ready_start_tight in Hs as [Hown Hjust].
      by apply (resolve_tight st st2 a s Hdom (Hin a ltac:(left))).
Qed.

Lemma force_pass_tight (l : list string) (st st' : fstate) :
  NoDup l -> (forall x, x ∈ l -> x ∈ remaining st) -> dom_ok st -> tight st ->
  py_foldl force_step' st l = Ok st' ->
  tight st'.
Proof using Type.
  revert st. induction l as [|a l IH]; intros st Hnd Hin Hdom Htight H; cbn [py_foldl] in H.
  - by injection H as <-.
  - apply NoDup_cons in Hnd as [Ha Hnd]. py_inv H as st1 Hst1.
    unfold force_step in Hst1.
    change (default [] (deps_limited components deps_map !! a)) with (deps_get a) in Hst1.
    destruct (resolve_dom components lead_days st a
                (forced_start start_by_comp today (finishes st) a (deps_get a))
                Hdom (Hin a ltac:(left)))
      as (st1' & E & Hdom1 & _ & _ & Hr1 & _).
    assert (st1' = st1) as -> by congruence.
    destruct (forced_start_tight (finishes st) a (deps_get a)) as [Hown Hjust].
    apply (IH st1); [done| |done| |done].
    + intros x Hx. rewrite Hr1. apply elem_of_difference. split; [apply Hin; by right|].
      intros Hxa. apply elem_of_singleton in Hxa as ->. done.
    + apply (resolve_tight st st1 a _ Hdom (Hin a ltac:(left)) Htight Hown Hjust Hst1).
Qed.
End ForwardTight.

Section ForwardLoopTight.
Variable list_of_set : nat -> bool -> gset string -> list string.
Variable components : list string.
Variable deps_map : list (string * list string).
Variable start_by_comp : gmap string Z.
Variable lead_days : gmap string Z.
Variable today : Z.
Hypothesis list_of_set_perm : forall i b s, list_of_set i b s ≡ₚ elements s.

Abbreviation tight := (forward_tight components deps_map start_by_comp lead_days today).
Abbreviation dom_ok := (forward_dom components).

(** The loop keeps the starts justified, cycles or not. *)
Lemma forward_loop_tight (budget : nat) (st st' : fstate) :
  dom_ok st -> tight st ->
  forward_loop list_of_set components deps_map start_by_comp lead_days today budget st
  = Ok st' ->
  tight st'.
Proof using list_of_set_perm.
  revert st. induction budget as [|budget IH]; intros st Hdom Htight Hloop.
  - simpl in Hloop. by injection Hloop as <-.
  - cbn [forward_loop] in Hloop.
    destruct (decide (remaining st = ∅)) as [He|Hne]; [by injection Hloop as <-|].
    set (st0 := {| starts := starts st; finishes := finishes st;
                   remaining := remaining st; iteration := S (iteration st) |}) in *.
    assert (Hdom0 : dom_ok st0) by done.
    assert (Htight0 : tight st0) by done.
    pose proof (list_of_set_NoDup list_of_set list_of_set_perm) as Hnd.
    pose proof (list_of_set_elem list_of_set list_of_set_perm) as Hel.
    destruct (relax_pass_spec components deps_map start_by_comp lead_days today
                (list_of_set (iteration st0) false (remaining st0)) st0 false
                (Hnd _ _ _) (fun x => proj1 (Hel _ _ _ x)) Hdom0)
      as (st1 & p1 & Hpass & Hdom1 & _).
    pose proof (relax_pass_tight components deps_map start_by_comp lead_days today
                  _ st0 false st1 p1 (Hnd _ _ _) (fun x => proj1 (Hel _ _ _ x))
                  Hdom0 Htight0 Hpass) as Htight1.
    rewrite Hpass in Hloop. cbn [py_bind] in Hloop.
    destruct p1; [by apply (IH st1)|].
    by apply (force_pass_tight components deps_map start_by_comp lead_days today
                (list_of_set (iteration st1) true (remaining st1)) st1 st'
                (Hnd _ _ _) (fun x => proj1 (Hel _ _ _ x)) Hdom1 Htight1).
Qed.

Lemma forward_final_tight (st : fstate) :
  forward_final list_of_set components deps_map start_by_comp lead_days today = Ok st ->
  tight st.
Proof using list_of_set_perm.
  apply forward_loop_tight; [apply forward_init_dom|].
  intros c s f Hs. simpl in Hs. by rewrite lookup_empty in Hs.
Qed.
End ForwardLoopTight.

(** X12: on every dependency map, cyclic ones included, every requested
    component of the forward schedule starts at or after its order date
    (today when it has none), and no later than necessary: on its order
    date, or on the day one of its selected direct dependencies finishes;
    it finishes max(0, lead) days after its start, never before it. *)
Theorem forward_starts_justified (list_of_set : nat -> bool -> gset string -> list string)
    (components : list string) (deps_map : list (string * list string))
    (start_by_comp lead_days : gmap string Z) (today : Z)
    (assembly_name : string) (assembly_days : Z) :
  (forall i b s, list_of_set i b s ≡ₚ elements s) ->
  exists (start finish : string -> Z) (assembly : list ScheduleRow),
    _forward_schedule_with_custom_starts list_of_set components deps_map start_by_comp
      lead_days today assembly_name assembly_days
    = Ok (((fun c => {| Composant := c; Start := start c; Finish := finish c |})
             <$> components) ++ assembly)
    /\ forall c, c ∈ components ->
         own_start_of start_by_comp today c <= start c
         /\ finish c = start c + Z.max 0 (default 0 (lead_days !! c))
         /\ start c <= finish c
         /\ (start c = own_start_of start_by_comp today c
             \/ exists d, d ∈ deps_of deps_map c /\ d ∈ components /\ finish d = start c).
Proof.
  intros Hperm.
  destruct (forward_final_dom list_of_set components deps_map start_by_comp lead_days today
              Hperm) as (st & Hst & Hall & _).
  pose proof (forward_final_tight list_of_set components deps_map start_by_comp lead_days
                today Hperm st Hst) as Htight.
  destruct (assembly_rows_spec components deps_map today assembly_name assembly_days
              (finishes st)) as (assembly & Hasm & _).
  { intros c Hc. by apply Hall. }
  exists (fun c => default 0 (starts st !! c)), (fun c => default 0 (finishes st !! c)),
         assembly.
  split.
  - unfold _forward_schedule_with_custom_starts. rewrite Hst. cbn [py_bind].
    rewrite Hasm. cbn [py_bind]. by rewrite (forward_rows_all components st Hall).
  - intros c Hc. destruct (Hall c Hc) as [[s Hs] [f Hf]].
    destruct (Htight c s f Hs Hf) as (Hown & Hfin & Hjust). rewrite Hs, Hf. simpl.
    split; [done|]. split; [done|]. split; [lia|].
    destruct Hjust as [?|(d & Hd & Hfd)]; [by left|right].
    apply deps_limited_get_elem in Hd as (_ & Hdc & Hdeps).
    exists d. split; [done|]. split; [done|]. by rewrite Hfd.
Qed.

Lemma forward_starts_justified_witness :
  (forall (i : nat) (b : bool) (s : gset string), elements_order i b s ≡ₚ elements s)
  /\ exists (start finish : string -> Z) (assembly : list ScheduleRow),
       _forward_schedule_with_custom_starts elements_order ["A"; "B"] cycle_deps
         (<["B" := 60]> ∅) cycle_durations 50 "Z" 56
       = Ok (((fun c => {| Composant := c; Start := start c; Finish := finish c |})
                <$> ["A"; "B"]) ++ assembly)
       /\ forall c, c ∈ ["A"; "B"] ->
            own_start_of (<["B" := 60]> ∅) 50 c <= start c
            /\ finish c = start c + Z.max 0 (default 0 (cycle_durations !! c))
            /\ start c <= finish c
            /\ (start c = own_start_of (<["B" := 60]> ∅) 50 c
                \/ exists d, d ∈ deps_of cycle_deps c /\ d ∈ ["A"; "B"]
                             /\ finish d = start c).
Proof.
  split; [done|]. by apply forward_starts_justified.
Defined.

(** C6 (amended): on every dependency map the forward scheduler returns,
    for some start and finish per component, the rows (c, start c, finish c)
    of the requested components, followed by the row it may append for the
    assembly; every requested component starts at or after its order date
    (today when it has none) and finishes max(0, leadDays) days after its
    start; and when the selected part of the dependency map is acyclic,
    every requested component starts at or after the finish of each of its
    selected direct dependencies. *)
Theorem forward_respects_dependencies (list_of_set : nat -> bool -> gset string -> list string)
    (components : list string) (deps_map : list (string * list string))
    (start_by_comp lead_days : gmap string Z) (today : Z)
    (assembly_name : string) (assembly_days : Z) :
  (forall i b s, list_of_set i b s ≡ₚ elements s) ->
  exists (start finish : string -> Z) (assembly : list ScheduleRow),
    _forward_schedule_with_custom_starts list_of_set components deps_map start_by_comp
      lead_days today assembly_name assembly_days
    = Ok (((fun c => {| Composant := c; Start := start c; Finish := finish c |})
             <$> components) ++ assembly)
    /\ (forall c, c ∈ components ->
          own_start_of start_by_comp today c <= start c
          /\ finish c = start c + Z.max 0 (default 0 (lead_days !! c)))
    /\ (acyclic_selection components deps_map ->
        forall c d, c ∈ components -> d ∈ deps_of deps_map c -> d ∈ components ->
          finish d <= start c).
Proof.
  intros Hperm.
  destruct (forward_final_dom list_of_set components deps_map start_by_comp lead_days today
              Hperm) as (st & Hst & Hall & _).
  pose proof (forward_final_tight list_of_set components deps_map start_by_comp lead_days
                today Hperm st Hst) as Htight.
  destruct (assembly_rows_spec components deps_map today assembly_name assembly_days
              (finishes st)) as (assembly & Hasm & _).
  { intros c Hc. by apply Hall. }
  exists (fun c => default 0 (starts st !! c)), (fun c => default 0 (finishes st !! c)),
         assembly.
  split; [|split].
  - unfold _forward_schedule_with_custom_starts. rewrite Hst. cbn [py_bind].
    rewrite Hasm. cbn [py_bind]. by rewrite (forward_rows_all components st Hall).
  - intros c Hc. destruct (Hall c Hc) as [[s Hs] [f Hf]].
    destruct (Htight c s f Hs Hf) as (Hown & Hfin & _). rewrite Hs, Hf. simpl. done.
  - intros Hacyc c d Hc Hd Hdc.
    pose proof (forward_loop_ok list_of_set components deps_map start_by_comp lead_days today
                  Hperm (length components * 3) (forward_init components) st Hacyc
                  (forward_init_dom components)
                  (forward_init_ok components deps_map start_by_comp lead_days today)
                  Hst) as Hok.
    destruct (Hall c Hc) as [[s Hs] [f Hf]].
    destruct (Hok c s f Hs Hf) as (_ & _ & Hdeps). rewrite Hs. simpl.
    destruct (Hdeps d) as (fd & Hfd & Hle); [by apply deps_limited_get_elem|].
    by rewrite Hfd.
Qed.

Lemma forward_respects_dependencies_witness :
  (forall (i : nat) (b : bool) (s : gset string), elements_order i b s ≡ₚ elements s)
  /\ acyclic_selection ["A"; "B"; "C"; "D"] diamond_deps
  /\ exists (start finish : string -> Z) (assembly : list ScheduleRow),
       _forward_schedule_with_custom_starts elements_order ["A"; "B"; "C"; "D"] diamond_deps
         ∅ cycle_durations 50 "Z" 56
       = Ok (((fun c => {| Composant := c; Start := start c; Finish := finish c |})
                <$> ["A"; "B"; "C"; "D"]) ++ assembly)
       /\ (forall c, c ∈ ["A"; "B"; "C"; "D"] ->
             own_start_of ∅ 50 c <= start c
             /\ finish c = start c + Z.max 0 (default 0 (cycle_durations !! c)))
       /\ (acyclic_selection ["A"; "B"; "C"; "D"] diamond_deps ->
           forall c d, c ∈ ["A"; "B"; "C"; "D"] -> d ∈ deps_of diamond_deps c ->
             d ∈ ["A"; "B"; "C"; "D"] -> finish d <= start c).
Proof.
  split; [done|]. split; [exact diamond_acyclic|].
  by apply forward_respects_dependencies.
Defined.

Lemma max_list_unique (x : Z) (l : list Z) (s : Z) :
  x <= s -> (forall y, y ∈ l -> y <= s) -> s ∈ x :: l -> s = max_list x l.
Proof.
  intros Hx Hl Hs. destruct (max_list_ge x l) as (Hge & Hall & Hin).
  assert (max_list x l <= s).
  { apply elem_of_cons in Hin as [->|Hin]; [done|by apply Hl]. }
  assert (s <= max_list x l).
  { apply elem_of_cons in Hs as [->|Hs]; [done|by apply Hall]. }
  lia.
Qed.

Lemma deps_limited_get_selected (components : list string)
    (deps_map : list (string * list string)) (c : string) :
  c ∈ components ->
  deps_limited_get components deps_map c
  = filter (fun d => d ∈ selected components) (deps_of deps_map c).
Proof.
  intros Hc. unfold deps_limited_get, deps_limited.
  rewrite foldl_insert_lookup. by rewrite bool_decide_eq_true_2.
Qed.

(** X13: when the selected part of the dependency map is acyclic, the
    forward schedule starts every requested component as early as its
    constraints allow: exactly on the latest of its order date (today when
    it has none) and the finish dates of its selected direct
    dependencies. *)
Theorem forward_starts_earliest (list_of_set : nat -> bool -> gset string -> list string)
    (components : list string) (deps_map : list (string * list string))
    (start_by_comp lead_days : gmap string Z) (today : Z)
    (assembly_name : string) (assembly_days : Z) :
  (forall i b s, list_of_set i b s ≡ₚ elements s) ->
  acyclic_selection components deps_map ->
  exists (start finish : string -> Z) (assembly : list ScheduleRow),
    _forward_schedule_with_custom_starts list_of_set components deps_map start_by_comp
      lead_days today assembly_name assembly_days
    = Ok (((fun c => {| Composant := c; Start := start c; Finish := finish c |})
             <$> components) ++ assembly)
    /\ forall c, c ∈ components ->
         start c
         = max_list (own_start_of start_by_comp today c)
             (finish <$> filter (fun d => d ∈ selected components) (deps_of deps_map c)).
Proof.
  intros Hperm Hacyc.
  destruct (forward_final_dom list_of_set components deps_map start_by_comp lead_days today
              Hperm) as (st & Hst & Hall & _).
  pose proof (forward_final_tight list_of_set components deps_map start_by_comp lead_days
                today Hperm st Hst) as Htight.
  pose proof (forward_loop_ok list_of_set components deps_map start_by_comp lead_days today
                Hperm (length components * 3) (forward_init components) st Hacyc
                (forward_init_dom components)
                (forward_init_ok components deps_map start_by_comp lead_days today)
                Hst) as Hok.
  destruct (assembly_rows_spec components deps_map today assembly_name assembly_days
              (finishes st)) as (assembly & Hasm & _).
  { intros c Hc. by apply Hall. }
  exists (fun c => default 0 (starts st !! c)), (fun c => default 0 (finishes st !! c)),
         assembly.
  split.
  - unfold _forward_schedule_with_custom_starts. rewrite Hst. cbn [py_bind].
    rewrite Hasm. cbn [py_bind]. by rewrite (forward_rows_all components st Hall).
  - intros c Hc. destruct (Hall c Hc) as [[s Hs] [f Hf]].
    destruct (Htight c s f Hs Hf) as (Hown & _ & Hjust).
    destruct (Hok c s f Hs Hf) as (_ & _ & Hdeps).
    rewrite (deps_limited_get_selected components deps_map c Hc) in Hjust, Hdeps.
    rewrite Hs. simpl. apply max_list_unique; [done| |].
    + intros y Hy. apply list_elem_of_fmap in Hy as (d & -> & Hd).
      destruct (Hdeps d Hd) as (fd & Hfd & Hle). by rewrite Hfd.
    + destruct Hjust as [->|(d & Hd & Hfd)]; [left|right].
      apply list_elem_of_fmap. exists d. split; [by rewrite Hfd|done].
Qed.

Lemma forward_starts_earliest_witness :
  (forall (i : nat) (b : bool) (s : gset string), elements_order i b s ≡ₚ elements s)
  /\ acyclic_selection ["A"; "B"; "C"; "D"] diamond_deps
  /\ exists (start finish : string -> Z) (assembly : list ScheduleRow),
       _forward_schedule_with_custom_starts elements_order ["A"; "B"; "C"; "D"] diamond_deps
         ∅ cycle_durations 50 "Z" 56
       = Ok (((fun c => {| Composant := c; Start := start c; Finish := finish c |})
                <$> ["A"; "B"; "C"; "D"]) ++ assembly)
       /\ forall c, c ∈ ["A"; "B"; "C"; "D"] ->
            start c
            = max_list (own_start_of ∅ 50 c)
                (finish <$> filter (fun d => d ∈ selected ["A"; "B"; "C"; "D"])
                              (deps_of diamond_deps c)).
Proof.
  split; [done|]. split; [exact diamond_acyclic|].
  apply forward_starts_earliest; [done|exact diamond_acyclic].
Defined.

Lemma py_mapM_length {A B} (f : A -> py B) (l : list A) (r : list B) :
  py_mapM f l = Ok r -> length r = length l.
Proof.
  revert r. induction l as [|a l IH]; intros r H; simpl in H.
  - by injection H as <-.
  - py_inv H as y Hy. py_inv H as ys Hys. injection H as <-. simpl. by rewrite (IH ys).
Qed.

(** The start of the row appended for the assembly. *)
Lemma assembly_rows_start (components : list string)
    (deps_map : list (string * list string)) (today : Z) (assembly_name : string)
    (assembly_days : Z) (fin : gmap string Z) (assembly : list ScheduleRow) :
  (forall c, is_Some (fin !! c) <-> c ∈ components) ->
  assembly_rows components deps_map today assembly_name assembly_days fin = Ok assembly ->
  forall r, r ∈ assembly ->
    Composant r = assembly_name
    /\ Finish r = Start r + assembly_days
    /\ (forall d f, d ∈ deps_of deps_map assembly_name -> d ∈ components ->
          fin !! d = Some f -> f <= Start r)
    /\ ((exists d, d ∈ deps_of deps_map assembly_name /\ d ∈ components) ->
        exists d, d ∈ deps_of deps_map assembly_name /\ d ∈ components
                  /\ fin !! d = Some (Start r))
    /\ ((forall d, d ∈ deps_of deps_map assembly_name -> d ∉ components) ->
        (forall c f, fin !! c = Some f -> f <= Start r)
        /\ exists c, c ∈ components /\ fin !! c = Some (Start r)).
Proof.
  intros Hdom H r Hr. unfold assembly_rows in H.
  set (asm_deps := filter (fun d => d ∈ selected components) (deps_of deps_map assembly_name))
    in *.
  assert (Hel : forall d, d ∈ asm_deps
                          <-> d ∈ deps_of deps_map assembly_name /\ d ∈ components).
  { intros d. unfold asm_deps, selected.
    rewrite list_elem_of_filter, elem_of_list_to_set. tauto. }
  destruct (bool_decide (assembly_name ∈ selected components)
            || negb (bool_decide (asm_deps = []))
               && forallb (fun d => bool_decide (is_Some (fin !! d))) asm_deps) eqn:Hcond;
    [|injection H as <-; by apply elem_of_nil in Hr].
  py_inv H as fins Hfins. injection H as <-.
  apply list_elem_of_singleton in Hr as ->. simpl.
  split; [done|]. split; [done|].
  pose proof (py_mapM_dict_at_inv fin asm_deps fins Hfins) as Hinv.
  pose proof (py_mapM_length _ _ _ Hfins) as Hlen.
  destruct fins as [|f rest].
  - destruct asm_deps as [|d0 l] eqn:Easm; [|discriminate].
    rewrite (bool_decide_eq_true_2 (@nil string = [])) in Hcond by done. simpl in Hcond.
    rewrite orb_false_r in Hcond. apply bool_decide_eq_true in Hcond.
    unfold selected in Hcond. rewrite elem_of_list_to_set in Hcond.
    apply Hdom in Hcond as [fa Hfa].
    assert (Hvals : forall x, x ∈ (map_to_list fin).*2 <-> exists c, fin !! c = Some x).
    { intros x. rewrite list_elem_of_fmap. split.
      - intros ([c v] & -> & Hcv). exists c. by apply elem_of_map_to_list in Hcv.
      - intros (c & Hc). exists (c, x). split; [done|]. by apply elem_of_map_to_list. }
    unfold latest_finish.
    destruct ((map_to_list fin).*2) as [|v vs] eqn:Ev.
    { exfalso. apply (not_elem_of_nil fa), Hvals. by exists assembly_name. }
    destruct (max_list_ge v vs) as (Hv & Hvs & Hin).
    assert (Hbound : forall c x, fin !! c = Some x -> x <= max_list v vs).
    { intros c x Hx. assert (Hxin : x ∈ v :: vs) by (apply Hvals; by exists c).
      apply elem_of_cons in Hxin as [->|Hxin]; [done|by apply Hvs]. }
    split; [|split].
    + intros d x _ _ Hx. by apply (Hbound d).
    + intros (d & Hd & Hdc). exfalso. apply (not_elem_of_nil d), Hel. done.
    + intros _. split; [intros c x Hx; by apply (Hbound c)|].
      apply Hvals in Hin as (c & Hc). exists c. split; [|done]. apply Hdom. by eexists.
  - destruct (max_list_ge f rest) as (Hf & Hrest & Hin).
    assert (Hfins' : forall d x, d ∈ asm_deps -> fin !! d = Some x -> x ∈ f :: rest).
    { clear - Hfins. revert Hfins. generalize (f :: rest). clear f rest.
      induction asm_deps as [|a l IH]; intros fins H d x Hd Hx;
        [by apply elem_of_nil in Hd|].
      simpl in H. py_inv H as y Hy. py_inv H as ys Hys. injection H as <-.
      apply elem_of_cons in Hd as [->|Hd].
      - unfold dict_at in Hy. rewrite Hx in Hy. injection Hy as ->. left.
      - right. by apply (IH ys Hys d). }
    split; [|split].
    + intros d x Hd Hdc Hx. assert (Hxin : x ∈ f :: rest).
      { apply (Hfins' d); [by apply Hel|done]. }
      apply elem_of_cons in Hxin as [->|Hxin]; [done|by apply Hrest].
    + intros _. destruct (Hinv _ Hin) as (d & Hd & Hfd). apply Hel in Hd as [Hd Hdc].
      by exists d.
    + intros Hnone. exfalso.
      destruct (Hinv f ltac:(left)) as (d & Hd & _). apply Hel in Hd as [Hd Hdc].
      by apply (Hnone d).
Qed.

(** X14: on every dependency map, the row that the forward scheduler
    appends for the assembly starts on the day the last of the selected
    dependencies of the assembly finishes: no earlier than any of them, and
    exactly when one of them finishes.  When the assembly has no selected
    dependency it starts on the day the last requested component finishes.
    It lasts the assembly duration. *)
Theorem forward_assembly_start (list_of_set : nat -> bool -> gset string -> list string)
    (components : list string) (deps_map : list (string * list string))
    (start_by_comp lead_days : gmap string Z) (today : Z)
    (assembly_name : string) (assembly_days : Z) :
  (forall i b s, list_of_set i b s ≡ₚ elements s) ->
  exists (start finish : string -> Z) (assembly : list ScheduleRow),
    _forward_schedule_with_custom_starts list_of_set components deps_map start_by_comp
      lead_days today assembly_name assembly_days
    = Ok (((fun c => {| Composant := c; Start := start c; Finish := finish c |})
             <$> components) ++ assembly)
    /\ forall r, r ∈ assembly ->
         Composant r = assembly_name
         /\ Finish r = Start r + assembly_days
         /\ (forall d, d ∈ deps_of deps_map assembly_name -> d ∈ components ->
               finish d <= Start r)
         /\ ((exists d, d ∈ deps_of deps_map assembly_name /\ d ∈ components) ->
             exists d, d ∈ deps_of deps_map assembly_name /\ d ∈ components
                       /\ Start r = finish d)
         /\ ((forall d, d ∈ deps_of deps_map assembly_name -> d ∉ components) ->
             (forall c, c ∈ components -> finish c <= Start r)
             /\ exists c, c ∈ components /\ Start r = finish c).
Proof.
  intros Hperm.
  destruct (forward_final_dom list_of_set components deps_map start_by_comp lead_days today
              Hperm) as (st & Hst & Hall & _).
  assert (Hdom : forall c, is_Some (finishes st !! c) <-> c ∈ components).
  { intros c. split; [|intros Hc; by apply Hall].
    unfold forward_final in Hst.
    destruct (forward_loop_spec list_of_set components deps_map start_by_comp lead_days
                today Hperm (length components * 3) (forward_init components)
                (forward_init_dom components)) as (st' & Hst' & (_ & _ & Hf) & _).
    { simpl. pose proof (size_list_to_set_le components). lia. }
    assert (st' = st) as -> by congruence.
    intros Hsome. apply Hf in Hsome as [Hsel _]. unfold selected in Hsel.
    by apply elem_of_list_to_set in Hsel. }
  destruct (assembly_rows_spec components deps_map today assembly_name assembly_days
              (finishes st)) as (assembly & Hasm & _).
  { intros c Hc. by apply Hall. }
  exists (fun c => default 0 (starts st !! c)), (fun c => default 0 (finishes st !! c)),
         assembly.
  split.
  - unfold _forward_schedule_with_custom_starts. rewrite Hst. cbn [py_bind].
    rewrite Hasm. cbn [py_bind]. by rewrite (forward_rows_all components st Hall).
  - intros r Hr.
    destruct (assembly_rows_start components deps_map today assembly_name assembly_days
                (finishes st) assembly Hdom Hasm r Hr) as (Hn & Hf & Hdeps & Hsome & Hnone).
    split; [done|]. split; [done|]. split; [|split].
    + intros d Hd Hdc. destruct (proj2 (Hall d Hdc)) as [fd Hfd]. rewrite Hfd. simpl.
      by apply (Hdeps d).
    + intros Hex. destruct (Hsome Hex) as (d & Hd & Hdc & Hfd).
      exists d. split; [done|]. split; [done|]. by rewrite Hfd.
    + intros Hno. destruct (Hnone Hno) as (Hle & c & Hc & Hfc). split.
      * intros c' Hc'. destruct (proj2 (Hall c' Hc')) as [fc Hfc']. rewrite Hfc'. simpl.
        by apply (Hle c').
      * exists c. split; [done|]. by rewrite Hfc.
Qed.

Lemma forward_assembly_start_witness :
  (forall (i : nat) (b : bool) (s : gset string), elements_order i b s ≡ₚ elements s)
  /\ _forward_schedule_with_custom_starts elements_order ["B"; "C"; "X"]
       [("Z", ["C"]); ("X", ["C"])] ∅ cycle_durations 50 "Z" 56
     = Ok [{| Composant := "B"; Start := 50; Finish := 64 |};
           {| Composant := "C"; Start := 50; Finish := 50 |};
           {| Composant := "X"; Start := 50; Finish := 50 |};
           {| Composant := "Z"; Start := 50; Finish := 106 |}]
  /\ exists (start finish : string -> Z) (assembly : list ScheduleRow),
       _forward_schedule_with_custom_starts elements_order ["B"; "C"; "X"]
         [("Z", ["C"]); ("X", ["C"])] ∅ cycle_durations 50 "Z" 56
       = Ok (((fun c => {| Composant := c; Start := start c; Finish := finish c |})
                <$> ["B"; "C"; "X"]) ++ assembly)
       /\ forall r, r ∈ assembly ->
            Composant r = "Z"
            /\ Finish r = Start r + 56
            /\ (forall d, d ∈ deps_of [("Z", ["C"]); ("X", ["C"])] "Z" ->
                  d ∈ ["B"; "C"; "X"] -> finish d <= Start r)
            /\ ((exists d, d ∈ deps_of [("Z", ["C"]); ("X", ["C"])] "Z"
                           /\ d ∈ ["B"; "C"; "X"]) ->
                exists d, d ∈ deps_of [("Z", ["C"]); ("X", ["C"])] "Z"
                          /\ d ∈ ["B"; "C"; "X"] /\ Start r = finish d)
            /\ ((forall d, d ∈ deps_of [("Z", ["C"]); ("X", ["C"])] "Z" ->
                   d ∉ ["B"; "C"; "X"]) ->
                (forall c, c ∈ ["B"; "C"; "X"] -> finish c <= Start r)
                /\ exists c, c ∈ ["B"; "C"; "X"] /\ Start r = finish c).
Proof.
  split; [done|]. split; [vm_compute; reflexivity|].
  by apply forward_assembly_start.
Defined.

(** ** Names that are not selected *)

Lemma filter_selected_idem (X : gset string) (l : list string) :
  filter (fun d => d ∈ X) (filter (fun d => d ∈ X) l) = filter (fun d => d ∈ X) l.
Proof.
  induction l as [|a l IH]; [done|]. rewrite (filter_cons _ a l).
  destruct (decide (a ∈ X)) as [Ha|Ha]; [|done].
  rewrite filter_cons, decide_True by done. by rewrite IH.
Qed.

Lemma dependents_inner_limit (X : gset string) (comp : string) (deps : list string)
    (m : gmap string (list string)) :
  foldl (fun m d => if decide (d ∈ X) then dependents_add comp m d else m) m
        (filter (fun d => d ∈ X) deps)
  = foldl (fun m d => if decide (d ∈ X) then dependents_add comp m d else m) m deps.
Proof.
  revert m. induction deps as [|a l IH]; intros m; [done|]. rewrite filter_cons.
  destruct (decide (a ∈ X)) as [Ha|Ha]; simpl.
  - rewrite decide_True by done. apply IH.
  - rewrite decide_False by done. apply IH.
Qed.

Lemma build_dependents_restrict (components : list string)
    (deps_map : list (string * list string)) :
  build_dependents components (restrict_deps components deps_map)
  = build_dependents components deps_map.
Proof.
  unfold build_dependents, restrict_deps, limit_deps.
  generalize (foldl (fun m c => <[c := []]> m) (∅ : gmap string (list string)) components).
  induction deps_map as [|[k v] d IH]; intros m; [done|].
  rewrite fmap_cons, filter_cons. simpl.
  destruct (decide (k ∈ (list_to_set components : gset string))) as [Hk|Hk]; simpl.
  - rewrite decide_True by done. rewrite dependents_inner_limit. apply IH.
  - apply IH.
Qed.

(** X15: the backward scheduler reads the selected part of the dependency
    map only: dropping the entries of the components that are not selected,
    and from every dependency list the names that are not selected, leaves
    the schedule as it is. *)
Theorem backward_ignores_unselected (fuel : nat) (components : list string)
    (deps_map : list (string * list string)) (assembly_start : Z)
    (durations : gmap string Z) (assembly_end : option Z)
    (assembly_name : option string) :
  _backward_schedule_with_deps fuel components (restrict_deps components deps_map)
    assembly_start durations assembly_end assembly_name
  = _backward_schedule_with_deps fuel components deps_map assembly_start durations
      assembly_end assembly_name.
Proof.
  unfold _backward_schedule_with_deps.
  by rewrite build_dependents_restrict.
Qed.

Lemma deps_of_limit (components : list string) (deps_map : list (string * list string))
    (c : string) :
  deps_of (limit_deps components deps_map) c
  = filter (fun d => d ∈ (list_to_set components : gset string)) (deps_of deps_map c).
Proof.
  unfold deps_of, limit_deps. induction deps_map as [|[k v] d IH]; [done|].
  rewrite fmap_cons. simpl. destruct (decide (c = k)); [done|apply IH].
Qed.

Lemma deps_limited_limit (components : list string)
    (deps_map : list (string * list string)) :
  deps_limited components (limit_deps components deps_map)
  = deps_limited components deps_map.
Proof.
  unfold deps_limited.
  assert (H : forall (l : list string) (m : gmap string (list string)),
            foldl (fun m c =>
                     <[c := filter (fun d => d ∈ selected components)
                              (deps_of (limit_deps components deps_map) c)]> m) m l
            = foldl (fun m c =>
                       <[c := filter (fun d => d ∈ selected components)
                                (deps_of deps_map c)]> m) m l).
  { induction l as [|a l IH]; intros m; [done|]. cbn [foldl].
    rewrite deps_of_limit. unfold selected at 1. rewrite filter_selected_idem. apply IH. }
  apply H.
Qed.

Lemma py_foldl_ext {A B} (f g : A -> B -> py A) (a : A) (l : list B) :
  (forall a x, f a x = g a x) -> py_foldl f a l = py_foldl g a l.
Proof.
  intros Hfg. revert a. induction l as [|x l IH]; intros a; [done|].
  cbn [py_foldl]. rewrite Hfg. destruct (g a x); [apply IH|done].
Qed.

Lemma forward_loop_limit (list_of_set : nat -> bool -> gset string -> list string)
    (components : list string) (deps_map : list (string * list string))
    (start_by_comp lead_days : gmap string Z) (today : Z) (budget : nat) (st : fstate) :
  forward_loop list_of_set components (limit_deps components deps_map) start_by_comp
    lead_days today budget st
  = forward_loop list_of_set components deps_map start_by_comp lead_days today budget st.
Proof.
  revert st. induction budget as [|budget IH]; intros st; [done|].
  cbn [forward_loop]. destruct (decide (remaining st = ∅)); [done|].
  rewrite (py_foldl_ext
             (relax_step components (limit_deps components deps_map) start_by_comp
                lead_days today)
             (relax_step components deps_map start_by_comp lead_days today)).
  2:{ intros a x. unfold relax_step. by rewrite deps_limited_limit. }
  destruct (py_foldl _ _ _) as [[st1 p]|e]; [|done]. cbn [py_bind].
  destruct p; [apply IH|].
  apply py_foldl_ext. intros a x. unfold force_step. by rewrite deps_limited_limit.
Qed.

(** X16: the forward scheduler ignores the dependencies on components that
    are not selected: removing from every dependency list the names that
    are not selected leaves the schedule, and the row of the assembly, as
    they are. *)
Theorem forward_ignores_unselected (list_of_set : nat -> bool -> gset string -> list string)
    (components : list string) (deps_map : list (string * list string))
    (start_by_comp lead_days : gmap string Z) (today : Z)
    (assembly_name : string) (assembly_days : Z) :
  _forward_schedule_with_custom_starts list_of_set components
    (limit_deps components deps_map) start_by_comp lead_days today assembly_name
    assembly_days
  = _forward_schedule_with_custom_starts list_of_set components deps_map start_by_comp
      lead_days today assembly_name assembly_days.
Proof.
  unfold _forward_schedule_with_custom_starts, forward_final.
  rewrite forward_loop_limit.
  destruct (forward_loop _ _ _ _ _ _ _ _) as [st|e]; [|done]. cbn [py_bind].
  unfold assembly_rows. rewrite deps_of_limit. unfold selected.
  by rewrite filter_selected_idem.
Qed.

(** ** The tier columns of a sheet *)

Lemma dict_set_keys {V} (d : list (Z * V)) (k : Z) (v : V) (x : Z) :
  x ∈ (dict_set d k v).*1 <-> x = k \/ x ∈ d.*1.
Proof.
  induction d as [|[k' v'] d IH]; simpl.
  - rewrite list_elem_of_singleton. split; [by left|]. intros [?|H]; [done|].
    by apply elem_of_nil in H.
  - destruct (decide (k = k')) as [->|Hne]; simpl.
    + rewrite !elem_of_cons. tauto.
    + rewrite !elem_of_cons, IH. tauto.
Qed.

Lemma dict_set_NoDup {V} (d : list (Z * V)) (k : Z) (v : V) :
  NoDup d.*1 -> NoDup (dict_set d k v).*1.
Proof.
  induction d as [|[k' v'] d IH]; simpl; intros Hnd.
  - apply NoDup_singleton.
  - apply NoDup_cons in Hnd as [Hk' Hnd].
    destruct (decide (k = k')) as [->|Hne]; simpl.
    + by apply NoDup_cons.
    + apply NoDup_cons. split; [|by apply IH].
      rewrite dict_set_keys. intros [?|?]; [congruence|done].
Qed.

(** On the dict read as a finite map, [d[k] = v] is an insertion. *)
Lemma dict_set_insert (d : list (Z * string)) (k : Z) (v : string) :
  (list_to_map (dict_set d k v) : gmap Z string) = <[k := v]> (list_to_map d).
Proof.
  induction d as [|[k' v'] d IH]; simpl; [done|].
  destruct (decide (k = k')) as [->|Hne]; simpl.
  - by rewrite insert_insert_eq.
  - rewrite IH. by apply insert_insert_ne.
Qed.

Section TierColumnsScan.
Variable search : string -> option match_groups.

Abbreviation scan_step :=
  (fun (result : list (Z * string)) (col : string) =>
     let col_str := strip col in
     match tier_quantity search col_str with
     | Some qty => dict_set result qty col_str
     | None => result
     end).

Lemma scan_NoDup (columns : list string) (d : list (Z * string)) :
  NoDup d.*1 -> NoDup (foldl scan_step d columns).*1.
Proof using Type.
  revert d. induction columns as [|col rest IH]; intros d Hd; [done|].
  simpl. apply IH. destruct (tier_quantity search (strip col)); [|done].
  by apply dict_set_NoDup.
Qed.

(** After the scan, a quantity maps to the name of the last column that
    carries it, or to what it mapped to before when no column does. *)
Lemma scan_lookup (columns : list string) (d : list (Z * string)) (q : Z) (c : string) :
  (list_to_map (foldl scan_step d columns) : gmap Z string) !! q = Some c
  <-> last_column_for search columns q c
      \/ ((forall col, col ∈ columns -> tier_quantity search (strip col) <> Some q)
          /\ (list_to_map d : gmap Z string) !! q = Some c).
Proof using Type.
  revert d. induction columns as [|col rest IH]; intros d.
  - simpl. split.
    + intros H. right. split; [|done]. intros col Hcol. by apply elem_of_nil in Hcol.
    + intros [(pre & col & post & E & _)|[_ H]]; [|done]. by destruct pre.
  - cbn [foldl]. rewrite IH. split.
    + intros [(pre & col' & post & -> & Hc & Hq & Hlast)|[Hnone Hd]].
      * left. exists (col :: pre), col', post. done.
      * destruct (tier_quantity search (strip col)) as [q'|] eqn:Eq.
        -- rewrite dict_set_insert in Hd.
           apply lookup_insert_Some in Hd as [[-> <-]|[Hne Hd]].
           ++ left. exists [], col, rest. done.
           ++ right. split; [|done]. intros col' Hcol'.
              apply elem_of_cons in Hcol' as [->|Hcol']; [congruence|by apply Hnone].
        -- right. split; [|done]. intros col' Hcol'.
           apply elem_of_cons in Hcol' as [->|Hcol']; [congruence|by apply Hnone].
    + intros [(pre & col' & post & E & Hc & Hq & Hlast)|[Hnone Hd]].
      * destruct pre as [|p pre]; simpl in E; injection E as <- ->.
        -- right. split; [done|]. rewrite Hc, Hq, dict_set_insert.
           by rewrite lookup_insert_eq.
        -- left. by exists pre, col', post.
      * right. split; [intros col' Hcol'; apply Hnone; by right|].
        destruct (tier_quantity search (strip col)) as [q'|] eqn:Eq; [|done].
        rewrite dict_set_insert, lookup_insert_ne; [done|].
        intros ->. by apply (Hnone col ltac:(left)).
Qed.
End TierColumnsScan.

#[local] Instance key_le_trans : Transitive key_le.
Proof. intros a b c. unfold key_le. lia. Qed.

#[local] Instance key_le_total : Total key_le.
Proof. intros a b. unfold key_le. lia. Qed.

Lemma sorted_keys_strict (r : list (Z * string)) :
  StronglySorted key_le r -> NoDup r.*1 -> StronglySorted Z.lt r.*1.
Proof.
  induction 1 as [|a r Hr IH Hall]; simpl; intros Hnd; [constructor|].
  apply NoDup_cons in Hnd as [Ha Hnd]. constructor; [by apply IH|].
  apply Forall_forall. intros x Hx. apply list_elem_of_fmap in Hx as (b & -> & Hb).
  rewrite Forall_forall in Hall. specialize (Hall b Hb). unfold key_le in Hall.
  assert (a.1 <> b.1); [|lia].
  intros E. apply Ha. rewrite E. apply list_elem_of_fmap. by exists b.
Qed.

(** What [find_tier_columns] returns once the pattern is compiled. *)
Lemma find_tier_columns_compiled
    (re_compile : string -> option (string -> option match_groups))
    (columns : list string) (regex_pattern : string)
    (search : string -> option match_groups) :
  regex_pattern <> EmptyString ->
  re_compile regex_pattern = Some search ->
  exists r,
    find_tier_columns re_compile columns regex_pattern = Some r
    /\ StronglySorted Z.lt r.*1
    /\ forall q c, (q, c) ∈ r <-> last_column_for search columns q c.
Proof.
  intros Hne Hc. unfold find_tier_columns.
  destruct (String.eqb_spec regex_pattern EmptyString) as [?|_]; [done|]. rewrite Hc.
  eexists. split; [done|].
  pose proof (scan_NoDup search columns [] (NoDup_nil_2)) as Hnd.
  set (result := foldl _ [] columns) in *.
  assert (Hperm : merge_sort key_le result ≡ₚ result) by apply merge_sort_Permutation.
  split.
  - apply sorted_keys_strict; [apply (StronglySorted_merge_sort _)|].
    by rewrite Hperm.
  - intros q c. rewrite Hperm.
    rewrite (elem_of_list_to_map (M := gmap Z) result q c Hnd).
    unfold result. rewrite scan_lookup. split; [|by left].
    intros [?|[_ H]]; [done|]. simpl in H. by rewrite lookup_empty in H.
Qed.

(** X17: [find_tier_columns] fails only when [re.compile] rejects a
    non-empty pattern; an empty pattern gives the empty table without
    being compiled; and the table it returns is in strictly increasing
    order of quantity, so no quantity occurs twice. *)
Theorem find_tier_columns_sorted
    (re_compile : string -> option (string -> option match_groups))
    (columns : list string) (regex_pattern : string) :
  find_tier_columns re_compile columns EmptyString = Some []
  /\ (find_tier_columns re_compile columns regex_pattern = None
      <-> regex_pattern <> EmptyString /\ re_compile regex_pattern = None)
  /\ forall r, find_tier_columns re_compile columns regex_pattern = Some r ->
       StronglySorted Z.lt r.*1.
Proof.
  split; [done|].
  destruct (String.eqb_spec regex_pattern EmptyString) as [->|Hne].
  { split; [split; [done|by intros [? _]]|].
    intros r [= <-]. constructor. }
  destruct (re_compile regex_pattern) as [search|] eqn:Hc.
  - destruct (find_tier_columns_compiled re_compile columns regex_pattern search Hne Hc)
      as (r & Hr & Hs & _).
    rewrite Hr. split; [split; [done|by intros [_ ?]]|]. by intros r' [= <-].
  - unfold find_tier_columns.
    destruct (String.eqb_spec regex_pattern EmptyString) as [?|_]; [done|]. rewrite Hc.
    split; [done|]. by intros r.
Qed.

(** X18: the table of [find_tier_columns] maps a quantity to the name,
    stripped of surrounding whitespace, of the last column whose first
    match of the pattern ends with a group that reads as that quantity:
    when two columns carry the same quantity the later one wins, and a
    column without a match, without a group or with a group that is not a
    number is left out. *)
Theorem find_tier_columns_last_wins
    (re_compile : string -> option (string -> option match_groups))
    (columns : list string) (regex_pattern : string)
    (search : string -> option match_groups) :
  regex_pattern <> EmptyString ->
  re_compile regex_pattern = Some search ->
  exists r,
    find_tier_columns re_compile columns regex_pattern = Some r
    /\ forall q c, (q, c) ∈ r <-> last_column_for search columns q c.
Proof.
  intros Hne Hc.
  destruct (find_tier_columns_compiled re_compile columns regex_pattern search Hne Hc)
    as (r & Hr & _ & Hel).
  by exists r.
Qed.

Lemma find_tier_columns_last_wins_witness :
  find_tier_columns (fun _ => Some number_group_search)
    ["CU pour 1000"; " CU pour 200 "; "MOQ"; "CU pour 1e3"; "prix 200"] "CU"
  = Some [(1, "CU pour 1e3"); (200, "prix 200"); (1000, "CU pour 1000")]
  /\ last_column_for number_group_search
       ["CU pour 1000"; " CU pour 200 "; "MOQ"; "CU pour 1e3"; "prix 200"] 200 "prix 200".
Proof.
  split; [vm_compute; reflexivity|].
  destruct (find_tier_columns_last_wins (fun _ => Some number_group_search)
              ["CU pour 1000"; " CU pour 200 "; "MOQ"; "CU pour 1e3"; "prix 200"] "CU"
              number_group_search) as (r & Hr & Hel); [done|done|].
  apply Hel.
  assert (E : find_tier_columns (fun _ => Some number_group_search)
                ["CU pour 1000"; " CU pour 200 "; "MOQ"; "CU pour 1e3"; "prix 200"] "CU"
              = Some [(1, "CU pour 1e3"); (200, "prix 200"); (1000, "CU pour 1000")])
    by (vm_compute; reflexivity).
  rewrite E in Hr. injection Hr as <-. right. left.
Defined.

(** X19: from the sheet to the price.  When the table that
    [find_tier_columns] builds is not empty, [pick_tier_value] on that
    table reads, for a quantity q, the cell of the last column that
    carries the breakpoint serving q (the largest breakpoint at or below q,
    else the smallest one), under its name stripped of whitespace. *)
Theorem sheet_tier_value
    (re_compile : string -> option (string -> option match_groups))
    (columns : list string) (regex_pattern : string)
    (search : string -> option match_groups) (r : list (Z * string))
    (row : gmap string value) (q : Z) (to_float : value -> py num) :
  regex_pattern <> EmptyString ->
  re_compile regex_pattern = Some search ->
  find_tier_columns re_compile columns regex_pattern = Some r ->
  r <> [] ->
  exists b col,
    tier_choice (list_to_map r) q b
    /\ last_column_for search columns b col
    /\ pick_tier_value row (list_to_map r) q to_float = to_float (row_get row col (VInt 0)).
Proof.
  intros Hne Hc Hr Hnil.
  destruct (find_tier_columns_compiled re_compile columns regex_pattern search Hne Hc)
    as (r' & Hr' & Hs & Hel).
  assert (r' = r) as -> by congruence.
  assert (Hnd : NoDup r.*1).
  { clear - Hs. induction Hs as [|a l Hl IH Hall]; [constructor|].
    apply NoDup_cons. split; [|done]. intros Ha.
    rewrite Forall_forall in Hall. specialize (Hall a Ha). lia. }
  assert (Hne' : (list_to_map r : gmap Z string) <> ∅).
  { destruct r as [|[k v] r]; [done|]. simpl. apply insert_non_empty. }
  destruct (pick_tier_value_choice row (list_to_map r) q to_float Hne')
    as (b & col & Hb & Hcol & E).
  exists b, col. split; [done|]. split; [|done].
  apply Hel. by apply (elem_of_list_to_map (M := gmap Z)).
Qed.

Lemma sheet_tier_value_witness :
  find_tier_columns (fun _ => Some number_group_search)
    ["CU pour 1000"; " CU pour 200 "; "MOQ"; "CU pour 5000"; "prix 200"] "CU"
  = Some [(200, "prix 200"); (1000, "CU pour 1000"); (5000, "CU pour 5000")]
  /\ exists b col,
       tier_choice
         (list_to_map [(200, "prix 200"); (1000, "CU pour 1000"); (5000, "CU pour 5000")])
         800 b
       /\ last_column_for number_group_search
            ["CU pour 1000"; " CU pour 200 "; "MOQ"; "CU pour 5000"; "prix 200"] b col
       /\ pick_tier_value (<["prix 200" := VStr "5,25"]> example_row)
            (list_to_map [(200, "prix 200"); (1000, "CU pour 1000"); (5000, "CU pour 5000")])
            800 to_float_arg
          = to_float_arg (row_get (<["prix 200" := VStr "5,25"]> example_row) col (VInt 0)).
Proof.
  assert (E : find_tier_columns (fun _ => Some number_group_search)
                ["CU pour 1000"; " CU pour 200 "; "MOQ"; "CU pour 5000"; "prix 200"] "CU"
              = Some [(200, "prix 200"); (1000, "CU pour 1000"); (5000, "CU pour 5000")])
    by (vm_compute; reflexivity).
  split; [exact E|].
  by apply (sheet_tier_value (fun _ => Some number_group_search)
              ["CU pour 1000"; " CU pour 200 "; "MOQ"; "CU pour 5000"; "prix 200"] "CU"
              number_group_search).
Defined.

(** ** The duration of the assembly *)

(** X20: for a sheet that has the product column and a configuration whose
    [duration_weeks] is absent or an integer, [_extract_assembly_days]
    raises nothing and returns a whole number of weeks, in days; without an
    assembly section this is 56 days; a duration read from the sheet is
    clamped at 0, but the configured fallback is not: the result is
    negative exactly when the fallback is used and [duration_weeks] is
    negative. *)
Theorem extract_assembly_days_range (df : DataFrame) (product_col : string)
    (cfg : option AssemblyCfg) :
  product_col ∈ df_columns df ->
  (forall c f, cfg = Some c -> a_duration_weeks c <> Some (NFloat f)) ->
  exists n,
    _extract_assembly_days df product_col cfg = Ok n
    /\ (7 | n)
    /\ (cfg = None -> n = 56)
    /\ (n < 0 -> exists c z, cfg = Some c /\ a_duration_weeks c = Some (NInt z)
                             /\ z < 0 /\ n = z * 7).
Proof.
  intros Hpc Hint. unfold _extract_assembly_days.
  set (asm_cfg := default _ cfg).
  set (v := match a_duration_weeks asm_cfg with
            | Some n => if num_truthy n then n else NInt 8
            | None => NInt 8
            end).
  assert (Hv : exists fw, v = NInt fw
                 /\ (cfg = None -> fw = 8)
                 /\ (fw < 0 -> exists c, cfg = Some c /\ a_duration_weeks c = Some (NInt fw))).
  { unfold v, asm_cfg. destruct cfg as [c|]; simpl.
    - destruct (a_duration_weeks c) as [[z|f]|] eqn:E.
      + simpl. destruct (Z.eqb_spec z 0) as [->|Hz]; simpl.
        * exists 8. split; [done|]. split; [done|]. lia.
        * exists z. split; [done|]. split; [done|]. intros _. by exists c.
      + by destruct (Hint c f eq_refl).
      + exists 8. split; [done|]. split; [done|]. lia.
    - exists 8. split; [done|]. split; [done|]. lia. }
  destruct Hv as (fw & -> & Hnone & Hneg). cbn [int_of_num py_bind].
  assert (Hfb : exists n, Ok (fw * 7) = Ok n /\ (7 | n) /\ (cfg = None -> n = 56)
                  /\ (n < 0 -> exists c z, cfg = Some c /\ a_duration_weeks c = Some (NInt z)
                                           /\ z < 0 /\ n = z * 7)).
  { exists (fw * 7). split; [done|]. split; [apply Z.divide_factor_r|].
    split; [intros H; rewrite (Hnone H); lia|].
    intros Hn. destruct (Hneg ltac:(lia)) as (c & Hc & Hd). exists c, fw. split; [done|].
    split; [done|]. lia. }
  destruct (negb _ && _) eqn:Hcol; [|exact Hfb].
  rewrite bool_decide_eq_true_2 by done.
  destruct (filter _ (df_rows df)) as [|row rows]; [exact Hfb|].
  eexists. split; [done|]. split; [apply Z.divide_factor_r|].
  split; [|lia].
  intros ->. simpl in Hcol. discriminate.
Qed.

Lemma extract_assembly_days_range_witness :
  "Composants" ∈ df_columns example_sheet
  /\ exists n,
       _extract_assembly_days example_sheet "Composants"
         (Some {| a_component_name := Some "Moteur";
                  a_duration_weeks_column := Some "Semaines";
                  a_duration_weeks := Some (NInt (-2)) |}) = Ok n
       /\ n = -14 /\ (7 | n).
Proof.
  assert (Hpc : "Composants" ∈ df_columns example_sheet) by left.
  split; [exact Hpc|].
  destruct (extract_assembly_days_range example_sheet "Composants"
              (Some {| a_component_name := Some "Moteur";
                       a_duration_weeks_column := Some "Semaines";
                       a_duration_weeks := Some (NInt (-2)) |}) Hpc)
    as (n & Hn & Hdiv & _ & Hneg); [by intros c f [= <-]|].
  exists n. split; [exact Hn|]. split; [|exact Hdiv].
  assert (E : _extract_assembly_days example_sheet "Composants"
                (Some {| a_component_name := Some "Moteur";
                         a_duration_weeks_column := Some "Semaines";
                         a_duration_weeks := Some (NInt (-2)) |}) = Ok (-14))
    by (vm_compute; reflexivity).
  rewrite E in Hn. by injection Hn.
Defined.

(** ** Whole numbers in cells *)

Lemma digits2_pos_size (p : positive) : digits2_pos p = Pos.size p.
Proof. induction p as [p IH|p IH|]; simpl; by rewrite ?IH. Qed.

(** The number of binary digits of a positive number is the [n] with
    [2^(n-1) <= p < 2^n]. *)
Lemma digits2_pos_bounds (p : positive) :
  2 ^ (Zpos (digits2_pos p) - 1) <= Zpos p < 2 ^ Zpos (digits2_pos p).
Proof.
  rewrite digits2_pos_size.
  pose proof (Pos.size_gt p) as Hgt. pose proof (Pos.size_le p) as Hle.
  apply Pos2Z.pos_lt_pos in Hgt. apply Pos2Z.pos_le_pos in Hle.
  rewrite Pos2Z.inj_pow in Hgt, Hle. rewrite (Pos2Z.inj_xO p) in Hle.
  replace (Zpos (Pos.size p)) with (Zpos (Pos.size p) - 1 + 1) in Hle at 1 by lia.
  rewrite Z.pow_add_r in Hle by lia. change (2 ^ 1) with 2 in Hle. lia.
Qed.

Lemma digits2_pos_unique (p : positive) (n : Z) :
  2 ^ (n - 1) <= Zpos p < 2 ^ n -> Zpos (digits2_pos p) = n.
Proof.
  intros [Hlo Hhi]. destruct (digits2_pos_bounds p) as [Hlo' Hhi'].
  assert (0 < n).
  { destruct (Z.lt_trichotomy n 0) as [Hn|[->|Hn]]; [|simpl in Hhi; lia|done].
    rewrite Z.pow_neg_r in Hhi by done. lia. }
  assert (Zpos (digits2_pos p) - 1 < n).
  { apply (Z.pow_lt_mono_r_iff 2); [lia|lia|lia]. }
  assert (n - 1 < Zpos (digits2_pos p)).
  { apply (Z.pow_lt_mono_r_iff 2); [lia|lia|lia]. }
  lia.
Qed.

Lemma div_eucl_1 (a : Z) : Z.div_eucl a 1 = (a, 0).
Proof.
  pose proof (Z.div_1_r a) as Hq. pose proof (Z.mod_1_r a) as Hr.
  unfold Z.div, Z.modulo in Hq, Hr. destruct (Z.div_eucl a 1) as [q r]. congruence.
Qed.

(** An integer below [2^53] is a float: dividing it by one gives it back,
    in canonical form. *)
Lemma SFdiv_small_int (neg : bool) (p : positive) :
  Zpos p < 2 ^ 53 ->
  exists m e,
    SFdiv prec emax (S754_finite neg p 0) (S754_finite false 1 0) = S754_finite neg m e
    /\ valid_binary (S754_finite neg m e) = true
    /\ e <= 0 /\ Zpos m = Zpos p * 2 ^ (- e).
Proof.
  intros Hp.
  destruct (digits2_pos_bounds p) as [Hlo Hhi].
  set (d := Zpos (digits2_pos p)) in *.
  assert (Hd : 1 <= d <= 53).
  { split; [unfold d; lia|].
    assert (d - 1 < 53); [|lia]. apply (Z.pow_lt_mono_r_iff 2); lia. }
  remember (53 - d) as t eqn:Et.
  assert (Ht : 0 < 2 ^ t) by (apply Z.pow_pos_nonneg; lia).
  assert (Hpt : exists pt, Zpos pt = Zpos p * 2 ^ t).
  { exists (Z.to_pos (Zpos p * 2 ^ t)). rewrite Z2Pos.id; [done|]. nia. }
  destruct Hpt as [pt Hpt].
  assert (Hdig : Zpos (digits2_pos pt) = 53).
  { apply digits2_pos_unique. rewrite Hpt.
    assert (E1 : 2 ^ (53 - 1) = 2 ^ (d - 1) * 2 ^ t).
    { rewrite <- Z.pow_add_r by lia. f_equal. lia. }
    assert (E2 : 2 ^ 53 = 2 ^ d * 2 ^ t).
    { rewrite <- Z.pow_add_r by lia. f_equal. lia. }
    rewrite E1, E2.
    split; [apply Z.mul_le_mono_nonneg_r; lia|apply Z.mul_lt_mono_pos_r; lia]. }
  exists pt, (d - 53). split; [|split; [|split; [lia|]]].
  - unfold SFdiv, SFdiv_core_binary.
    change (Zdigits2 (Zpos p)) with d. change (Zdigits2 1) with 1.
    unfold fexp, emin. change prec with 53. change emax with 1024.
    replace (Z.min (Z.max (d + 0 - (1 + 0) - 53) (3 - 1024 - 53)) (0 - 0)) with (d - 54)
      by lia.
    replace (0 - 0 - (d - 54)) with (54 - d) by lia.
    destruct (54 - d) as [|s|s] eqn:Es; [lia| |lia].
    assert (Hm : Z.shiftl (Zpos p) (Zpos s) = Zpos (xO pt)).
    { rewrite Z.shiftl_mul_pow2 by lia. rewrite (Pos2Z.inj_xO pt), Hpt, <- Es.
      replace (54 - d) with (t + 1) by lia.
      rewrite Z.pow_add_r by lia. change (2 ^ 1) with 2. lia. }
    rewrite Hm, div_eucl_1.
    change (new_location 1 0) with loc_Exact.
    unfold binary_round_aux, shr_fexp.
    change (Zdigits2 (Zpos pt~0)) with (Zpos (Pos.succ (digits2_pos pt))).
    rewrite Pos2Z.inj_succ, Hdig.
    unfold fexp, emin.
    replace (Z.max (Z.succ 53 + (d - 54) - 53) (3 - 1024 - 53) - (d - 54)) with 1 by lia.
    cbv [shr shr_record_of_loc SpecFloat.iter_pos shr_1 orb loc_of_shr_record shr_m round_nearest_even].
    change (Zdigits2 (Zpos pt)) with (Zpos (digits2_pos pt)). rewrite Hdig.
    replace (Z.max (53 + (d - 54 + 1) - 53) (3 - 1024 - 53) - (d - 54 + 1)) with 0 by lia.
    cbv [shr_m].
    replace (d - 54 + 1 <=? 1024 - 53) with true by (symmetry; apply Z.leb_le; lia).
    rewrite xorb_false_r. f_equal. lia.
  - unfold valid_binary, SpecFloat.valid_binary, bounded, canonical_mantissa.
    rewrite Hdig. unfold fexp, emin. change prec with 53. change emax with 1024.
    apply andb_true_intro. split; [apply Z.eqb_eq|apply Z.leb_le]; lia.
  - rewrite Hpt. f_equal. f_equal. lia.
Qed.

Lemma int_of_float_small (neg : bool) (p : positive) :
  Zpos p < 2 ^ 53 ->
  int_of_float (float_of_decimal neg (Zpos p) 0) = Ok (if neg then Zneg p else Zpos p).
Proof.
  intros Hp. unfold float_of_decimal.
  change (Z.to_pos (10 ^ Z.of_nat 0)) with 1%positive.
  destruct (SFdiv_small_int neg p Hp) as (m & e & -> & Hvalid & He & Hm).
  unfold int_of_float. rewrite (Prim2SF_SF2Prim _ Hvalid).
  assert (Hs : Z.shiftl (Zpos m) e = Zpos p).
  { rewrite Z.shiftl_div_pow2 by lia. rewrite Hm.
    apply Z.div_mul. apply Z.pow_nonzero; lia. }
  rewrite Hs. by destruct neg.
Qed.

Lemma int_of_float_decimal_int (neg : bool) (n : Z) :
  0 <= n < 2 ^ 53 ->
  int_of_float (float_of_decimal neg n 0) = Ok (if neg then - n else n).
Proof.
  intros Hn. destruct n as [|p|p]; [by destruct neg| |lia].
  rewrite int_of_float_small by lia. by destruct neg.
Qed.

Lemma _to_int_int (z d : Z) : Z.abs z < 2 ^ 53 -> _to_int (VInt z) d = Ok z.
Proof.
  intros Hz. unfold _to_int. simpl. rewrite replace_comma_str_of_int.
  destruct z as [|p|p].
  - reflexivity.
  - rewrite str_of_int_pos, float_of_string_pos. cbn [py_bind].
    rewrite int_of_float_small by lia. reflexivity.
  - rewrite str_of_int_neg, float_of_string_neg. cbn [py_bind].
    rewrite int_of_float_small by lia. reflexivity.
Qed.

Lemma _to_int_digits (pre : string) (c : ascii) (ds post : string) (d : Z) :
  string_forall plain_char pre = true ->
  string_forall is_digit (String c ds) = true -> ends_number post = true ->
  digits_to_Z (String c ds) < 2 ^ 53 ->
  _to_int (VStr (pre +:+ String c ds +:+ post)) d = Ok (digits_to_Z (String c ds)).
Proof.
  intros Hpre Hds Hpost Hlt. unfold _to_int. simpl _extract_number_token.
  rewrite (re_search_first_token pre c ds post Hpre Hds Hpost). simpl fmap.
  cbv iota. unfold pystr_replace_comma, py_float.
  rewrite (replace_comma_digits _ Hds), (float_of_string_digits c ds Hds). cbn [py_bind].
  rewrite int_of_float_decimal_int; [done|]. split; [|done].
  unfold digits_to_Z. destruct (NilEmpty.uint_of_string _); [|done].
  unfold Z.of_uint. lia.
Qed.

(** A minus sign right before the digits. *)
Lemma _to_int_negative (pre : string) (c : ascii) (ds post : string) (d : Z) :
  string_forall plain_char pre = true ->
  string_forall is_digit (String c ds) = true -> ends_number post = true ->
  digits_to_Z (String c ds) < 2 ^ 53 ->
  _to_int (VStr (pre +:+ String "-" (String c ds) +:+ post)) d
  = Ok (- digits_to_Z (String c ds)).
Proof.
  intros Hpre Hds Hpost Hlt.
  assert (Hsearch : re_search (pre +:+ String "-" (String c ds) +:+ post)
                    = Some (String "-" (String c ds))).
  { clear Hlt. induction pre as [|p pre IH].
    - pose proof (span_digits_app _ _ Hds Hpost) as Hsp.
      change (EmptyString +:+ String "-" (String c ds) +:+ post)
        with (String "-" (String c ds +:+ post)).
      cbn [re_search]. unfold match_number. cbn [is_sign Ascii.eqb orb].
      change (is_sign "-") with true. cbv iota. rewrite Hsp.
      destruct post as [|c' t]; [done|].
      simpl in Hpost. apply andb_prop in Hpost as [_ Hsep].
      destruct (is_sep c'); [discriminate|done].
    - simpl in Hpre. apply andb_prop in Hpre as [Hp Hpre].
      change (String p pre +:+ String "-" (String c ds) +:+ post)
        with (String p (pre +:+ String "-" (String c ds) +:+ post)).
      cbn [re_search]. rewrite (match_number_plain _ _ Hp). apply IH, Hpre. }
  unfold _to_int. simpl _extract_number_token. rewrite Hsearch. simpl fmap.
  cbv iota. unfold pystr_replace_comma, py_float.
  change (replace_comma (String "-" (String c ds)))
    with (String "-" (replace_comma (String c ds))).
  rewrite (replace_comma_digits _ Hds).
  assert (Hf : float_of_string (String "-" (String c ds))
               = Ok (float_of_decimal true (digits_to_Z (String c ds)) 0)).
  { unfold float_of_string. change (Ascii.eqb "-" "-") with true. cbv iota.
    rewrite (span_digits_all _ Hds). done. }
  rewrite Hf. cbn [py_bind].
  rewrite int_of_float_decimal_int; [done|]. split; [|done].
  unfold digits_to_Z. destruct (NilEmpty.uint_of_string _); [|done].
  unfold Z.of_uint. lia.
Qed.

(** X21: whole numbers are read without error: [_to_int] returns an int of
    magnitude below 2^53 as it is, and from a text it returns the whole
    number written by the first run of digits (below 2^53), negated when a
    minus sign stands right before it; leading zeros and surrounding text
    do not matter. *)
Theorem to_int_whole_number (default : Z) :
  (forall z, Z.abs z < 2 ^ 53 -> _to_int (VInt z) default = Ok z)
  /\ (forall pre c ds post,
        string_forall plain_char pre = true ->
        string_forall is_digit (String c ds) = true ->
        ends_number post = true ->
        digits_to_Z (String c ds) < 2 ^ 53 ->
        _to_int (VStr (pre +:+ String c ds +:+ post)) default
        = Ok (digits_to_Z (String c ds))
        /\ _to_int (VStr (pre +:+ String "-" (String c ds) +:+ post)) default
           = Ok (- digits_to_Z (String c ds)))
  /\ _to_int (VStr "MOQ: 0100 pcs") default = Ok 100.
Proof.
  split; [intros z Hz; by apply _to_int_int|]. split.
  - intros pre c ds post Hpre Hds Hpost Hlt.
    split; [by apply _to_int_digits|by apply _to_int_negative].
  - apply (_to_int_digits "MOQ: " "0" "100" " pcs"); [done|done|done|].
    vm_compute. reflexivity.
Qed.

(** X22: when the MOQ and lot-size cells of the row hold whole numbers
    written in digits (below 2^53), the offer orders exactly
    [_ceil_to_lot (max q (max 1 moq)) (max 1 lot)] for the numbers [moq]
    and [lot] written in those cells. *)
Theorem offer_qty_from_cells (row : gmap string value) (q target : Z) (mapping : Mapping)
    (config : Config) (o : Offer) (moq_col lot_col : string) (mc lc : ascii)
    (ms ls : string) :
  m_moq mapping = Some moq_col ->
  m_lot_size mapping = Some lot_col ->
  row !! moq_col = Some (VStr (String mc ms)) ->
  row !! lot_col = Some (VStr (String lc ls)) ->
  string_forall is_digit (String mc ms) = true ->
  string_forall is_digit (String lc ls) = true ->
  digits_to_Z (String mc ms) < 2 ^ 53 ->
  digits_to_Z (String lc ls) < 2 ^ 53 ->
  compute_offer row q target mapping config = Ok o ->
  qty_ordered o
  = _ceil_to_lot (Z.max q (Z.max 1 (digits_to_Z (String mc ms))))
      (Z.max 1 (digits_to_Z (String lc ls))).
Proof.
  intros Hm Hl Hmc Hlc Hmd Hld Hmlt Hllt H.
  apply compute_offer_qty in H as (moq & lot & Hmoq & Hlot & _ & _ & ->).
  rewrite Hm in Hmoq. rewrite Hl in Hlot. simpl in Hmoq, Hlot.
  assert (Hclamp : forall col c s, row !! col = Some (VStr (String c s)) ->
            string_forall is_digit (String c s) = true ->
            digits_to_Z (String c s) < 2 ^ 53 ->
            clamp_at_least_1 row col = Ok (Z.max 1 (digits_to_Z (String c s)))).
  { intros col c s Hcell Hd Hlt. unfold clamp_at_least_1, row_get. rewrite Hcell.
    pose proof (_to_int_digits EmptyString c s EmptyString 0 eq_refl Hd eq_refl Hlt) as E.
    change (EmptyString +:+ String c s +:+ EmptyString) with (String c (s +:+ EmptyString)) in E.
    rewrite string_app_nil_r in E. rewrite E. cbn [py_bind]. f_equal.
    destruct (Z.eqb_spec (digits_to_Z (String c s)) 0) as [->|Hne]; [done|].
    assert (0 <= digits_to_Z (String c s)).
    { unfold digits_to_Z. destruct (NilEmpty.uint_of_string _); [|done].
      unfold Z.of_uint. lia. }
    lia. }
  rewrite (Hclamp moq_col mc ms Hmc Hmd Hmlt) in Hmoq.
  rewrite (Hclamp lot_col lc ls Hlc Hld Hllt) in Hlot.
  injection Hmoq as <-. injection Hlot as <-. done.
Qed.

Lemma offer_qty_from_cells_witness :
  compute_offer example_offer_row 30 1000 example_mapping example_config
  = Ok (example_offer 30)
  /\ qty_ordered (example_offer 30)
     = _ceil_to_lot (Z.max 30 (Z.max 1 (digits_to_Z "100"))) (Z.max 1 (digits_to_Z "50")).
Proof.
  assert (H : compute_offer example_offer_row 30 1000 example_mapping example_config
              = Ok (example_offer 30)) by (vm_compute; reflexivity).
  split; [exact H|].
  apply (offer_qty_from_cells example_offer_row 30 1000 example_mapping example_config
           (example_offer 30) "MOQ" "Lot" "1" "5" "00" "0");
    try reflexivity; try exact H; vm_compute; reflexivity.
Defined.

(** ** The exceptions of [compute_offer] *)

Lemma float_of_int_Raise (z : Z) (e : exn) : float_of_int z = Raise e -> e = OverflowError.
Proof.
  unfold float_of_int. destruct (binary_normalize prec emax z 0 false); try discriminate.
  by intros [= <-].
Qed.

Lemma int_times_float_Raise (n : Z) (x : float) (e : exn) :
  int_times_float n x = Raise e -> e = OverflowError.
Proof.
  unfold int_times_float. destruct (float_of_int n) eqn:E; [discriminate|].
  intros [= <-]. by apply float_of_int_Raise in E.
Qed.

Lemma cfg_float_Raise (pricing_cfg : gmap string (option num)) (key : string) (e : exn) :
  cfg_float pricing_cfg key = Raise e -> e = OverflowError.
Proof.
  unfold cfg_float, py_float_of_num.
  destruct (match pricing_cfg !! key with Some v => v | None => Some (NInt 0) end)
    as [[z|f]|]; simpl.
  - destruct (negb (z =? 0)); [apply float_of_int_Raise|discriminate].
  - destruct (negb (f =? 0)%float); discriminate.
  - discriminate.
Qed.

Lemma _apply_pricing_overheads_Raise (amount : float)
    (pricing_cfg : option (gmap string (option num))) (e : exn) :
  _apply_pricing_overheads amount pricing_cfg = Raise e ->
  e = OverflowError \/ (e = AttributeError /\ pricing_cfg = None).
Proof.
  unfold _apply_pricing_overheads. destruct pricing_cfg as [d|]; [|intros [= <-]; by right].
  destruct (cfg_float d "handling_flat") eqn:E1;
    [|intros [= <-]; left; by apply cfg_float_Raise in E1].
  destruct (cfg_float d "handling_percent") eqn:E2;
    [discriminate|intros [= <-]; left; by apply cfg_float_Raise in E2].
Qed.

(** X23: with pricing entries that are numbers or [None], the only
    exceptions that leave [compute_offer] are [OverflowError] (an integer
    too large for a float: the ordered quantity or a handling entry) and
    [AttributeError]; the latter only when the key ["pricing"] holds an
    object that is not a dict, and then no offer is returned at all.  No
    row, mapping or quantity makes it raise a [KeyError], [IndexError],
    [TypeError] or [ValueError].  Both exceptions occur: for 2^1024 units,
    and for an empty pricing section. *)
Theorem compute_offer_only_overflow (row : gmap string value) (q target : Z)
    (mapping : Mapping) (config : Config) :
  (forall e, compute_offer row q target mapping config = Raise e ->
     e = OverflowError \/ (e = AttributeError /\ c_pricing_entry config = PricingOther))
  /\ (c_pricing_entry config = PricingOther ->
      forall o, compute_offer row q target mapping config <> Ok o)
  /\ compute_offer example_offer_row (2 ^ 1024) 1000 example_mapping example_config
     = Raise OverflowError
  /\ compute_offer example_offer_row 30 1000 example_mapping
       {| c_pricing_entry := PricingOther |}
     = Raise AttributeError.
Proof.
  split; [|split; [|split; vm_compute; reflexivity]].
  - intros e. unfold compute_offer.
    destruct (_prepare_fields_total row mapping q) as [f ->]. cbn [py_bind].
    assert (Hcfg : config_get_pricing config = None ->
                   c_pricing_entry config = PricingOther).
    { unfold config_get_pricing. by destruct (c_pricing_entry config). }
    repeat match goal with
           | |- py_bind ?m _ = Raise _ -> _ =>
               let E := fresh "E" in
               destruct m eqn:E; cbn [py_bind];
               [|intros [= <-];
                 first [left; by apply int_times_float_Raise in E
                       |apply _apply_pricing_overheads_Raise in E as [?|[? ?]];
                        [by left|right; by auto]]]
           end.
    discriminate.
  - intros Hother o H. unfold compute_offer in H.
    py_inv H as f Hf. py_inv H as aa Haa. py_inv H as ac Hac.
    unfold config_get_pricing in Hac. rewrite Hother in Hac. discriminate.
Qed.

(** ** The iteration order of the set of remaining components *)

(** The state in which the forward loop ends. *)
Lemma forward_final_state (list_of_set : nat -> bool -> gset string -> list string)
    (components : list string) (deps_map : list (string * list string))
    (start_by_comp lead_days : gmap string Z) (today : Z) :
  (forall i b s, list_of_set i b s ≡ₚ elements s) ->
  exists st,
    forward_final list_of_set components deps_map start_by_comp lead_days today = Ok st
    /\ (forall c, is_Some (starts st !! c) <-> c ∈ components)
    /\ (forall c, is_Some (finishes st !! c) <-> c ∈ components)
    /\ forward_tight components deps_map start_by_comp lead_days today st
    /\ (acyclic_selection components deps_map ->
        forward_ok components deps_map start_by_comp lead_days today st).
Proof.
  intros Hperm. unfold forward_final.
  destruct (forward_loop_spec list_of_set components deps_map start_by_comp lead_days
              today Hperm (length components * 3) (forward_init components)
              (forward_init_dom components)) as (st & Hst & (_ & Hs & Hf) & Hrem & _).
  { simpl. pose proof (size_list_to_set_le components). lia. }
  exists st. split; [done|].
  assert (Hsel : forall c, c ∈ selected components /\ c ∉ remaining st <-> c ∈ components).
  { intros c. rewrite Hrem. unfold selected. rewrite elem_of_list_to_set. set_solver. }
  split; [intros c; by rewrite Hs|]. split; [intros c; by rewrite Hf|]. split.
  - by apply (forward_final_tight list_of_set components deps_map start_by_comp lead_days
                today Hperm).
  - intros Hacyc.
    by apply (forward_loop_ok list_of_set components deps_map start_by_comp lead_days today
                Hperm (length components * 3) (forward_init components) st Hacyc
                (forward_init_dom components)
                (forward_init_ok components deps_map start_by_comp lead_days today)).
Qed.

(** When the constraints hold with no slack, the start of a component is
    determined by the finishes of its dependencies. *)
Lemma forward_start_max (components : list string) (deps_map : list (string * list string))
    (start_by_comp lead_days : gmap string Z) (today : Z) (st : fstate) (c : string)
    (s f : Z) :
  forward_ok components deps_map start_by_comp lead_days today st ->
  forward_tight components deps_map start_by_comp lead_days today st ->
  starts st !! c = Some s -> finishes st !! c = Some f ->
  s = max_list (own_start_of start_by_comp today c)
        ((fun d => default 0 (finishes st !! d)) <$> deps_limited_get components deps_map c)
  /\ f = s + Z.max 0 (default 0 (lead_days !! c)).
Proof.
  intros Hok Htight Hs Hf.
  destruct (Htight c s f Hs Hf) as (Hown & Hfin & Hjust).
  destruct (Hok c s f Hs Hf) as (_ & _ & Hdeps).
  split; [|done]. apply max_list_unique; [done| |].
  - intros y Hy. apply list_elem_of_fmap in Hy as (d & -> & Hd).
    destruct (Hdeps d Hd) as (fd & Hfd & Hle). by rewrite Hfd.
  - destruct Hjust as [->|(d & Hd & Hfd)]; [left|right].
    apply list_elem_of_fmap. exists d. split; [by rewrite Hfd|done].
Qed.

(** On an acyclic selection, two runs of the loop end with the same starts
    and finishes. *)
Lemma forward_final_unique (components : list string)
    (deps_map : list (string * list string)) (start_by_comp lead_days : gmap string Z)
    (today : Z) (st1 st2 : fstate) :
  acyclic_selection components deps_map ->
  (forall c, is_Some (starts st1 !! c) <-> c ∈ components) ->
  (forall c, is_Some (finishes st1 !! c) <-> c ∈ components) ->
  (forall c, is_Some (starts st2 !! c) <-> c ∈ components) ->
  (forall c, is_Some (finishes st2 !! c) <-> c ∈ components) ->
  forward_ok components deps_map start_by_comp lead_days today st1 ->
  forward_tight components deps_map start_by_comp lead_days today st1 ->
  forward_ok components deps_map start_by_comp lead_days today st2 ->
  forward_tight components deps_map start_by_comp lead_days today st2 ->
  starts st1 = starts st2 /\ finishes st1 = finishes st2.
Proof.
  intros Hacyc Hs1 Hf1 Hs2 Hf2 Hok1 Ht1 Hok2 Ht2.
  assert (Hsucc : forall x, ~ tc (fun a b => b ∈ deps_limited_get components deps_map a) x x).
  { intros x Hx. apply (Hacyc x).
    apply tc_sub with (R := fun a b => b ∈ deps_limited_get components deps_map a); [|done].
    intros a b Hab. by apply deps_limited_get_depends. }
  set (B := filter (fun c => starts st1 !! c <> starts st2 !! c)
                   (list_to_set components : gset string)).
  assert (HB : B = ∅).
  { destruct (decide (B = ∅)) as [|Hne]; [done|]. exfalso.
    apply set_choose_L in Hne as [x Hx].
    destruct (exists_ready (deps_limited_get components deps_map) Hsucc (size B) B x
                ltac:(lia) Hx) as (m & Hm & _ & Hmin).
    apply elem_of_filter in Hm as [Hdiff Hmc]. apply elem_of_list_to_set in Hmc.
    destruct (proj2 (Hs1 m) Hmc) as [s1 Hs1m]. destruct (proj2 (Hf1 m) Hmc) as [f1 Hf1m].
    destruct (proj2 (Hs2 m) Hmc) as [s2 Hs2m]. destruct (proj2 (Hf2 m) Hmc) as [f2 Hf2m].
    destruct (forward_start_max _ _ _ _ _ _ _ _ _ Hok1 Ht1 Hs1m Hf1m) as [E1 _].
    destruct (forward_start_max _ _ _ _ _ _ _ _ _ Hok2 Ht2 Hs2m Hf2m) as [E2 _].
    apply Hdiff. rewrite Hs1m, Hs2m. f_equal. rewrite E1, E2. f_equal.
    apply list_fmap_ext. intros i d Hd. apply list_elem_of_lookup_2 in Hd.
    pose proof (proj1 (deps_limited_get_elem _ _ _ _) Hd) as (_ & Hdc & _).
    assert (Hsd : starts st1 !! d = starts st2 !! d).
    { destruct (decide (starts st1 !! d = starts st2 !! d)) as [|Hn]; [done|].
      destruct (Hmin d Hd). apply elem_of_filter. split; [done|].
      by apply elem_of_list_to_set. }
    destruct (proj2 (Hs1 d) Hdc) as [sd1 Hsd1]. destruct (proj2 (Hf1 d) Hdc) as [fd1 Hfd1].
    destruct (proj2 (Hs2 d) Hdc) as [sd2 Hsd2]. destruct (proj2 (Hf2 d) Hdc) as [fd2 Hfd2].
    destruct (Ht1 d sd1 fd1 Hsd1 Hfd1) as (_ & -> & _).
    destruct (Ht2 d sd2 fd2 Hsd2 Hfd2) as (_ & -> & _).
    rewrite Hfd1, Hfd2. simpl. congruence. }
  assert (Hstarts : forall c, starts st1 !! c = starts st2 !! c).
  { intros c. destruct (decide (c ∈ components)) as [Hc|Hc].
    - destruct (decide (starts st1 !! c = starts st2 !! c)) as [|Hn]; [done|].
      assert (c ∈ B) as Hin; [|rewrite HB in Hin; by apply elem_of_empty in Hin].
      apply elem_of_filter. split; [done|]. by apply elem_of_list_to_set.
    - destruct (starts st1 !! c) eqn:E1; [destruct Hc; apply Hs1; by eexists|].
      destruct (starts st2 !! c) eqn:E2; [destruct Hc; apply Hs2; by eexists|]. done. }
  split; [by apply map_eq|]. apply map_eq. intros c.
  destruct (decide (c ∈ components)) as [Hc|Hc].
  - destruct (proj2 (Hs1 c) Hc) as [s1 Hs1c]. destruct (proj2 (Hf1 c) Hc) as [f1 Hf1c].
    destruct (proj2 (Hs2 c) Hc) as [s2 Hs2c]. destruct (proj2 (Hf2 c) Hc) as [f2 Hf2c].
    destruct (Ht1 c s1 f1 Hs1c Hf1c) as (_ & -> & _).
    destruct (Ht2 c s2 f2 Hs2c Hf2c) as (_ & -> & _).
    rewrite Hf1c, Hf2c. pose proof (Hstarts c) as E. rewrite Hs1c, Hs2c in E. congruence.
  - destruct (finishes st1 !! c) eqn:E1; [destruct Hc; apply Hf1; by eexists|].
    destruct (finishes st2 !! c) eqn:E2; [destruct Hc; apply Hf2; by eexists|]. done.
Qed.

(** X24: Python does not fix the order in which the set of remaining
    components is iterated.  When the selected part of the dependency map
    is acyclic, the forward schedule does not depend on that order: any two
    iteration orders give the same rows.  With a cycle it can depend on it:
    for A and B depending on each other, one order plans A before B and the
    reverse order plans B before A. *)
Theorem forward_order_independent
    (order1 order2 : nat -> bool -> gset string -> list string)
    (components : list string) (deps_map : list (string * list string))
    (start_by_comp lead_days : gmap string Z) (today : Z)
    (assembly_name : string) (assembly_days : Z) :
  (forall i b s, order1 i b s ≡ₚ elements s) ->
  (forall i b s, order2 i b s ≡ₚ elements s) ->
  (acyclic_selection components deps_map ->
   _forward_schedule_with_custom_starts order1 components deps_map start_by_comp
     lead_days today assembly_name assembly_days
   = _forward_schedule_with_custom_starts order2 components deps_map start_by_comp
       lead_days today assembly_name assembly_days)
  /\ _forward_schedule_with_custom_starts elements_order ["A"; "B"] cycle_deps ∅
       cycle_durations 50 "Z" 56
     <> _forward_schedule_with_custom_starts reverse_order ["A"; "B"] cycle_deps ∅
          cycle_durations 50 "Z" 56.
Proof.
  intros Hperm1 Hperm2. split.
  - intros Hacyc.
    destruct (forward_final_state order1 components deps_map start_by_comp lead_days today
                Hperm1) as (st1 & Hst1 & Hs1 & Hf1 & Ht1 & Hok1).
    destruct (forward_final_state order2 components deps_map start_by_comp lead_days today
                Hperm2) as (st2 & Hst2 & Hs2 & Hf2 & Ht2 & Hok2).
    destruct (forward_final_unique components deps_map start_by_comp lead_days today
                st1 st2 Hacyc Hs1 Hf1 Hs2 Hf2 (Hok1 Hacyc) Ht1 (Hok2 Hacyc) Ht2)
      as [Es Ef].
    unfold _forward_schedule_with_custom_starts. rewrite Hst1, Hst2. cbn [py_bind].
    unfold forward_rows. by rewrite Es, Ef.
  - intros H. vm_compute in H. discriminate.
Qed.

Lemma forward_order_independent_witness :
  (forall (i : nat) (b : bool) (s : gset string), elements_order i b s ≡ₚ elements s)
  /\ (forall (i : nat) (b : bool) (s : gset string), reverse_order i b s ≡ₚ elements s)
  /\ acyclic_selection ["A"; "B"; "C"; "D"] diamond_deps
  /\ _forward_schedule_with_custom_starts elements_order ["A"; "B"; "C"; "D"] diamond_deps
       ∅ cycle_durations 50 "Z" 56
     = _forward_schedule_with_custom_starts reverse_order ["A"; "B"; "C"; "D"] diamond_deps
         ∅ cycle_durations 50 "Z" 56.
Proof.
  assert (H1 : forall (i : nat) (b : bool) (s : gset string),
             elements_order i b s ≡ₚ elements s) by done.
  assert (H2 : forall (i : nat) (b : bool) (s : gset string),
             reverse_order i b s ≡ₚ elements s).
  { intros i b s. unfold reverse_order. apply reverse_Permutation. }
  split; [exact H1|]. split; [exact H2|]. split; [exact diamond_acyclic|].
  exact (proj1 (forward_order_independent elements_order reverse_order
                  ["A"; "B"; "C"; "D"] diamond_deps ∅ cycle_durations 50 "Z" 56 H1 H2)
           diamond_acyclic).
Defined.

(** ** Moving the milestone *)

Lemma min_list_shift (k x : Z) (l : list Z) :
  min_list (x + k) ((fun y => y + k) <$> l) = min_list x l + k.
Proof.
  unfold min_list. revert x. induction l as [|a l IH]; intros x; simpl; [done|].
  rewrite <- IH. f_equal. lia.
Qed.

Lemma starts_of_dependents_shift (k : Z) (durations finish : gmap string Z)
    (l : list string) :
  starts_of_dependents durations ((fun f => f + k) <$> finish) l
  = (fun y => y + k) <$> starts_of_dependents durations finish l.
Proof.
  unfold starts_of_dependents. induction l as [|d l IH]; [done|].
  cbn [omap list_omap]. rewrite lookup_fmap, IH.
  destruct (finish !! d) as [f|]; simpl; [|done]. f_equal. lia.
Qed.

Lemma backward_step_shift (k : Z) (dependents : gmap string (list string))
    (assembly_start : Z) (durations : gmap string Z) (assembly_end : option Z)
    (assembly_name : option string) (finish : gmap string Z) (c : string) :
  backward_step dependents (assembly_start + k) durations ((fun e => e + k) <$> assembly_end)
    assembly_name ((fun f => f + k) <$> finish) c
  = (fun f => f + k) <$> backward_step dependents assembly_start durations assembly_end
                           assembly_name finish c.
Proof.
  unfold backward_step. destruct (dependents_get dependents c) as [|d ds].
  - destruct assembly_name as [a|], assembly_end as [e|]; simpl;
      try (by rewrite fmap_insert).
    destruct (negb (String.eqb a EmptyString) && String.eqb c a); by rewrite fmap_insert.
  - rewrite starts_of_dependents_shift.
    destruct (starts_of_dependents durations finish (d :: ds)) as [|s rest]; simpl.
    + by rewrite fmap_insert.
    + by rewrite min_list_shift, fmap_insert.
Qed.

Lemma backward_finish_shift (k : Z) (dependents : gmap string (list string))
    (assembly_start : Z) (durations : gmap string Z) (assembly_end : option Z)
    (assembly_name : option string) (order : list string) :
  backward_finish dependents (assembly_start + k) durations
    ((fun e => e + k) <$> assembly_end) assembly_name order
  = (fun f => f + k) <$> backward_finish dependents assembly_start durations assembly_end
                           assembly_name order.
Proof.
  unfold backward_finish. induction order as [|c order IH] using rev_ind.
  - simpl. by rewrite fmap_empty.
  - rewrite !foldl_app. simpl. rewrite IH. apply backward_step_shift.
Qed.

(** X25: the backward schedule depends on the milestone only through a
    translation: moving the milestone (and the end date of the assembly,
    when one is passed) by k days moves the start and the finish of every
    row by k days, whatever the dependency map. *)
Theorem backward_shift (fuel : nat) (components : list string)
    (deps_map : list (string * list string)) (assembly_start : Z)
    (durations : gmap string Z) (assembly_end : option Z)
    (assembly_name : option string) (k : Z) :
  _backward_schedule_with_deps fuel components deps_map (assembly_start + k) durations
    ((fun e => e + k) <$> assembly_end) assembly_name
  = (fun rows : list ScheduleRow => shift_row k <$> rows)
      <$> _backward_schedule_with_deps fuel components deps_map assembly_start durations
            assembly_end assembly_name.
Proof.
  unfold _backward_schedule_with_deps.
  destruct (backward_order fuel components (build_dependents components deps_map))
    as [[V O]|]; [|done].
  simpl. f_equal. rewrite backward_finish_shift, <- list_fmap_compose.
  apply list_fmap_ext. intros i c _. unfold backward_row, shift_row. simpl.
  rewrite lookup_fmap.
  destruct (backward_finish _ assembly_start durations assembly_end assembly_name O !! c);
    simpl; f_equal; lia.
Qed.

(** ** The two readings of [float] *)

Lemma drop_underscores_float_char (prev : ascii) (s : string) :
  Ascii.eqb prev "_" = false ->
  string_forall float_char s = true ->
  drop_underscores prev s = Some s.
Proof.
  revert prev. induction s as [|c t IH]; intros prev Hprev Hs; simpl.
  - by rewrite Hprev.
  - simpl in Hs. apply andb_prop in Hs as [Hc Ht].
    apply andb_prop in Hc as [Hc _]. apply negb_true_iff in Hc.
    rewrite Hc, Hprev. simpl. by rewrite (IH c Hc Ht).
Qed.

Lemma rstrip_float_char (s : string) :
  string_forall float_char s = true -> rstrip is_float_space s = s.
Proof.
  induction s as [|c t IH]; [done|]. simpl. intros H.
  apply andb_prop in H as [Hc Ht]. rewrite (IH Ht).
  apply andb_prop in Hc as [_ Hc]. apply negb_true_iff in Hc.
  destruct t; [by rewrite Hc|done].
Qed.

Lemma lstrip_float_char (s : string) :
  string_forall float_char s = true -> lstrip is_float_space s = s.
Proof.
  destruct s as [|c t]; [done|]. simpl. intros H.
  apply andb_prop in H as [Hc _]. apply andb_prop in Hc as [_ Hc].
  apply negb_true_iff in Hc. by rewrite Hc.
Qed.

Lemma digit_float_char (c : ascii) : is_digit c = true -> float_char c = true.
Proof.
  intros H. unfold float_char. apply andb_true_intro. split; apply negb_true_iff.
  - destruct (Ascii.eqb_spec c "_") as [->|]; [|done]. vm_compute in H. discriminate.
  - unfold is_digit in H. unfold is_float_space.
    apply andb_prop in H as [H1 H2]. apply Nat.leb_le in H1, H2.
    apply orb_false_intro; [apply andb_false_intro2; apply Nat.leb_gt|apply Nat.eqb_neq]; lia.
Qed.

Lemma digits_float_char (ds : string) :
  string_forall is_digit ds = true -> string_forall float_char ds = true.
Proof.
  induction ds as [|c t IH]; [done|]. simpl. intros H.
  apply andb_prop in H as [Hc Ht]. by rewrite (digit_float_char c Hc), (IH Ht).
Qed.

Lemma string_forall_app (p : ascii -> bool) (a b : string) :
  string_forall p (a +:+ b) = (string_forall p a && string_forall p b)%bool.
Proof.
  induction a as [|x a IH]; [done|].
  change (string_forall p (String x (a +:+ b))
          = (string_forall p (String x a) && string_forall p b)%bool).
  simpl. by rewrite IH, andb_assoc.
Qed.

(** The number that [float_of_string] reads from a text without a sign. *)
Lemma float_unsigned_agree (neg : bool) (s1 : string) (x : float) (other : py float) :
  (let '(ds, s2) := span_digits s1 in
   match ds with
   | EmptyString => Raise ValueError
   | _ =>
       match s2 with
       | EmptyString => Ok (float_of_decimal neg (digits_to_Z ds) 0)
       | String c t =>
           if Ascii.eqb c "." then
             let '(fs, s3) := span_digits t in
             match fs, s3 with
             | String _ _, EmptyString =>
                 Ok (float_of_decimal neg (digits_to_Z (ds +:+ fs)) (String.length fs))
             | _, _ => Raise ValueError
             end
           else Raise ValueError
       end
   end) = Ok x ->
  string_forall float_char s1 = true
  /\ (let '(ip, s2) := span_digits s1 in
      let '(fp, s3) :=
        match s2 with
        | String c t => if Ascii.eqb c "." then span_digits t else (EmptyString, s2)
        | EmptyString => (EmptyString, s2)
        end in
      match ip +:+ fp with
      | EmptyString => other
      | ds =>
          let '(e, s4) := parse_exponent s3 in
          match s4 with
          | EmptyString =>
              Ok (float_of_sci neg (digits_to_Z ds) (e - Z.of_nat (String.length fp)))
          | _ => Raise ValueError
          end
      end) = Ok x.
Proof.
  destruct (span_digits s1) as [ds s2] eqn:E1.
  apply span_digits_spec in E1 as (-> & Hds & _).
  destruct ds as [|d ds']; [done|].
  destruct s2 as [|c t].
  - intros [= <-]. rewrite string_app_nil_r. split; [by apply digits_float_char|].
    cbv iota beta.
    change (String d ds' +:+ EmptyString) with (String d (ds' +:+ EmptyString)).
    cbv iota beta. cbn [parse_exponent String.length].
    unfold float_of_sci. simpl (0 <=? _).
    by rewrite Z.mul_1_r.
  - destruct (Ascii.eqb_spec c ".") as [->|]; [|done].
    destruct (span_digits t) as [fs s3] eqn:E2.
    apply span_digits_spec in E2 as (-> & Hfs & _).
    destruct fs as [|f fs']; [done|]. destruct s3; [|done].
    intros [= <-]. rewrite string_app_nil_r. split.
    + rewrite string_forall_app. rewrite (digits_float_char _ Hds).
      change (string_forall float_char (String "." (String f fs')))
        with (string_forall float_char (String f fs')).
      by rewrite (digits_float_char _ Hfs).
    + change (String d ds' +:+ String f fs') with (String d (ds' +:+ String f fs')).
      cbn [parse_exponent]. unfold float_of_sci.
      replace (0 <=? 0 - Z.of_nat (String.length (String f fs'))) with false
        by (symmetry; apply Z.leb_gt; simpl String.length; lia).
      replace (Z.to_nat (- (0 - Z.of_nat (String.length (String f fs')))))
        with (S (String.length fs')) by (cbn [String.length]; lia).
      reflexivity.
Qed.

(** On every text that [float_of_string] reads, the full reading of [float]
    gives the same number: the short form used on the tokens of the pricing
    cells is the restriction of [float_of_text] to those texts. *)
Lemma float_of_text_extends (s : string) (x : float) :
  float_of_string s = Ok x -> float_of_text s = Ok x.
Proof.
  unfold float_of_string, float_of_text. intros H.
  assert (Hs : string_forall float_char s = true
               /\ split_sign s = (match s with
                                  | String c t =>
                                      if Ascii.eqb c "-" then (true, t)
                                      else if Ascii.eqb c "+" then (false, t)
                                      else (false, s)
                                  | EmptyString => (false, s)
                                  end)) .
  { split; [|done]. destruct s as [|c t]; [done|].
    destruct (Ascii.eqb_spec c "-") as [->|];
      [apply (float_unsigned_agree _ _ _ (Raise ValueError)) in H as [H _];
       simpl; by rewrite H|].
    destruct (Ascii.eqb_spec c "+") as [->|];
      [apply (float_unsigned_agree _ _ _ (Raise ValueError)) in H as [H _];
       simpl; by rewrite H|].
    by apply (float_unsigned_agree _ _ _ (Raise ValueError)) in H as [H _]. }
  destruct Hs as [Hplain Hsign].
  rewrite (drop_underscores_float_char Ascii.zero s eq_refl Hplain).
  rewrite (lstrip_float_char s Hplain), (rstrip_float_char s Hplain), Hsign.
  destruct (match s with
            | String c t =>
                if Ascii.eqb c "-" then (true, t)
                else if Ascii.eqb c "+" then (false, t)
                else (false, s)
            | EmptyString => (false, s)
            end) as [neg s1].
  apply (float_unsigned_agree neg s1 x (parse_inf_nan s)) in H as [_ H].
  destruct (span_digits s1) as [ip s2].
  destruct (match s2 with
            | String c t => if Ascii.eqb c "." then span_digits t else (EmptyString, s2)
            | EmptyString => (EmptyString, s2)
            end) as [fp s3].
  exact H.
Qed.
